(** * Client Lens: comment threading, pin numbering and unread statistics

    A shallow embedding of the comment subsystem of the Client Lens
    application:

    - [shared/schema.ts]: the relational data model and the insert schema
      of comments;
    - [client/src/lib/commentUtils.ts]: [buildCommentTree], which threads a
      flat list of comments into a forest of mutable nodes;
    - [client/src/components/ImageWithComments.tsx] and
      [PDFWithComments.tsx]: selection and numbering of the visual pins;
    - [server/storage.ts]: [getProjectView], [updateProjectView] and
      [getProjectsWithCommentStats];
    - [server/routes.ts]: the [POST /api/comments] handler.

    and, further on, of the code around it: the other helpers of
    [commentUtils.ts], the sidebar list of threads, the state of the PDF
    viewer, the timeline of a video, the comment form, the thumbnails of
    the project list, the single-row queries and the deletions of the
    store, and three more routes.

    Timestamps ([Date] values and their [getTime()]) are integers:
    milliseconds since the epoch.  Rows of a table are a list in table
    order.  JavaScript objects that are mutated after they are shared
    (the nodes of the comment forest) live in an explicit heap. *)

From stdpp Require Import base option list gmap strings sorting.
From Stdlib Require Import ZArith Lia.

Open Scope Z_scope.

(** ** Data model ([shared/schema.ts]) *)

Module Comment.
Record t := mk {
  id : string;
  fileId : string;
  parentId : option string;
  name : string;
  email : option string;
  content : string;
  tag : string;
  positionX : option Z;
  positionY : option Z;
  timestamp : option Z;
  page : option Z;
  createdAt : Z;
  updatedAt : Z
}.
End Comment.

Module File.
Record t := mk {
  id : string;
  projectId : string;
  name : string;
  originalName : string;
  mimeType : string;
  size : string;
  objectPath : string;
  publicId : option string;
  uploadedAt : Z
}.
End File.

Module Project.
Record t := mk {
  id : string;
  publicId : string;
  title : string;
  userId : string;
  createdAt : Z;
  updatedAt : Z
}.
End Project.

Module ProjectView.
Record t := mk {
  id : string;
  userId : string;
  projectId : string;
  lastViewedAt : Z
}.
End ProjectView.

(** ** [Array.prototype.sort] with a numeric key

    Every comparator in the sources has the shape
    [(a, b) => key(a) - key(b)].  ECMAScript requires [sort] to be stable,
    and the stable ascending arrangement of a list is unique; insertion
    from the right, placing an element before the first one that is not
    smaller, computes it. *)

Section Sort.
Context {A : Type} (key : A → Z).

Fixpoint insertBy (x : A) (l : list A) : list A :=
  match l with
  | [] => [x]
  | y :: l' =>
      if bool_decide (key y < key x) then y :: insertBy x l'
      else x :: y :: l'
  end.

Definition sortBy (l : list A) : list A := foldr insertBy [] l.

Definition ascending (l : list A) : Prop :=
  StronglySorted (λ a b, key a ≤ key b) l.
End Sort.

(** ** JavaScript truthiness of a nullable string

    [if (comment.parentId)] and [!comment.parentId] treat [null] and the
    empty string alike. *)

Definition truthy (s : option string) : option string :=
  match s with
  | Some x => if bool_decide (x = EmptyString) then None else Some x
  | None => None
  end.

Definition isRoot (c : Comment.t) : bool :=
  match truthy (Comment.parentId c) with Some _ => false | None => true end.

(** ** The store ([server/storage.ts]) *)

Record Db := mkDb {
  projects : list Project.t;
  files : list File.t;
  comments : list Comment.t;
  projectViews : list ProjectView.t
}.

(** [ORDER BY col DESC] leaves the order of rows with equal [col] to the
    database.  The three list queries below return the arrangement that a
    stable sort of the table gives; [mayReturn], further on, describes every
    arrangement the database may return, and what is proved about the
    order of a result either holds for each of them or is stated for all of
    them. *)

Definition getProjectsByUserId (db : Db) (userId : string) : list Project.t :=
  sortBy (λ p, - Project.createdAt p)
    (filter (λ p, Project.userId p = userId) (projects db)).

Definition getFilesByProjectId (db : Db) (projectId : string) : list File.t :=
  sortBy (λ f, - File.uploadedAt f)
    (filter (λ f, File.projectId f = projectId) (files db)).

Definition getCommentsByFileId (db : Db) (fileId : string) : list Comment.t :=
  sortBy (λ c, - Comment.createdAt c)
    (filter (λ c, Comment.fileId c = fileId) (comments db)).

Definition viewMatches (userId projectId : string) (v : ProjectView.t) : Prop :=
  ProjectView.userId v = userId ∧ ProjectView.projectId v = projectId.

#[global] Instance viewMatches_dec u p v : Decision (viewMatches u p v).
Proof. unfold viewMatches. apply _. Defined.

(** [const [view] = await db.select()...where(...)]: the first matching row. *)
Definition getProjectView (db : Db) (userId projectId : string)
  : option ProjectView.t :=
  head (filter (viewMatches userId projectId) (projectViews db)).

Definition setLastViewedAt (now : Z) (v : ProjectView.t) : ProjectView.t :=
  ProjectView.mk (ProjectView.id v) (ProjectView.userId v)
    (ProjectView.projectId v) now.

(** The effect of [UPDATE ... SET lastViewedAt = now WHERE ...] on a row. *)
Definition touchView (userId projectId : string) (now : Z) (v : ProjectView.t)
  : ProjectView.t :=
  if decide (viewMatches userId projectId v) then setLastViewedAt now v else v.

(** [updateProjectView]: [now] is the value of [new Date()], [newId] the
    identifier the database would give a new row.  The [UPDATE] touches
    every row that satisfies its [WHERE] clause.  This is a call that runs
    to completion with no other statement between its [SELECT] and its
    write; [callStep], further on, takes the two statements one at a time,
    for calls that overlap. *)
Definition updateProjectView (db : Db) (userId projectId : string)
    (now : Z) (newId : string) : Db * option ProjectView.t :=
  match getProjectView db userId projectId with
  | Some _ =>
      let db' := mkDb (projects db) (files db) (comments db)
                      (touchView userId projectId now <$> projectViews db) in
      (db', getProjectView db' userId projectId)
  | None =>
      let v := ProjectView.mk newId userId projectId now in
      (mkDb (projects db) (files db) (comments db) (projectViews db ++ [v]),
       Some v)
  end.

Record ProjectWithCommentStats := mkStats {
  project : Project.t;
  statFiles : list File.t;
  fileCount : nat;
  totalComments : nat;
  unresolvedComments : nat;
  lastCommentTime : option Z;
  hasUnreadComments : bool
}.

(** [Math.max(...xs)] on a non-empty argument list; [None] stands for the
    [-Infinity] of an empty one. *)
Definition MathMax (xs : list Z) : option Z :=
  match xs with
  | [] => None
  | x :: xs' => Some (foldl Z.max x xs')
  end.

Definition isUnresolved (c : Comment.t) : Prop :=
  Comment.tag c = "To Do"%string ∨ Comment.tag c = "In Progress"%string.

#[global] Instance isUnresolved_dec c : Decision (isUnresolved c).
Proof. unfold isUnresolved. apply _. Defined.

(** The function [getProjectsWithCommentStats] maps over the projects of
    the user; [new Date(0)] is the epoch. *)
Definition projectStats (db : Db) (userId : string) (p : Project.t)
  : ProjectWithCommentStats :=
  let projectFiles := getFilesByProjectId db (Project.id p) in
  let allComments :=
    (λ f, getCommentsByFileId db (File.id f)) <$> projectFiles in
  let flatComments := concat allComments in
  let totalComments := length flatComments in
  let unresolvedComments := length (filter isUnresolved flatComments) in
  let lastCommentTime :=
    if bool_decide (0 < length flatComments)%nat
    then MathMax (Comment.createdAt <$> flatComments)
    else None in
  let projectView := getProjectView db userId (Project.id p) in
  let lastViewedAt :=
    match projectView with
    | Some v => ProjectView.lastViewedAt v
    | None => 0
    end in
  let hasUnreadComments :=
    bool_decide (Exists (λ c, lastViewedAt < Comment.createdAt c) flatComments) in
  mkStats p projectFiles (length projectFiles) totalComments
    unresolvedComments lastCommentTime hasUnreadComments.

Definition getProjectsWithCommentStats (db : Db) (userId : string)
  : list ProjectWithCommentStats :=
  projectStats db userId <$> getProjectsByUserId db userId.

(** The flattened collection of the comments of a project's files, read off
    the tables: every file row of the project, and for each the comment
    rows that name it. *)
Definition projectComments (db : Db) (p : Project.t) : list Comment.t :=
  f ← filter (λ f, File.projectId f = Project.id p) (files db);
  filter (λ c, Comment.fileId c = File.id f) (comments db).

(** ** The heap of comment nodes ([client/src/lib/commentUtils.ts])

    A [CommentWithReplies] object is a copy of the fields of a comment
    together with a [replies] array.  The nodes are shared (the map, the
    [roots] array and the [replies] arrays all hold references to them) and
    their [replies] arrays are updated in place, so objects live in a heap
    and are named by their address.  Objects that exist before the call,
    the input comments among them, have no [replies] property. *)

Abbreviation addr := nat.

Record Obj := mkObj {
  fields : Comment.t;
  replies : option (list addr)
}.

Abbreviation Heap := (list Obj).

Inductive Err := TypeError | RangeError.

Inductive Res (A : Type) :=
| Ok (a : A) (h : Heap)
| Throw (e : Err) (h : Heap).

Arguments Ok {A} a h.
Arguments Throw {A} e h.

Definition heapOf {A} (r : Res A) : Heap :=
  match r with Ok _ h => h | Throw _ h => h end.

(** Computations that read and write the heap and may throw. *)
Definition M (A : Type) : Type := Heap → Res A.

#[global] Instance M_ret : MRet M := λ A a h, Ok a h.

#[global] Instance M_bind : MBind M := λ A B f m h,
  match m h with
  | Ok a h' => f a h'
  | Throw e h' => Throw e h'
  end.

Definition throw {A} (e : Err) : M A := λ h, Throw e h.

(** [{ ...comment, replies: [] }] *)
Definition alloc (o : Obj) : M addr := λ h, Ok (length h) (h ++ [o]).

(** [comment.replies], where a method is about to be called on it. *)
Definition getReplies (a : addr) : M (list addr) := λ h,
  match h !! a with
  | Some (mkObj _ (Some l)) => Ok l h
  | _ => Throw TypeError h
  end.

Definition setReplies (a : addr) (l : list addr) : M unit := λ h,
  match h !! a with
  | Some o => Ok () (<[a := mkObj (fields o) (Some l)]> h)
  | None => Throw TypeError h
  end.

(** [parent.replies.push(x)] *)
Definition push (a : addr) (x : addr) : M unit :=
  l ← getReplies a; setReplies a (l ++ [x]).

(** [new Date(a.createdAt).getTime()] for the node at an address. *)
Definition keyAt (h : Heap) (a : addr) : Z :=
  match h !! a with
  | Some o => Comment.createdAt (fields o)
  | None => 0
  end.

(** [xs.sort((a, b) => new Date(a.createdAt).getTime() - new Date(b.createdAt).getTime())] *)
Definition sortArr (l : list addr) : M (list addr) := λ h,
  Ok (sortBy (keyAt h) l) h.

Fixpoint forEach {A} (f : A → M unit) (l : list A) : M unit :=
  match l with
  | [] => mret ()
  | x :: l' => f x ;; forEach f l'
  end.

(** First loop: one node per comment, registered under the comment's id
    (a later comment with the same id replaces the entry). *)
Fixpoint initNodes (cs : list Comment.t) (map : gmap string addr)
  : M (gmap string addr) :=
  match cs with
  | [] => mret map
  | comment :: cs' =>
      commentWithReplies ← alloc (mkObj comment (Some []));
      initNodes cs' (<[Comment.id comment := commentWithReplies]> map)
  end.

(** Second loop.  [map.get(comment.id)!] cannot miss after the first loop
    (lemma [link_run]); a miss is a [TypeError]. *)
Fixpoint link (map : gmap string addr) (cs : list Comment.t)
    (roots : list addr) : M (list addr) :=
  match cs with
  | [] => mret roots
  | comment :: cs' =>
      match map !! Comment.id comment with
      | None => throw TypeError
      | Some commentWithReplies =>
          match truthy (Comment.parentId comment) with
          | Some parentId =>
              match map !! parentId with
              | Some parent =>
                  push parent commentWithReplies ;; link map cs' roots
              | None => link map cs' roots
              end
          | None => link map cs' (roots ++ [commentWithReplies])
          end
      end
  end.

(** [sortReplies]: the recursion depth is bounded by [fuel]; running out
    of it is the engine's [RangeError] for an exhausted call stack.  The
    inner [forEach] walks the array that has just been sorted. *)
Fixpoint sortReplies (fuel : nat) (comment : addr) : M unit :=
  match fuel with
  | O => throw RangeError
  | S fuel' =>
      l ← getReplies comment;
      l' ← sortArr l;
      setReplies comment l' ;;
      forEach (sortReplies fuel') l'
  end.

Definition buildCommentTree (fuel : nat) (comments : list Comment.t)
  : M (list addr) :=
  map ← initNodes comments ∅;
  roots ← link map comments [];
  roots' ← sortArr roots;
  forEach (sortReplies fuel) roots' ;;
  mret roots'.

(** The value of a node as its caller sees it: the comment fields and,
    recursively, the values of its replies. *)
#[local] Unset Elimination Schemes.
Inductive CommentWithReplies :=
| Node (comment : Comment.t) (replies : list CommentWithReplies).

#[local] Set Elimination Schemes.

Fixpoint readTree (fuel : nat) (h : Heap) (a : addr)
  : option CommentWithReplies :=
  match fuel with
  | O => None
  | S fuel' =>
      o ← h !! a;
      l ← replies o;
      kids ← mapM (readTree fuel' h) l;
      Some (Node (fields o) kids)
  end.

(** The forest returned by [buildCommentTree] when it is called with the
    heap [h0]; [None] when the call throws. *)
Definition commentForest (fuel : nat) (h0 : Heap) (comments : list Comment.t)
  : option (list CommentWithReplies) :=
  match buildCommentTree fuel comments h0 with
  | Ok roots h => mapM (readTree fuel h) roots
  | Throw _ _ => None
  end.

(** With one stack frame more than there are comments the recursion
    cannot run out when the ids are pairwise distinct (lemma
    [commentForest_total]). *)
Definition threadComments (comments : list Comment.t)
  : option (list CommentWithReplies) :=
  commentForest (S (length comments)) [] comments.

Fixpoint flatten (t : CommentWithReplies) : list Comment.t :=
  match t with
  | Node c kids => c :: concat (flatten <$> kids)
  end.

Definition flattenForest (f : list CommentWithReplies) : list Comment.t :=
  concat (flatten <$> f).

(** [getCommentDepth]; [Math.max] is only called on a non-empty list of
    depths. *)
Fixpoint getCommentDepth (comment : CommentWithReplies) : nat :=
  match comment with
  | Node _ [] => 0%nat
  | Node _ replies =>
      (1 + foldr Nat.max 0 (getCommentDepth <$> replies))%nat
  end.

Definition rootOf (t : CommentWithReplies) : Comment.t :=
  match t with Node c _ => c end.

Definition repliesOf (t : CommentWithReplies) : list CommentWithReplies :=
  match t with Node _ kids => kids end.

(** ** Visual pins

    [ImageWithComments.tsx]: the pinned comments of an image, in display
    order; the pin of the comment at index [idx] carries number [idx + 1]. *)

Definition imageAnchored (c : Comment.t) : Prop :=
  isRoot c ∧ Comment.positionX c ≠ None ∧ Comment.positionY c ≠ None.

#[global] Instance imageAnchored_dec c : Decision (imageAnchored c).
Proof. unfold imageAnchored. apply _. Defined.

Definition rootComments (comments : list Comment.t) : list Comment.t :=
  sortBy Comment.createdAt (filter imageAnchored comments).

Definition imagePins (comments : list Comment.t) : list (nat * Comment.t) :=
  imap (λ idx comment, (S idx, comment)) (rootComments comments).

(** [PDFWithComments.tsx]: the pins drawn on the displayed page, and the
    list that gives them their numbers. *)

Definition onPage (currentPage : Z) (c : Comment.t) : Prop :=
  isRoot c ∧ Comment.page c = Some currentPage ∧
  Comment.positionX c ≠ None ∧ Comment.positionY c ≠ None.

#[global] Instance onPage_dec p c : Decision (onPage p c).
Proof. unfold onPage. apply _. Defined.

Definition pdfAnchored (c : Comment.t) : Prop :=
  isRoot c ∧ Comment.page c ≠ None.

#[global] Instance pdfAnchored_dec c : Decision (pdfAnchored c).
Proof. unfold pdfAnchored. apply _. Defined.

Definition rootCommentsForPage (comments : list Comment.t) (currentPage : Z)
  : list Comment.t :=
  sortBy Comment.createdAt (filter (onPage currentPage) comments).

Definition allRootComments (comments : list Comment.t) : list Comment.t :=
  sortBy Comment.createdAt (filter pdfAnchored comments).

(** [xs.findIndex(p)]: the first index whose element satisfies [p], or -1. *)
Definition findIndex {A} (P : A → Prop) `{∀ x, Decision (P x)} (l : list A) : Z :=
  match list_find P l with
  | Some (i, _) => Z.of_nat i
  | None => -1
  end.

(** [globalIndex + 1] *)
Definition pdfPinNumber (comments : list Comment.t) (comment : Comment.t) : Z :=
  findIndex (λ c, Comment.id c = Comment.id comment) (allRootComments comments) + 1.

Definition pdfPins (comments : list Comment.t) (currentPage : Z)
  : list (Z * Comment.t) :=
  (λ comment, (pdfPinNumber comments comment, comment))
    <$> rootCommentsForPage comments currentPage.

(** ** Creating a comment ([shared/schema.ts], [server/routes.ts])

    A request body is a JSON object; [JOther] stands for the values no
    column accepts (booleans, fractions, arrays, objects). *)



Module InsertComment.
Record t := mk {
  fileId : string;
  parentId : option string;
  name : string;
  email : option string;
  content : string;
  tag : option string;
  positionX : option Z;
  positionY : option Z;
  timestamp : option Z;
  page : option Z
}.
End InsertComment.

(** The validators [createInsertSchema] derives from the column
    declarations.  A [text]/[varchar] column that is [notNull] and has no
    default is a required string, and any string passes: where the
    project wants a non-empty one it says so ([z.string().min(1, ...)] in
    the project form).  A nullable column may be absent or [null]; a
    column with a default may be absent.  An [integer] column takes an
    integer within the range of the column type. *)







(** [storage.createComment]: the row the [INSERT] adds; the database
    supplies the id, the default tag and both timestamps. *)
Definition createComment (db : Db) (ins : InsertComment.t)
    (now : Z) (newId : string) : Db * Comment.t :=
  let row :=
    Comment.mk newId (InsertComment.fileId ins) (InsertComment.parentId ins)
      (InsertComment.name ins) (InsertComment.email ins)
      (InsertComment.content ins)
      (default "To Do"%string (InsertComment.tag ins))
      (InsertComment.positionX ins) (InsertComment.positionY ins)
      (InsertComment.timestamp ins) (InsertComment.page ins) now now in
  (mkDb (projects db) (files db) (comments db ++ [row]) (projectViews db), row).




(** ** The write operations of the store, for sequences of calls *)




Definition deleteProject (db : Db) (id : string) : Db :=
  mkDb (filter (λ p, Project.id p ≠ id) (projects db)) (files db)
       (comments db) (projectViews db).

Definition deleteFile (db : Db) (id : string) : Db :=
  mkDb (projects db) (filter (λ f, File.id f ≠ id) (files db))
       (comments db) (projectViews db).

Definition deleteComment (db : Db) (id : string) : Db :=
  mkDb (projects db) (files db)
       (filter (λ c, Comment.id c ≠ id) (comments db)) (projectViews db).



(** The rows of the view ledger for one (user, project) pair. *)
Definition viewRows (db : Db) (u p : string) : list ProjectView.t :=
  filter (viewMatches u p) (projectViews db).


(** ** Sample data *)

Definition sampleProject : Project.t :=
  Project.mk "p1" "pub1" "Site" "user-1" 10 10.

Definition sampleFile : File.t :=
  File.mk "f1" "p1" "a.png" "a.png" "image/png" "10" "/objects/a" None 11.

Definition sampleComment (id tag : string) (createdAt : Z) : Comment.t :=
  Comment.mk id "f1" None "Ann" None "hello" tag None None None None
    createdAt createdAt.

Definition sampleDb : Db :=
  mkDb [sampleProject] [sampleFile]
    [sampleComment "c1" "To Do" 100; sampleComment "c2" "Resolved" 95;
     sampleComment "c3" "In Progress" 98; sampleComment "c4" "Resolved" 97]
    [].




Definition pinnedComment (id : string) (createdAt : Z)
    (x y page : option Z) (parentId : option string) : Comment.t :=
  Comment.mk id "f1" parentId "Ann" None "look here" "To Do" x y None page
    createdAt createdAt.

(** ** The state between the loops of [buildCommentTree]

    What the first loop leaves in the map, and what the second loop
    appends to the [roots] array and to the [replies] array of the node at
    an address, as functions of the input list. *)

Fixpoint initMap (n : addr) (cs : list Comment.t) (map : gmap string addr)
  : gmap string addr :=
  match cs with
  | [] => map
  | c :: cs' => initMap (S n) cs' (<[Comment.id c := n]> map)
  end.

Definition freshNode (c : Comment.t) : Obj := mkObj c (Some []).

Definition rootAddrs (map : gmap string addr) (cs : list Comment.t)
  : list addr :=
  omap (λ c, if decide (isRoot c = true)
             then map !! Comment.id c else None) cs.

Definition parentAddr (map : gmap string addr) (c : Comment.t) : option addr :=
  truthy (Comment.parentId c) ≫= λ parentId, map !! parentId.

Definition childAddrs (map : gmap string addr) (a : addr)
    (cs : list Comment.t) : list addr :=
  omap (λ c, if decide (parentAddr map c = Some a)
             then map !! Comment.id c else None) cs.

Definition extend (l' : list addr) (o : Obj) : Obj :=
  mkObj (fields o) ((λ l, l ++ l') <$> replies o).

(** ** The effect of [sortReplies] on a heap

    Relative to a heap [h0]: the object with its [replies] array sorted,
    the heaps that differ from [h0] only by sorted arrays at addresses in a
    set [T], and the reference graph of the [replies] arrays. *)

Definition sortedObj (h0 : Heap) (o : Obj) : Obj :=
  mkObj (fields o) (sortBy (keyAt h0) <$> replies o).

Definition Done (h0 h : Heap) (a : addr) : Prop :=
  h !! a = sortedObj h0 <$> h0 !! a.

Definition Inv (h0 : Heap) (T : addr → Prop) (h : Heap) : Prop :=
  ∀ a, h !! a = h0 !! a ∨ (T a ∧ Done h0 h a).

Definition edge (h : Heap) (a b : addr) : Prop :=
  ∃ o l, h !! a = Some o ∧ replies o = Some l ∧ b ∈ l.

(** The heap after both loops, and the addresses of the nodes in it. *)
Definition linked (h0 : Heap) (cs : list Comment.t) : Heap :=
  imap (λ a o, extend (childAddrs (initMap (length h0) cs ∅) a cs) o)
       (h0 ++ (freshNode <$> cs)).

Definition isNode (h0 : Heap) (cs : list Comment.t) (a : addr) : Prop :=
  (length h0 ≤ a < length h0 + length cs)%nat.

(** Ascending order at every level of a tree. *)
#[local] Unset Elimination Schemes.
Inductive wellSorted : CommentWithReplies → Prop :=
| wellSorted_node c kids :
    ascending Comment.createdAt (rootOf <$> kids) →
    Forall wellSorted kids →
    wellSorted (Node c kids).
#[local] Set Elimination Schemes.

(** ** The forest as a function of the list of comments

    For a list whose ids are pairwise distinct: the replies to the comment
    with a given id, the thread below a comment, and the threads of the
    root comments. *)

Definition childrenOf (cs : list Comment.t) (s : string) : list Comment.t :=
  filter (λ c, truthy (Comment.parentId c) = Some s) cs.

Fixpoint thread (fuel : nat) (cs : list Comment.t) (c : Comment.t)
  : option CommentWithReplies :=
  match fuel with
  | O => None
  | S fuel' =>
      kids ← mapM (thread fuel' cs)
                  (sortBy Comment.createdAt (childrenOf cs (Comment.id c)));
      Some (Node c kids)
  end.

Definition threads (fuel : nat) (cs : list Comment.t)
  : option (list CommentWithReplies) :=
  mapM (thread fuel cs)
       (sortBy Comment.createdAt (filter (λ c, isRoot c = true) cs)).

(** The address of the node of a comment. *)
Definition addrOf (h0 : Heap) (cs : list Comment.t) (c : Comment.t) : addr :=
  default 0%nat (initMap (length h0) cs ∅ !! Comment.id c).

(** [chain cs (c :: path)]: [path] lists the ancestors of [c], parent
    first, up to a root comment. *)
Inductive chain (cs : list Comment.t) : list Comment.t → Prop :=
| chain_root r :
    r ∈ cs → isRoot r = true → chain cs [r]
| chain_step d c path :
    chain cs (c :: path) → d ∈ cs →
    truthy (Comment.parentId d) = Some (Comment.id c) →
    chain cs (d :: c :: path).

(** A comment whose parent chain ends at a root comment. *)
Definition rooted (cs : list Comment.t) (c : Comment.t) : Prop :=
  ∃ path, chain cs (c :: path).

(** [c] is a reply to [p], both in the list. *)
Definition replyTo (cs : list Comment.t) (c p : Comment.t) : Prop :=
  c ∈ cs ∧ p ∈ cs ∧ truthy (Comment.parentId c) = Some (Comment.id p).

(** No two root comments and no two replies to the same comment were
    created at the same instant. *)
Definition tieFree (cs : list Comment.t) : Prop :=
  NoDup (Comment.createdAt <$> filter (λ c, isRoot c = true) cs) ∧
  ∀ s, NoDup (Comment.createdAt <$> childrenOf cs s).

Definition reply (id : string) (parentId : option string) (createdAt : Z)
  : Comment.t :=
  Comment.mk id "f1" parentId "Ann" None "text" "To Do" None None None None
    createdAt createdAt.

(** A root with two replies, one of them answered, and a second root. *)
Definition sampleThread : list Comment.t :=
  [reply "a" None 30; reply "b" (Some "a") 20; reply "c" (Some "a") 10;
   reply "d" None 15; reply "e" (Some "c") 5].

(** Two rows with the same id (the primary key excludes them): a root and
    a reply to that id. *)
Definition twins : list Comment.t :=
  [reply "a" None 1; reply "a" (Some "a") 2].

(** ** The other helpers of [commentUtils.ts] *)

(** [getTotalReplyCount]: [reduce] from the left, starting at 0. *)
Fixpoint getTotalReplyCount (comment : CommentWithReplies) : nat :=
  match comment with
  | Node _ replies =>
      foldl (λ count reply, count + 1 + getTotalReplyCount reply)%nat 0%nat
            replies
  end.

(** The loop [for (const x of xs) { const found = f(x); if (found) return
    found; } return null]. *)
Fixpoint firstSome {A B} (f : A → option B) (l : list A) : option B :=
  match l with
  | [] => None
  | x :: l' => match f x with Some found => Some found | None => firstSome f l' end
  end.

(** One turn of the loop of [findCommentInTree]: the comment itself, then
    its replies. *)
Fixpoint findInComment (commentId : string) (comment : CommentWithReplies)
  : option CommentWithReplies :=
  match comment with
  | Node c replies =>
      if decide (Comment.id c = commentId) then Some comment
      else firstSome (findInComment commentId) replies
  end.

Definition findCommentInTree (tree : list CommentWithReplies)
    (commentId : string) : option CommentWithReplies :=
  firstSome (findInComment commentId) tree.

(** The nodes of a tree, itself first, in the order of [flatten]. *)
Fixpoint subtrees (t : CommentWithReplies) : list CommentWithReplies :=
  match t with
  | Node _ kids => t :: concat (subtrees <$> kids)
  end.

(** Induction on a tree with the hypothesis for every reply. *)
Fixpoint CommentWithReplies_rect' (P : CommentWithReplies → Prop)
    (H : ∀ c kids, Forall P kids → P (Node c kids))
    (t : CommentWithReplies) : P t :=
  match t with
  | Node c kids =>
      H c kids
        ((fix go (l : list CommentWithReplies) : Forall P l :=
            match l with
            | [] => @List.Forall_nil _ P
            | k :: l' =>
                @List.Forall_cons _ P k l' (CommentWithReplies_rect' P H k) (go l')
            end) kids)
  end.


(** The nodes of a forest in depth-first order. *)
Definition forestNodes (forest : list CommentWithReplies)
  : list CommentWithReplies :=
  concat (subtrees <$> forest).

(** The first element of a list that satisfies a predicate. *)
Definition firstWith {A} (P : A → Prop) `{∀ x, Decision (P x)} (l : list A)
  : option A :=
  snd <$> list_find P l.

(** ** The comment sidebar ([ThreadedCommentList], [CommentSidebar])

    The list of threads beside an image.  What [renderComment] draws for
    one comment is a row: the comment, the nesting level, the number in
    the badge if there is one, and whether the row is marked as a reply. *)

Definition positioned (c : Comment.t) : Prop :=
  Comment.positionX c ≠ None ∧ Comment.positionY c ≠ None.

#[global] Instance positioned_dec c : Decision (positioned c).
Proof. unfold positioned. apply _. Defined.

Definition positionedRoots (commentTree : list CommentWithReplies)
  : list CommentWithReplies :=
  filter (λ comment, positioned (rootOf comment)) commentTree.

Record Row := mkRow {
  rowComment : Comment.t;
  rowLevel : nat;
  rowBadge : option nat;
  rowReplyLabel : bool
}.

(** [level === 0 && pinNumber && ...]: an omitted or zero [pinNumber] is
    falsy. *)
Definition badge (level : nat) (pinNumber : option nat) : option nat :=
  if decide (level = 0%nat) then
    match pinNumber with
    | Some n => if decide (n = 0%nat) then None else Some n
    | None => None
    end
  else None.

Fixpoint renderComment (comment : CommentWithReplies) (level : nat)
    (pinNumber : option nat) : list Row :=
  match comment with
  | Node c replies =>
      mkRow c level (badge level pinNumber) (bool_decide (0 < level)%nat)
      :: concat ((λ reply, renderComment reply (S level) None) <$> replies)
  end.

(** The rows of the list, given the result of [buildCommentTree]. *)
Definition ThreadedCommentList (commentTree : list CommentWithReplies)
  : list Row :=
  concat (imap (λ index comment, renderComment comment 0 (Some (S index)))
               (positionedRoots commentTree)).

(** [CommentSidebar]: the comments counted in the heading. *)
Definition positionedRootComments (comments : list Comment.t)
  : list Comment.t :=
  filter imageAnchored comments.

(** The numbered badge of a row, with its comment. *)
Definition numbered (r : Row) : option (nat * Comment.t) :=
  (λ n, (n, rowComment r)) <$> rowBadge r.

(** ** The state of the PDF viewer ([PDFWithComments.tsx])

    The four state variables of the component and its event handlers.  A
    click on the page arrives with the rounded percentages [x] and [y]. *)

Record PdfState := mkPdfState {
  showModal : bool;
  selectedPinIndex : option Z;
  currentPage : Z;
  newCommentPosition : option (Z * Z * Z)
}.

Definition pdfInit : PdfState := mkPdfState false None 1 None.

Definition handlePDFClick (isPublic : bool) (x y : Z) (s : PdfState) : PdfState :=
  if isPublic
  then mkPdfState true None (currentPage s) (Some (x, y, currentPage s))
  else s.

Definition handlePinClick (comments : list Comment.t) (comment : Comment.t)
    (s : PdfState) : PdfState :=
  let globalIndex :=
    findIndex (λ c, Comment.id c = Comment.id comment) (allRootComments comments) in
  mkPdfState true (Some globalIndex) (currentPage s) None.

Definition handleModalClose (s : PdfState) : PdfState :=
  mkPdfState false None (currentPage s) None.

(** The two page buttons. *)
Definition previousPage (s : PdfState) : PdfState :=
  mkPdfState (showModal s) (selectedPinIndex s)
    (Z.max 1 (currentPage s - 1)) (newCommentPosition s).

Definition nextPage (s : PdfState) : PdfState :=
  mkPdfState (showModal s) (selectedPinIndex s)
    (currentPage s + 1) (newCommentPosition s).

(** [xs[i]]: [undefined] outside the array, in particular at -1. *)
Definition at_index {A} (xs : list A) (i : Z) : option A :=
  if bool_decide (0 ≤ i) then xs !! Z.to_nat i else None.

(** The [existingComment] handed to the modal. *)
Definition existingComment (comments : list Comment.t) (s : PdfState)
  : option Comment.t :=
  match selectedPinIndex s with
  | Some i => at_index (allRootComments comments) i
  | None => None
  end.

Inductive PdfEvent :=
| PreviousPage
| NextPage
| PDFClick (x y : Z)
| PinClick (comment : Comment.t)
| ModalClose.

Definition pdfStep (isPublic : bool) (comments : list Comment.t)
    (s : PdfState) (e : PdfEvent) : PdfState :=
  match e with
  | PreviousPage => previousPage s
  | NextPage => nextPage s
  | PDFClick x y => handlePDFClick isPublic x y s
  | PinClick comment => handlePinClick comments comment s
  | ModalClose => handleModalClose s
  end.

Definition pdfRun (isPublic : bool) (comments : list Comment.t)
    (es : list PdfEvent) : PdfState :=
  foldl (pdfStep isPublic comments) pdfInit es.

(** What holds of the state whatever the user does. *)
Definition pdfStateOk (s : PdfState) : Prop :=
  1 ≤ currentPage s ∧
  (selectedPinIndex s = None ∨ newCommentPosition s = None) ∧
  (showModal s = false →
   selectedPinIndex s = None ∧ newCommentPosition s = None) ∧
  (∀ x y page, newCommentPosition s = Some (x, y, page) → 1 ≤ page).

(** Ascending in the key; where the keys agree, related by [R]. *)
Definition lexBy {A} (key : A → Z) (R : A → A → Prop) (a b : A) : Prop :=
  key a < key b ∨ (key a = key b ∧ R a b).

(** ** The timeline of a video ([VideoWithComments.tsx]) *)

Module Video.
(** [comment.timestamp || 0] *)
Definition time (c : Comment.t) : Z := default 0 (Comment.timestamp c).

Definition timestampComments (comments : list Comment.t) : list Comment.t :=
  sortBy time
    (filter (λ c, Comment.timestamp c ≠ None ∧ isRoot c) comments).

Definition getReplies (comments : list Comment.t) (commentId : string)
  : list Comment.t :=
  filter (λ c, Comment.parentId c = Some commentId) comments.

(** The entries of the timeline: a comment and the replies listed below it. *)
Definition timeline (comments : list Comment.t)
  : list (Comment.t * list Comment.t) :=
  (λ comment, (comment, getReplies comments (Comment.id comment)))
    <$> timestampComments comments.

(** Every comment that appears somewhere in the timeline. *)
Definition shown (comments : list Comment.t) : list Comment.t :=
  e ← timeline comments; e.1 :: e.2.
End Video.

Definition videoComment (id : string) (parentId : option string)
    (timestamp : option Z) (createdAt : Z) : Comment.t :=
  Comment.mk id "v1" parentId "Ann" None "cut here" "To Do" None None
    timestamp None createdAt createdAt.

(** A comment at second 12, a reply to it, and a reply to the reply. *)
Definition sampleVideo : list Comment.t :=
  [videoComment "a" None (Some 12) 1; videoComment "b" (Some "a") None 2;
   videoComment "c" (Some "b") None 3].

(** ** Single rows of the store ([server/storage.ts])

    [const [row] = await db.select()...where(...); return row || undefined] *)

Definition getProject (db : Db) (id : string) : option Project.t :=
  head (filter (λ p, Project.id p = id) (projects db)).

Definition getProjectByPublicId (db : Db) (publicId : string)
  : option Project.t :=
  head (filter (λ p, Project.publicId p = publicId) (projects db)).

Definition getFile (db : Db) (id : string) : option File.t :=
  head (filter (λ f, File.id f = id) (files db)).

Definition getFileByPublicId (db : Db) (publicId : string) : option File.t :=
  head (filter (λ f, File.publicId f = Some publicId) (files db)).

Definition getComment (db : Db) (id : string) : option Comment.t :=
  head (filter (λ c, Comment.id c = id) (comments db)).

(** ** More routes ([server/routes.ts]) *)


(** [app.get("/api/public/files/:publicId", ...)] *)
Inductive PublicFile :=
| FileNotFound
| ProjectNotFound
| FileJson (file : File.t) (id publicId title : string).

Definition publicFileStatus (r : PublicFile) : Z :=
  match r with
  | FileNotFound | ProjectNotFound => 404
  | FileJson _ _ _ _ => 200
  end.

Definition getPublicFile (db : Db) (publicId : string) : PublicFile :=
  match getFileByPublicId db publicId with
  | None => FileNotFound
  | Some file =>
      match getProject db (File.projectId file) with
      | None => ProjectNotFound
      | Some project =>
          FileJson file (Project.id project) (Project.publicId project)
            (Project.title project)
      end
  end.



(** A file with a comment and a reply to it. *)
Definition threadDb : Db :=
  mkDb [sampleProject] [sampleFile]
    [reply "a" None 30; reply "b" (Some "a") 20] [].

(** ** The comment form ([CommentModal])

    The form is sent by [handleSubmit].  [trim] stands for
    [String.prototype.trim]; a coordinate is a finite number or NaN, as
    a click gives it, of which the handler uses the truthiness
    ([truthyNum]: neither 0 nor NaN) and [Math.round(x * 100)]
    ([roundTimes100]).  The two callers of the modal pass no [onSubmit]. *)

Section CommentModal.
Context (trim : string → string).
Context {Num : Type} (truthyNum : Num → bool) (roundTimes100 : Num → Z).







End CommentModal.


(** ** File types, thumbnails and object URLs

    [s.startsWith(prefix)] *)

Definition startsWith (s prefix : string) : bool := String.prefix prefix s.

Inductive FileType := ImageFile | VideoFile | PdfFile | OtherFile.

Definition getFileType (mimeType : string) : FileType :=
  if startsWith mimeType "image/" then ImageFile
  else if startsWith mimeType "video/" then VideoFile
  else if decide (mimeType = "application/pdf"%string) then PdfFile
  else OtherFile.

(** What [getProjectThumbnail] draws on the card of a project: the folder
    icon, the image or the video at a path, the PDF icon or the file
    icon. *)
Inductive Thumbnail :=
| FolderIcon
| ImageAt (src : string)
| VideoAt (src : string)
| PdfIcon
| FileIcon.

Definition getProjectThumbnail (files : list File.t) : Thumbnail :=
  match files with
  | [] => FolderIcon
  | _ =>
      match firstWith (λ f, startsWith (File.mimeType f) "image/" = true) files with
      | Some firstImage => ImageAt (File.objectPath firstImage)
      | None =>
          match firstWith (λ f, startsWith (File.mimeType f) "video/" = true) files with
          | Some firstVideo => VideoAt (File.objectPath firstVideo)
          | None =>
              match firstWith (λ f, File.mimeType f = "application/pdf"%string) files with
              | Some _ => PdfIcon
              | None => FileIcon
              end
          end
      end
  end.

(** [getFileUrl] of [file-preview.tsx] *)
Definition getFileUrl (objectPath : string) : string :=
  if startsWith objectPath "/objects/" then objectPath
  else ("/objects/" +:+ objectPath)%string.

(** ** What a query with [ORDER BY] may return

    [ORDER BY col DESC] without a further key: any arrangement of the
    selected rows in which [col] does not increase. *)

Definition mayReturn {A} (key : A → Z) (rows l : list A) : Prop :=
  l ≡ₚ rows ∧ StronglySorted (λ a b, key b ≤ key a) l.

(** The lists [getCommentsByFileId], [getFilesByProjectId] and
    [getProjectsByUserId] may return. *)
Definition commentsByFileIdReturns (db : Db) (fileId : string)
    (l : list Comment.t) : Prop :=
  mayReturn Comment.createdAt
    (filter (λ c, Comment.fileId c = fileId) (comments db)) l.

Definition filesByProjectIdReturns (db : Db) (projectId : string)
    (l : list File.t) : Prop :=
  mayReturn File.uploadedAt
    (filter (λ f, File.projectId f = projectId) (files db)) l.


(** ** Calls of [updateProjectView] that overlap

    The function awaits [getProjectView] and then awaits the [UPDATE] or
    the [INSERT]: two statements, each atomic in the database, between
    which the statements of other requests may run.  A call in progress is
    before its [SELECT], or between the [SELECT] and the write with the
    row the [SELECT] gave, or has returned.  [new Date()] is evaluated when
    the write is issued. *)

Inductive Call :=
| Started (userId projectId : string)
| Selected (userId projectId : string) (existingView : option ProjectView.t)
| Returned (view : option ProjectView.t).

(** The next statement of a call. *)
Definition callStep (db : Db) (c : Call) (now : Z) (newId : string)
  : Db * Call :=
  match c with
  | Started userId projectId =>
      (db, Selected userId projectId (getProjectView db userId projectId))
  | Selected userId projectId (Some _) =>
      let db' := mkDb (projects db) (files db) (comments db)
                      (touchView userId projectId now <$> projectViews db) in
      (db', Returned (getProjectView db' userId projectId))
  | Selected userId projectId None =>
      let v := ProjectView.mk newId userId projectId now in
      (mkDb (projects db) (files db) (comments db) (projectViews db ++ [v]),
       Returned (Some v))
  | Returned view => (db, Returned view)
  end.




(** * Properties *)

(** ** Stable sorting *)

Section SortFacts.
Context {A : Type} (key : A → Z).

Lemma insertBy_perm (x : A) (l : list A) : insertBy key x l ≡ₚ x :: l.
Proof.
  induction l as [|y l IH]; simpl; [done|].
  case_bool_decide; [|done].
  rewrite IH. apply perm_swap.
Qed.

Lemma sortBy_perm (l : list A) : sortBy key l ≡ₚ l.
Proof.
  induction l as [|x l IH]; simpl; [done|].
  rewrite insertBy_perm. by constructor.
Qed.

Lemma elem_of_sortBy (x : A) (l : list A) : x ∈ sortBy key l ↔ x ∈ l.
Proof. by rewrite (sortBy_perm l). Qed.

Lemma length_sortBy (l : list A) : length (sortBy key l) = length l.
Proof. by rewrite (sortBy_perm l). Qed.

Lemma insertBy_ascending (x : A) (l : list A) :
  ascending key l → ascending key (insertBy key x l).
Proof.
  unfold ascending. induction 1 as [|y l Hl IH Hy]; simpl.
  - repeat constructor.
  - case_bool_decide as Hlt.
    + constructor; [done|].
      rewrite Forall_forall. intros z Hz.
      apply (elem_of_Permutation_proper _ _ _ (insertBy_perm x l)) in Hz.
      apply elem_of_cons in Hz as [->|Hz]; [lia|].
      rewrite Forall_forall in Hy. by apply Hy.
    + constructor; [by constructor|].
      constructor; [lia|].
      eapply Forall_impl; [exact Hy|]. simpl. intros; lia.
Qed.

Lemma sortBy_ascending (l : list A) : ascending key (sortBy key l).
Proof.
  induction l as [|x l IH]; simpl; [constructor|].
  by apply insertBy_ascending.
Qed.

(** A list that is already in order is left as it is. *)
Lemma sortBy_id (l : list A) : ascending key l → sortBy key l = l.
Proof.
  unfold ascending. induction 1 as [|x l Hl IH Hx]; simpl; [done|].
  rewrite IH. destruct l as [|y l]; simpl; [done|].
  apply Forall_cons in Hx as [Hxy _].
  case_bool_decide; [lia|done].
Qed.

Lemma sortBy_idemp (l : list A) : sortBy key (sortBy key l) = sortBy key l.
Proof. apply sortBy_id, sortBy_ascending. Qed.

(** With pairwise distinct keys there is one ascending arrangement. *)
Lemma ascending_unique (l1 l2 : list A) :
  ascending key l1 → ascending key l2 → l1 ≡ₚ l2 →
  NoDup (key <$> l1) → l1 = l2.
Proof.
  unfold ascending. intros H1. revert l2.
  induction H1 as [|x l1 Hl1 IH Hx]; intros l2 H2 Hp Hnd.
  - by apply Permutation_nil_l in Hp.
  - destruct H2 as [|y l2 Hl2 Hy].
    { by apply Permutation_nil_r in Hp. }
    assert (x = y) as ->.
    { assert (x ∈ y :: l2) as Hxin by (rewrite <- Hp; left).
      assert (y ∈ x :: l1) as Hyin by (rewrite Hp; left).
      apply elem_of_cons in Hxin as [?|Hxin]; [done|].
      apply elem_of_cons in Hyin as [?|Hyin]; [done|].
      rewrite Forall_forall in Hx, Hy.
      specialize (Hx _ Hyin). specialize (Hy _ Hxin).
      rewrite fmap_cons in Hnd. apply NoDup_cons in Hnd as [Hnin _].
      exfalso. apply Hnin. replace (key x) with (key y) by lia.
      by apply list_elem_of_fmap_2. }
    f_equal. apply IH; [done| |].
    + by apply (inj (cons y)).
    + rewrite fmap_cons in Hnd. by apply NoDup_cons in Hnd as [_ ?].
Qed.

Lemma sortBy_perm_eq (l l' : list A) :
  l ≡ₚ l' → NoDup (key <$> l) → sortBy key l = sortBy key l'.
Proof.
  intros Hp Hnd. apply ascending_unique.
  - apply sortBy_ascending.
  - apply sortBy_ascending.
  - by rewrite !sortBy_perm.
  - by rewrite (sortBy_perm l).
Qed.

Lemma sortBy_ext_in (key' : A → Z) (l : list A) :
  (∀ x, x ∈ l → key x = key' x) → sortBy key l = sortBy key' l.
Proof.
  induction l as [|x l IH]; intros Hk; simpl; [done|].
  rewrite <- IH by (intros; apply Hk; by right).
  assert (∀ k, (∀ y, y ∈ k → key y = key' y) →
               insertBy key x k = insertBy key' x k) as Hins.
  { induction k as [|y k IHk]; intros Hy; simpl; [done|].
    rewrite <- (Hy y) by left. rewrite <- (Hk x) by left.
    case_bool_decide; [|done].
    f_equal. apply IHk. intros; apply Hy; by right. }
  apply Hins. intros y Hy. apply Hk. right. revert Hy. apply elem_of_sortBy.
Qed.
End SortFacts.

Lemma sortBy_cons {A} (key : A → Z) (x : A) (l : list A) :
  sortBy key (x :: l) = insertBy key x (sortBy key l).
Proof. reflexivity. Qed.

Lemma insertBy_fmap {A B} (key : B → Z) (f : A → B) (x : A) (k : list A) :
  insertBy key (f x) (f <$> k) = f <$> insertBy (key ∘ f) x k.
Proof.
  induction k as [|y k IHk]; [done|].
  rewrite fmap_cons. cbn [insertBy]. unfold compose at 1 2.
  destruct (bool_decide (key (f y) < key (f x))); [|done].
  by rewrite fmap_cons, IHk.
Qed.

Lemma sortBy_fmap {A B} (key : B → Z) (f : A → B) (l : list A) :
  sortBy key (f <$> l) = f <$> sortBy (key ∘ f) l.
Proof.
  induction l as [|x l IH]; [done|].
  by rewrite fmap_cons, !sortBy_cons, IH, insertBy_fmap.
Qed.

(** ** The activity aggregator and the view ledger *)

Lemma concat_fmap_perm {A B} (f g : A → list B) (l l' : list A) :
  l ≡ₚ l' → (∀ x, f x ≡ₚ g x) → concat (f <$> l) ≡ₚ l' ≫= g.
Proof.
  intros Hp Hfg. rewrite <- Hp. clear Hp l'.
  induction l as [|x l IH]; [done|].
  rewrite fmap_cons, bind_cons. simpl. by rewrite IH, Hfg.
Qed.

(** The collection the aggregator flattens holds the rows of
    [projectComments], in the order the queries return them. *)
Lemma flat_projectComments (db : Db) (p : Project.t) :
  concat ((λ f, getCommentsByFileId db (File.id f))
            <$> getFilesByProjectId db (Project.id p))
  ≡ₚ projectComments db p.
Proof.
  apply concat_fmap_perm.
  - apply sortBy_perm.
  - intros f. apply sortBy_perm.
Qed.

Lemma foldl_max_le (xs : list Z) (a : Z) : a ≤ foldl Z.max a xs.
Proof.
  revert a. induction xs as [|x xs IH]; intros a; simpl; [lia|].
  specialize (IH (Z.max a x)). lia.
Qed.

Lemma foldl_max_upper (xs : list Z) (a x : Z) :
  x ∈ xs → x ≤ foldl Z.max a xs.
Proof.
  revert a. induction xs as [|y xs IH]; intros a Hx; simpl.
  - by apply elem_of_nil in Hx.
  - apply elem_of_cons in Hx as [->|Hx]; [|by apply IH].
    pose proof (foldl_max_le xs (Z.max a y)). lia.
Qed.

Lemma foldl_max_elem (xs : list Z) (a : Z) :
  foldl Z.max a xs = a ∨ foldl Z.max a xs ∈ xs.
Proof.
  revert a. induction xs as [|y xs IH]; intros a; simpl; [by left|].
  destruct (IH (Z.max a y)) as [->|Hin].
  - destruct (Z.max_spec a y) as [[_ ->]|[_ ->]]; [right; left|by left].
  - right. by right.
Qed.

Lemma MathMax_spec (xs : list Z) (m : Z) :
  MathMax xs = Some m → m ∈ xs ∧ ∀ x, x ∈ xs → x ≤ m.
Proof.
  destruct xs as [|a xs]; simpl; [done|].
  intros [= <-]. split.
  - destruct (foldl_max_elem xs a) as [->|Hin]; [left|by right].
  - intros x Hx. apply elem_of_cons in Hx as [->|Hx].
    + apply foldl_max_le.
    + by apply foldl_max_upper.
Qed.










Lemma projectStats_unread (db : Db) (userId : string) (p : Project.t) (lastViewedAt : Z) :
  lastViewedAt = match getProjectView db userId (Project.id p) with
                 | Some v => ProjectView.lastViewedAt v
                 | None => 0
                 end →
  hasUnreadComments (projectStats db userId p) = true ↔
  ∃ c, c ∈ projectComments db p ∧ lastViewedAt < Comment.createdAt c.
Proof.
  intros ->. unfold projectStats. cbn [hasUnreadComments].
  rewrite bool_decide_eq_true, Exists_exists.
  by setoid_rewrite (flat_projectComments db p).
Qed.

Lemma projectComments_no_files (db : Db) (p : Project.t) :
  (∀ f, f ∈ files db → File.projectId f ≠ Project.id p) →
  getFilesByProjectId db (Project.id p) = [].
Proof.
  intros Hno. unfold getFilesByProjectId.
  replace (filter (λ f, File.projectId f = Project.id p) (files db)) with (@nil File.t);
    [done|].
  symmetry. induction (files db) as [|f l IH]; [done|].
  rewrite filter_cons, decide_False.
  - apply IH. intros f' Hf'. apply Hno. by right.
  - apply Hno. left.
Qed.

(** C4: [hasUnreadComments] is true exactly when some comment of some file
    of the project was created strictly after the user's [lastViewedAt]
    for that project, the epoch standing in for a missing ledger row (so
    that, comments being created after the epoch, any comment makes a
    project without row unread); a project without files has no comments,
    no unresolved comments, no last comment time and nothing unread. *)
Theorem hasUnreadComments_spec (db : Db) (userId : string) :
  project <$> getProjectsWithCommentStats db userId
    = getProjectsByUserId db userId ∧
  Forall (λ s,
    let p := project s in
    (viewRows db userId (Project.id p) = [] →
       (hasUnreadComments s = true ↔
        ∃ c, c ∈ projectComments db p ∧ 0 < Comment.createdAt c) ∧
       ((∀ c, c ∈ projectComments db p → 0 < Comment.createdAt c) →
        (hasUnreadComments s = true ↔ projectComments db p ≠ []))) ∧
    (∀ v rest, viewRows db userId (Project.id p) = v :: rest →
       (hasUnreadComments s = true ↔
        ∃ c, c ∈ projectComments db p ∧
             ProjectView.lastViewedAt v < Comment.createdAt c)) ∧
    ((∀ f, f ∈ files db → File.projectId f ≠ Project.id p) →
       totalComments s = 0%nat ∧ unresolvedComments s = 0%nat ∧
       lastCommentTime s = None ∧ hasUnreadComments s = false))
  (getProjectsWithCommentStats db userId).
Proof.
  unfold getProjectsWithCommentStats. split.
  { rewrite <- list_fmap_compose. apply list_fmap_id. }
  rewrite Forall_fmap. apply Forall_true. intros p. simpl.
  split; [|split].
  - intros Hrows.
    assert (hasUnreadComments (projectStats db userId p) = true ↔
            ∃ c, c ∈ projectComments db p ∧ 0 < Comment.createdAt c) as Hiff.
    { apply projectStats_unread.
      unfold getProjectView. fold (viewRows db userId (Project.id p)).
      by rewrite Hrows. }
    split; [done|]. intros Hpos. rewrite Hiff. split.
    + intros (c & Hc & _) Hnil. rewrite Hnil in Hc. by apply elem_of_nil in Hc.
    + destruct (projectComments db p) as [|c l]; [done|]. intros _.
      exists c. split; [left|apply Hpos; left].
  - intros v rest Hrows. apply projectStats_unread.
    unfold getProjectView. fold (viewRows db userId (Project.id p)).
    by rewrite Hrows.
  - intros Hno. unfold projectStats.
    rewrite (projectComments_no_files db p Hno). done.
Qed.

(** Never viewed, one file with four comments: unread. *)
Lemma hasUnreadComments_spec_witness :
  hasUnreadComments (projectStats sampleDb "user-1" sampleProject) = true.
Proof.
  pose proof (hasUnreadComments_spec sampleDb "user-1") as [_ H].
  change (getProjectsWithCommentStats sampleDb "user-1")
    with [projectStats sampleDb "user-1" sampleProject] in H.
  apply Forall_inv in H. destruct H as (Hnone & _ & _).
  destruct (Hnone eq_refl) as [Hiff _]. apply Hiff.
  exists (sampleComment "c1" "To Do" 100). split; [|done].
  apply list_elem_of_here.
Defined.

(** C6: for every project the aggregator reports the size of the
    flattened collection of the comments of the project's files, the number
    of those tagged "To Do" or "In Progress", and the greatest [createdAt]
    among them ([null] when there is none). *)
Theorem aggregator_counts (db : Db) (userId : string) :
  project <$> getProjectsWithCommentStats db userId
    = getProjectsByUserId db userId ∧
  Forall (λ s,
    let cs := projectComments db (project s) in
    totalComments s = length cs ∧
    unresolvedComments s = length (filter isUnresolved cs) ∧
    match lastCommentTime s with
    | None => cs = []
    | Some m =>
        (∃ c, c ∈ cs ∧ Comment.createdAt c = m) ∧
        (∀ c, c ∈ cs → Comment.createdAt c ≤ m)
    end)
  (getProjectsWithCommentStats db userId).
Proof.
  unfold getProjectsWithCommentStats. split.
  { rewrite <- list_fmap_compose. apply list_fmap_id. }
  rewrite Forall_fmap. apply Forall_true. intros p. simpl.
  pose proof (flat_projectComments db p) as Hp.
  unfold projectStats. cbn [totalComments unresolvedComments lastCommentTime].
  set (flat := concat _) in *.
  split; [by rewrite Hp|]. split; [by rewrite Hp|].
  case_bool_decide as Hlen.
  - destruct (MathMax (Comment.createdAt <$> flat)) as [m|] eqn:Hm.
    + apply MathMax_spec in Hm as [Hin Hub]. split.
      * apply list_elem_of_fmap in Hin as (c & -> & Hc).
        exists c. by rewrite <- Hp.
      * intros c Hc. apply Hub, list_elem_of_fmap_2. by rewrite Hp.
    + destruct flat; simpl in *; [lia|done].
  - destruct flat; simpl in *; [|lia].
    by apply Permutation_nil_l in Hp.
Qed.

(** Tags To Do, Resolved, In Progress, Resolved give four comments, two
    of them unresolved; times T, T-5, T-2 give T. *)
Example counts_sample :
  let s := projectStats sampleDb "user-1" sampleProject in
  totalComments s = 4%nat ∧ unresolvedComments s = 2%nat ∧
  lastCommentTime s = Some 100.
Proof. by vm_compute. Qed.

(** A call whose two statements follow one another is [updateProjectView]. *)
Lemma callStep_twice (db : Db) (u p : string) (n0 now : Z) (i0 newId : string) :
  callStep (callStep db (Started u p) n0 i0).1
           (callStep db (Started u p) n0 i0).2 now newId
  = ((updateProjectView db u p now newId).1,
     Returned (updateProjectView db u p now newId).2).
Proof.
  unfold updateProjectView. simpl. by destruct (getProjectView db u p).
Qed.









(** ** Creating a comment *)








(** ** Visual pins *)

Lemma imap_numbers {A} (l : list A) :
  (imap (λ idx x, (S idx, x)) l).*1 = seq 1 (length l) ∧
  (imap (λ idx x, (S idx, x)) l).*2 = l.
Proof.
  split; apply list_eq; intros i.
  - rewrite list_lookup_fmap, list_lookup_imap.
    destruct (l !! i) as [x|] eqn:E; simpl.
    + apply lookup_lt_Some in E. symmetry. by apply lookup_seq.
    + apply lookup_ge_None in E. symmetry. apply lookup_seq_ge. lia.
  - rewrite list_lookup_fmap, list_lookup_imap. by destruct (l !! i).
Qed.

Lemma findIndex_bounds {A} (P : A → Prop) `{∀ x, Decision (P x)} (l : list A) (c : A) :
  c ∈ l → P c →
  ∃ i d, findIndex P l = Z.of_nat i ∧ l !! i = Some d ∧ P d ∧
         ∀ j e, l !! j = Some e → (j < i)%nat → ¬ P e.
Proof.
  intros Hc HP. unfold findIndex.
  destruct (list_find_elem_of P l c Hc HP) as [[i d] Hf]. rewrite Hf.
  apply list_find_Some in Hf as (Hi & Hd & Hmin). by exists i, d.
Qed.

Lemma onPage_pdfAnchored (p : Z) (c : Comment.t) : onPage p c → pdfAnchored c.
Proof. intros (Hr & Hp & _). split; [done|]. by rewrite Hp. Qed.

Section Pins.
Context (comments : list Comment.t).

Lemma elem_of_rootComments (c : Comment.t) :
  c ∈ rootComments comments ↔ c ∈ comments ∧ imageAnchored c.
Proof.
  unfold rootComments. rewrite elem_of_sortBy, list_elem_of_filter. tauto.
Qed.

Lemma elem_of_allRootComments (c : Comment.t) :
  c ∈ allRootComments comments ↔ c ∈ comments ∧ pdfAnchored c.
Proof.
  unfold allRootComments. rewrite elem_of_sortBy, list_elem_of_filter. tauto.
Qed.

Lemma elem_of_rootCommentsForPage (p : Z) (c : Comment.t) :
  c ∈ rootCommentsForPage comments p ↔ c ∈ comments ∧ onPage p c.
Proof.
  unfold rootCommentsForPage. rewrite elem_of_sortBy, list_elem_of_filter. tauto.
Qed.

Lemma elem_of_pdfPins (p k : Z) (c : Comment.t) :
  (k, c) ∈ pdfPins comments p ↔
  k = pdfPinNumber comments c ∧ c ∈ comments ∧ onPage p c.
Proof.
  unfold pdfPins. rewrite list_elem_of_fmap. split.
  - intros (d & [= -> ->] & Hd). by apply elem_of_rootCommentsForPage in Hd.
  - intros (-> & Hc). exists c. by rewrite elem_of_rootCommentsForPage.
Qed.

(** The number of a pin on a page is the rank, counted from one, of the
    first entry with its id in the file-wide list. *)
Lemma pdfPinNumber_rank (p : Z) (c : Comment.t) :
  c ∈ comments → onPage p c →
  ∃ i d, pdfPinNumber comments c = Z.of_nat (S i) ∧
         allRootComments comments !! i = Some d ∧
         Comment.id d = Comment.id c.
Proof.
  intros Hc Hp.
  assert (c ∈ allRootComments comments) as Hall.
  { apply elem_of_allRootComments. eauto using onPage_pdfAnchored. }
  destruct (findIndex_bounds (λ d, Comment.id d = Comment.id c) _ c Hall eq_refl)
    as (i & d & Hi & Hd & Hid & _).
  exists i, d. unfold pdfPinNumber. rewrite Hi. split; [lia|done].
Qed.
End Pins.

Lemma pins_permutation (cs cs' : list Comment.t) (P : Comment.t → Prop)
    `{∀ c, Decision (P c)} :
  cs ≡ₚ cs' → NoDup (Comment.createdAt <$> filter P cs) →
  sortBy Comment.createdAt (filter P cs) = sortBy Comment.createdAt (filter P cs').
Proof.
  intros Hp Hnd. apply sortBy_perm_eq; [|done]. by rewrite Hp.
Qed.

(** C5, as the code has it.  On an image the pins are exactly the root
    comments with both coordinates, numbered 1..N in ascending [createdAt]
    order.  On a PDF the pins of the displayed page are exactly the root
    comments of that page with both coordinates, and the number of each is
    its rank in the ascending list of all root comments of the file that
    carry a page, whatever page is displayed.  Replies and roots without
    anchor get no pin.  The numbers do not depend on the order of the input
    as long as no two eligible comments share their [createdAt]. *)
Theorem pin_numbering (cs : list Comment.t) :
  (* images *)
  (∀ c, c ∈ (imagePins cs).*2 ↔ c ∈ cs ∧ imageAnchored c) ∧
  (imagePins cs).*1 = seq 1 (length (imagePins cs)) ∧
  ascending Comment.createdAt (imagePins cs).*2 ∧
  (∀ cs', cs ≡ₚ cs' →
     NoDup (Comment.createdAt <$> filter imageAnchored cs) →
     imagePins cs' = imagePins cs) ∧
  (* PDF pages *)
  (∀ p c, c ∈ (pdfPins cs p).*2 ↔ c ∈ cs ∧ onPage p c) ∧
  (∀ c, c ∈ allRootComments cs ↔ c ∈ cs ∧ pdfAnchored c) ∧
  ascending Comment.createdAt (allRootComments cs) ∧
  (∀ p k c, (k, c) ∈ pdfPins cs p →
     ∃ i d, k = Z.of_nat (S i) ∧ allRootComments cs !! i = Some d ∧
            Comment.id d = Comment.id c) ∧
  (∀ cs' p, cs ≡ₚ cs' →
     NoDup (Comment.createdAt <$> filter pdfAnchored cs) →
     pdfPins cs' p = pdfPins cs p).
Proof.
  destruct (imap_numbers (rootComments cs)) as [Hnum Hcs].
  split_and!.
  - intros c. unfold imagePins. rewrite Hcs. apply elem_of_rootComments.
  - unfold imagePins. by rewrite Hnum, length_imap.
  - unfold imagePins. rewrite Hcs. apply sortBy_ascending.
  - intros cs' Hp Hnd. unfold imagePins, rootComments.
    by rewrite (pins_permutation cs cs' imageAnchored Hp Hnd).
  - intros p c. split.
    + intros Hc. apply list_elem_of_fmap in Hc as ([k d] & -> & Hin).
      apply elem_of_pdfPins in Hin. tauto.
    + intros [Hc Hp]. apply list_elem_of_fmap.
      exists (pdfPinNumber cs c, c). split; [done|]. by apply elem_of_pdfPins.
  - apply elem_of_allRootComments.
  - apply sortBy_ascending.
  - intros p k c Hin. apply elem_of_pdfPins in Hin as (-> & Hc & Hp).
    by apply (pdfPinNumber_rank cs p c).
  - intros cs' p Hp Hall.
    assert (NoDup (Comment.createdAt <$> filter (onPage p) cs)) as Hpage.
    { eapply sublist_NoDup; [exact Hall|]. apply fmap_sublist.
      rewrite <- (list_filter_filter_l (onPage p) pdfAnchored cs)
        by apply onPage_pdfAnchored.
      apply sublist_filter. }
    unfold pdfPins, pdfPinNumber.
    unfold rootCommentsForPage, allRootComments.
    rewrite (pins_permutation cs cs' pdfAnchored Hp Hall).
    by rewrite (pins_permutation cs cs' (onPage p) Hp Hpage).
Qed.

(** Two anchored roots created at different times and one comment without
    anchor, in either order. *)
Lemma pin_numbering_witness :
  let c1 := pinnedComment "c1" 10 (Some 1200) (Some 3400) None None in
  let c2 := pinnedComment "c2" 20 (Some 5000) (Some 5000) None None in
  let c3 := pinnedComment "c3" 5 None None None None in
  imagePins [c3; c2; c1] = imagePins [c1; c2; c3] ∧
  imagePins [c1; c2; c3] = [(1%nat, c1); (2%nat, c2)].
Proof.
  intros c1 c2 c3. split; [|reflexivity].
  destruct (pin_numbering [c1; c2; c3]) as (_ & _ & _ & H & _).
  apply H.
  - etrans; [apply perm_swap|]. etrans; [apply perm_skip, perm_swap|].
    apply perm_swap.
  - apply (bool_decide_unpack _). by vm_compute.
Defined.

(** C5 fails on the code: two anchored roots with the same [createdAt]
    swap their pin numbers when the input is reversed. *)
Lemma pin_numbers_depend_on_order :
  let a := pinnedComment "a" 10 (Some 1200) (Some 3400) None None in
  let b := pinnedComment "b" 10 (Some 5000) (Some 5000) None None in
  [a; b] ≡ₚ [b; a] ∧
  imagePins [a; b] = [(1%nat, a); (2%nat, b)] ∧
  imagePins [b; a] = [(1%nat, b); (2%nat, a)].
Proof. split; [apply perm_swap|]. split; reflexivity. Qed.

(** ** The two loops of [buildCommentTree] *)

Lemma initNodes_run (cs : list Comment.t) (map : gmap string addr) (h : Heap) :
  initNodes cs map h = Ok (initMap (length h) cs map) (h ++ (freshNode <$> cs)).
Proof.
  revert map h. induction cs as [|c cs IH]; intros map h; simpl.
  - by rewrite app_nil_r.
  - unfold mbind, M_bind, alloc. rewrite IH.
    rewrite length_app. simpl. rewrite Nat.add_1_r.
    by rewrite <- app_assoc.
Qed.

Lemma initMap_mono (n : addr) (cs : list Comment.t) (m : gmap string addr) (s : string) :
  is_Some (m !! s) → is_Some (initMap n cs m !! s).
Proof.
  revert n m. induction cs as [|c cs IH]; intros n m Hs; simpl; [done|].
  apply IH. rewrite lookup_insert_is_Some. destruct (decide (Comment.id c = s)); auto.
Qed.

Lemma initMap_dom (n : addr) (cs : list Comment.t) (m : gmap string addr) (c : Comment.t) :
  c ∈ cs → is_Some (initMap n cs m !! Comment.id c).
Proof.
  revert n m. induction cs as [|c' cs IH]; intros n m Hc.
  - by apply elem_of_nil in Hc.
  - apply elem_of_cons in Hc as [->|Hc]; simpl; [|by apply IH].
    apply initMap_mono. rewrite lookup_insert_eq. by eexists.
Qed.

Lemma initMap_range (n : addr) (cs : list Comment.t) (m : gmap string addr)
    (s : string) (a : addr) :
  initMap n cs m !! s = Some a →
  m !! s = Some a ∨
  ((n ≤ a < n + length cs)%nat ∧
   ∃ c, cs !! (a - n)%nat = Some c ∧ Comment.id c = s).
Proof.
  revert n m. induction cs as [|c cs IH]; intros n m Hs; simpl in *; [by left|].
  apply IH in Hs as [Hs|[Hr (c' & Hc' & Hid)]].
  - apply lookup_insert_Some in Hs as [[<- <-]|[_ Hs]]; [|by left].
    right. split; [lia|]. exists c. by rewrite Nat.sub_diag.
  - right. split; [lia|]. exists c'. split; [|done].
    replace (a - n)%nat with (S (a - S n)) by lia. done.
Qed.

Lemma initMap_fresh (n : addr) (cs : list Comment.t) (m : gmap string addr) (s : string) :
  s ∉ Comment.id <$> cs → initMap n cs m !! s = m !! s.
Proof.
  revert n m. induction cs as [|c cs IH]; intros n m Hs; simpl; [done|].
  rewrite fmap_cons, not_elem_of_cons in Hs. destruct Hs as [Hne Hs].
  rewrite IH by done. by rewrite lookup_insert_ne.
Qed.

Lemma initMap_NoDup (n : addr) (cs : list Comment.t) (m : gmap string addr)
    (i : nat) (c : Comment.t) :
  NoDup (Comment.id <$> cs) → cs !! i = Some c →
  initMap n cs m !! Comment.id c = Some (n + i)%nat.
Proof.
  revert n m i. induction cs as [|c' cs IH]; intros n m i Hnd Hi; [done|].
  rewrite fmap_cons in Hnd. apply NoDup_cons in Hnd as [Hnin Hnd].
  destruct i as [|i]; simpl in *.
  - injection Hi as ->. rewrite initMap_fresh by done.
    by rewrite lookup_insert_eq, Nat.add_0_r.
  - rewrite (IH (S n) _ i) by done. f_equal. lia.
Qed.

Lemma extend_nil (o : Obj) : extend [] o = o.
Proof.
  destruct o as [f [l|]]; unfold extend; simpl; [|done].
  by rewrite app_nil_r.
Qed.

Lemma bind_Ok {A B} (m : M A) (f : A → M B) (h h' : Heap) (a : A) :
  m h = Ok a h' → (m ≫= f) h = f a h'.
Proof. unfold mbind, M_bind. by intros ->. Qed.

Lemma bind_Throw {A B} (m : M A) (f : A → M B) (h h' : Heap) (e : Err) :
  m h = Throw e h' → (m ≫= f) h = Throw e h'.
Proof. unfold mbind, M_bind. by intros ->. Qed.

Lemma getReplies_Ok (a : addr) (h : Heap) (o : Obj) (l : list addr) :
  h !! a = Some o → replies o = Some l → getReplies a h = Ok l h.
Proof. unfold getReplies. intros ->. destruct o; simpl. by intros ->. Qed.

Lemma setReplies_Ok (a : addr) (h : Heap) (o : Obj) (l : list addr) :
  h !! a = Some o →
  setReplies a l h = Ok () (<[a := mkObj (fields o) (Some l)]> h).
Proof. unfold setReplies. by intros ->. Qed.

Lemma push_Ok (a x : addr) (h : Heap) (o : Obj) (l : list addr) :
  h !! a = Some o → replies o = Some l →
  push a x h = Ok () (<[a := mkObj (fields o) (Some (l ++ [x]))]> h).
Proof.
  intros Ho Hl. unfold push.
  rewrite (bind_Ok _ _ _ _ _ (getReplies_Ok a h o l Ho Hl)).
  by apply setReplies_Ok.
Qed.

Lemma rootAddrs_cons (map : gmap string addr) (c : Comment.t) (cs : list Comment.t) :
  rootAddrs map (c :: cs) =
  match truthy (Comment.parentId c) with
  | Some _ => rootAddrs map cs
  | None => match map !! Comment.id c with
            | Some a => a :: rootAddrs map cs
            | None => rootAddrs map cs
            end
  end.
Proof.
  unfold rootAddrs, isRoot. simpl.
  by destruct (truthy (Comment.parentId c)).
Qed.

Lemma childAddrs_cons (map : gmap string addr) (a : addr) (c : Comment.t)
    (cs : list Comment.t) :
  childAddrs map a (c :: cs) =
  if decide (parentAddr map c = Some a)
  then match map !! Comment.id c with
       | Some x => x :: childAddrs map a cs
       | None => childAddrs map a cs
       end
  else childAddrs map a cs.
Proof. unfold childAddrs. simpl. by destruct (decide _). Qed.

Lemma link_spec (map : gmap string addr) (cs : list Comment.t)
    (roots : list addr) (h : Heap) :
  (∀ c, c ∈ cs → is_Some (map !! Comment.id c)) →
  (∀ s a, map !! s = Some a → ∃ o l, h !! a = Some o ∧ replies o = Some l) →
  ∃ h', link map cs roots h = Ok (roots ++ rootAddrs map cs) h' ∧
        ∀ a, h' !! a = extend (childAddrs map a cs) <$> h !! a.
Proof.
  revert roots h. induction cs as [|c cs IH]; intros roots h Hdom Hnode.
  { exists h. split; [simpl; by rewrite app_nil_r|].
    intros a. simpl. destruct (h !! a); simpl; [|done]. by rewrite extend_nil. }
  destruct (Hdom c) as [cwr Hcwr]; [left|].
  assert (∀ c', c' ∈ cs → is_Some (map !! Comment.id c')) as Hdom'.
  { intros c' Hc'. apply Hdom. by right. }
  simpl link. rewrite rootAddrs_cons, !Hcwr.
  assert (∀ a, childAddrs map a (c :: cs) =
               if decide (parentAddr map c = Some a)
               then cwr :: childAddrs map a cs else childAddrs map a cs) as Hkids.
  { intros a. by rewrite childAddrs_cons, Hcwr. }
  destruct (truthy (Comment.parentId c)) as [pid|] eqn:Hpid.
  - destruct (map !! pid) as [parent|] eqn:Hparent.
    + assert (parentAddr map c = Some parent) as Hpa.
      { unfold parentAddr. by rewrite Hpid. }
      destruct (Hnode _ _ Hparent) as (o & l & Ho & Hl).
      set (h1 := <[parent := mkObj (fields o) (Some (l ++ [cwr]))]> h).
      destruct (IH roots h1 Hdom') as (h' & Hrun & Hh').
      { intros s a Hs. destruct (decide (a = parent)) as [->|Hne].
        - exists (mkObj (fields o) (Some (l ++ [cwr]))), (l ++ [cwr]).
          split; [|done]. unfold h1.
          apply list_lookup_insert_eq. by eapply lookup_lt_Some.
        - destruct (Hnode _ _ Hs) as (o' & l' & Ho' & Hl').
          exists o', l'. split; [|done].
          unfold h1. by rewrite list_lookup_insert_ne. }
      exists h'. split.
      * by rewrite (bind_Ok _ _ _ _ _ (push_Ok parent cwr h o l Ho Hl)).
      * intros a. rewrite Hh', Hkids, Hpa. unfold h1.
        destruct (decide (a = parent)) as [->|Hne].
        -- rewrite list_lookup_insert_eq by (by eapply lookup_lt_Some).
           rewrite Ho. simpl. rewrite decide_True by done.
           unfold extend. simpl. rewrite Hl. simpl.
           by rewrite <- app_assoc.
        -- rewrite list_lookup_insert_ne by done.
           rewrite decide_False by congruence. done.
    + assert (parentAddr map c = None) as Hpa.
      { unfold parentAddr. by rewrite Hpid. }
      destruct (IH roots h Hdom' Hnode) as (h' & Hrun & Hh').
      exists h'. split; [done|]. intros a. rewrite Hh', Hkids, Hpa.
      by rewrite decide_False by done.
  - assert (parentAddr map c = None) as Hpa.
    { unfold parentAddr. by rewrite Hpid. }
    destruct (IH (roots ++ [cwr]) h Hdom' Hnode) as (h' & Hrun & Hh').
    exists h'. split.
    + rewrite Hrun. by rewrite <- app_assoc.
    + intros a. rewrite Hh', Hkids, Hpa. by rewrite decide_False by done.
Qed.

(** ** [sortReplies] *)

Lemma forEach_cons {A} (f : A → M unit) (x : A) (l : list A) (h : Heap) :
  forEach f (x :: l) h =
  match f x h with
  | Ok _ h1 => forEach f l h1
  | Throw e h1 => Throw e h1
  end.
Proof. reflexivity. Qed.

Lemma sortReplies_S (fuel : nat) (a : addr) (h : Heap) :
  sortReplies (S fuel) a h =
  match h !! a with
  | Some (mkObj f (Some l)) =>
      forEach (sortReplies fuel) (sortBy (keyAt h) l)
        (<[a := mkObj f (Some (sortBy (keyAt h) l))]> h)
  | _ => Throw TypeError h
  end.
Proof.
  cbn [sortReplies]. unfold mbind, M_bind, getReplies, sortArr, setReplies.
  destruct (h !! a) as [[f [l|]]|] eqn:E; try done.
  by rewrite E.
Qed.

Section SortReplies.
Context (h0 : Heap) (T : addr → Prop).
Context (Hclosed : ∀ a b, T a → edge h0 a b → T b).

Lemma Inv_refl : Inv h0 T h0.
Proof. intros a. by left. Qed.

Lemma Inv_fields (h : Heap) (a : addr) :
  Inv h0 T h → fields <$> h !! a = fields <$> h0 !! a.
Proof.
  intros Hinv. destruct (Hinv a) as [->|[_ ->]]; [done|].
  by destruct (h0 !! a).
Qed.

Lemma keyAt_Inv (h : Heap) (a : addr) : Inv h0 T h → keyAt h a = keyAt h0 a.
Proof.
  intros Hinv. unfold keyAt. pose proof (Inv_fields h a Hinv) as Hf.
  destruct (h !! a), (h0 !! a); simpl in *; congruence.
Qed.

Lemma Inv_length (h : Heap) : Inv h0 T h → length h = length h0.
Proof.
  intros Hinv.
  assert (∀ a, is_Some (h !! a) ↔ is_Some (h0 !! a)) as Hs.
  { intros a. destruct (Hinv a) as [->|[_ ->]]; [done|].
    by rewrite fmap_is_Some. }
  destruct (Nat.lt_trichotomy (length h) (length h0)) as [Hlt|[?|Hlt]]; [|done|].
  - apply lookup_lt_is_Some, Hs, lookup_lt_is_Some in Hlt. lia.
  - apply lookup_lt_is_Some, Hs, lookup_lt_is_Some in Hlt. lia.
Qed.

Lemma Inv_edge (h : Heap) (a b : addr) : Inv h0 T h → edge h a b ↔ edge h0 a b.
Proof.
  intros Hinv. unfold edge. destruct (Hinv a) as [->|[_ ->]]; [done|].
  split.
  - intros (o & l & Ho & Hl & Hb).
    destruct (h0 !! a) as [[f0 r0]|]; simpl in *; [|done].
    injection Ho as <-. simpl in Hl.
    destruct r0 as [l0|]; simpl in *; [|done]. injection Hl as <-.
    exists (mkObj f0 (Some l0)), l0. split_and!; [done..|].
    by apply elem_of_sortBy in Hb.
  - intros (o & l & Ho & Hl & Hb). rewrite Ho. simpl.
    exists (sortedObj h0 o), (sortBy (keyAt h0) l). split_and!; [done| |].
    + unfold sortedObj. simpl. by rewrite Hl.
    + by apply elem_of_sortBy.
Qed.

(** One in-place sort. *)
Lemma sortStep (h : Heap) (a : addr) (f : Comment.t) (l : list addr) :
  Inv h0 T h → T a → h !! a = Some (mkObj f (Some l)) →
  let h1 := <[a := mkObj f (Some (sortBy (keyAt h) l))]> h in
  Inv h0 T h1 ∧ Done h0 h1 a ∧ (∀ b, Done h0 h b → Done h0 h1 b) ∧
  ∀ x, x ∈ sortBy (keyAt h) l ↔ edge h0 a x.
Proof.
  intros Hinv HT Ha h1.
  assert (Done h0 h1 a) as Hdone.
  { unfold Done, h1. rewrite list_lookup_insert_eq by (by eapply lookup_lt_Some).
    rewrite (sortBy_ext_in _ (keyAt h0)) by (intros; by apply keyAt_Inv).
    destruct (Hinv a) as [Heq|[_ Heq]]; unfold Done in Heq; rewrite Ha in Heq.
    - by rewrite <- Heq.
    - destruct (h0 !! a) as [[f0 r0]|]; simpl in *; [|done].
      injection Heq as -> Hl. destruct r0 as [l0|]; simpl in *; [|done].
      injection Hl as ->. unfold sortedObj. simpl. by rewrite sortBy_idemp. }
  assert (∀ b, b ≠ a → h1 !! b = h !! b) as Hother.
  { intros b Hb. unfold h1. by rewrite list_lookup_insert_ne. }
  split_and!; [|done| |].
  - intros b. destruct (decide (b = a)) as [->|Hb]; [by right|].
    destruct (Hinv b) as [Hsame|[HTb Hd]]; [left|right].
    + by rewrite Hother.
    + split; [done|]. unfold Done. by rewrite Hother.
  - intros b Hb. destruct (decide (b = a)) as [->|Hne]; [done|].
    unfold Done. by rewrite Hother.
  - intros x. rewrite elem_of_sortBy, <- (Inv_edge h a x Hinv). unfold edge.
    split.
    + intros Hx. by exists (mkObj f (Some l)), l.
    + intros (o & l' & Ho & Hl & Hx). rewrite Ha in Ho.
      injection Ho as <-. simpl in Hl. by injection Hl as <-.
Qed.

(** A loop over an array of nodes, for any visit [f] that behaves like
    [sortReplies]. *)
Lemma forEach_inv (f : addr → M unit) :
  (∀ a h, Inv h0 T h → T a →
     Inv h0 T (heapOf (f a h)) ∧
     (∀ b, Done h0 h b → Done h0 (heapOf (f a h)) b) ∧
     (∀ h', f a h = Ok () h' → ∀ b, rtc (edge h0) a b → Done h0 h' b)) →
  ∀ k g, Inv h0 T g → (∀ x, x ∈ k → T x) →
    Inv h0 T (heapOf (forEach f k g)) ∧
    (∀ b, Done h0 g b → Done h0 (heapOf (forEach f k g)) b) ∧
    (∀ g', forEach f k g = Ok () g' →
           ∀ x b, x ∈ k → rtc (edge h0) x b → Done h0 g' b).
Proof.
  intros Hf. induction k as [|x k IHk]; intros g Hg Hk.
  { simpl. split_and!; [done..|]. intros g' _ x b Hx. by apply elem_of_nil in Hx. }
  rewrite forEach_cons.
  destruct (Hf x g Hg) as (Hi & Hm & Hr); [apply Hk; left|].
  destruct (f x g) as [[] g1|e g1]; simpl in *; [|by split_and!].
  destruct (IHk g1 Hi) as (Hi' & Hm' & Hr'); [intros; apply Hk; by right|].
  split_and!; [done|by auto|].
  intros g' Hg' y b Hy Hyb. apply elem_of_cons in Hy as [->|Hy].
  - rewrite Hg' in Hm'. simpl in Hm'. apply Hm'. by apply Hr.
  - by apply (Hr' g' Hg' y b).
Qed.

Lemma sortReplies_inv (fuel : nat) :
  ∀ a h, Inv h0 T h → T a →
    Inv h0 T (heapOf (sortReplies fuel a h)) ∧
    (∀ b, Done h0 h b → Done h0 (heapOf (sortReplies fuel a h)) b) ∧
    (∀ h', sortReplies fuel a h = Ok () h' →
           ∀ b, rtc (edge h0) a b → Done h0 h' b).
Proof.
  induction fuel as [|fuel IH]; intros a h Hinv HT.
  { simpl. split_and!; [done..|]. by intros h' [=]. }
  rewrite sortReplies_S.
  destruct (h !! a) as [[f [l|]]|] eqn:Ha; simpl; [| by split_and!..].
  destruct (sortStep h a f l Hinv HT Ha) as (Hinv1 & Hdone1 & Hmono1 & Hkids).
  set (h1 := <[a := mkObj f (Some (sortBy (keyAt h) l))]> h) in *.
  destruct (forEach_inv (sortReplies fuel) IH (sortBy (keyAt h) l) h1 Hinv1)
    as (Hi & Hm & Hr).
  { intros x Hx. apply (Hclosed a); [done|]. by apply Hkids. }
  split_and!; [done|by auto|].
  intros h' Hh' b Hab. rewrite Hh' in Hm. simpl in Hm.
  apply rtc_inv in Hab as [<-|(x & Hax & Hxb)]; [by apply Hm|].
  apply (Hr h' Hh' x b); [by apply Hkids|done].
Qed.
End SortReplies.

(** ** The heap after the two loops *)

Section Linked.
Context (h0 : Heap) (cs : list Comment.t).
Let m := initMap (length h0) cs ∅.

Lemma initMap_node (s : string) (a : addr) :
  m !! s = Some a →
  isNode h0 cs a ∧ ∃ c, cs !! (a - length h0)%nat = Some c ∧ Comment.id c = s.
Proof.
  intros Hs. apply initMap_range in Hs as [Hs|Hs]; [|done].
  by rewrite lookup_empty in Hs.
Qed.

Lemma childAddrs_node (a x : addr) : x ∈ childAddrs m a cs → isNode h0 cs x.
Proof.
  unfold childAddrs. rewrite list_elem_of_omap. intros (c & _ & Hx).
  destruct (decide _); [|done]. by apply initMap_node in Hx as [? _].
Qed.

Lemma rootAddrs_node (x : addr) : x ∈ rootAddrs m cs → isNode h0 cs x.
Proof.
  unfold rootAddrs. rewrite list_elem_of_omap. intros (c & _ & Hx).
  destruct (decide _); [|done]. by apply initMap_node in Hx as [? _].
Qed.

Lemma childAddrs_outside (a : addr) : ¬ isNode h0 cs a → childAddrs m a cs = [].
Proof.
  intros Ha. destruct (childAddrs m a cs) as [|x l] eqn:E; [done|].
  assert (x ∈ childAddrs m a cs) as Hx by (rewrite E; left).
  unfold childAddrs in Hx. apply list_elem_of_omap in Hx as (c & _ & Hx).
  destruct (decide (parentAddr m c = Some a)) as [Hp|]; [|done].
  unfold parentAddr in Hp. destruct (truthy (Comment.parentId c)); [|done].
  simpl in Hp. by apply initMap_node in Hp as [? _].
Qed.

Lemma linked_lookup (a : addr) :
  linked h0 cs !! a
  = extend (childAddrs m a cs) <$> (h0 ++ (freshNode <$> cs)) !! a.
Proof. unfold linked. by rewrite list_lookup_imap. Qed.

Lemma linked_old (a : addr) : (a < length h0)%nat → linked h0 cs !! a = h0 !! a.
Proof.
  intros Ha. rewrite linked_lookup, lookup_app_l by done.
  rewrite childAddrs_outside by (unfold isNode; lia).
  destruct (h0 !! a); simpl; [|done]. by rewrite extend_nil.
Qed.

Lemma linked_node (i : nat) (c : Comment.t) :
  cs !! i = Some c →
  linked h0 cs !! (length h0 + i)%nat
  = Some (mkObj c (Some (childAddrs m (length h0 + i) cs))).
Proof.
  intros Hi. rewrite linked_lookup, lookup_app_r by lia.
  replace (length h0 + i - length h0)%nat with i by lia.
  by rewrite list_lookup_fmap, Hi.
Qed.

Lemma linked_length : length (linked h0 cs) = (length h0 + length cs)%nat.
Proof. unfold linked. by rewrite length_imap, length_app, length_fmap. Qed.

Lemma isNode_lookup (a : addr) :
  isNode h0 cs a →
  ∃ c, cs !! (a - length h0)%nat = Some c ∧
       linked h0 cs !! a = Some (mkObj c (Some (childAddrs m a cs))).
Proof.
  intros [Hlo Hhi].
  destruct (lookup_lt_is_Some_2 cs (a - length h0)) as [c Hc]; [lia|].
  exists c. split; [done|].
  pose proof (linked_node (a - length h0) c Hc) as Hn.
  by replace (length h0 + (a - length h0))%nat with a in Hn by lia.
Qed.

Lemma isNode_closed (a b : addr) :
  isNode h0 cs a → edge (linked h0 cs) a b → isNode h0 cs b.
Proof.
  intros Ha (o & l & Ho & Hl & Hb).
  destruct (isNode_lookup a Ha) as (c & _ & Hc). rewrite Hc in Ho.
  injection Ho as <-. simpl in Hl. injection Hl as <-.
  by eapply childAddrs_node.
Qed.

Lemma link_run :
  link m cs [] (h0 ++ (freshNode <$> cs)) = Ok (rootAddrs m cs) (linked h0 cs).
Proof.
  destruct (link_spec m cs [] (h0 ++ (freshNode <$> cs))) as (h' & Hrun & Hh').
  - intros c Hc. by apply initMap_dom.
  - intros s a Hs. apply initMap_node in Hs as [[Hlo Hhi] (c & Hc & _)].
    exists (freshNode c), []. split; [|done].
    rewrite lookup_app_r by lia. by rewrite list_lookup_fmap, Hc.
  - rewrite Hrun. simpl. f_equal. apply list_eq. intros a.
    by rewrite Hh', linked_lookup.
Qed.

Lemma buildCommentTree_run (fuel : nat) :
  buildCommentTree fuel cs h0 =
  let roots' := sortBy (keyAt (linked h0 cs)) (rootAddrs m cs) in
  match forEach (sortReplies fuel) roots' (linked h0 cs) with
  | Ok _ h' => Ok roots' h'
  | Throw e h' => Throw e h'
  end.
Proof.
  unfold buildCommentTree.
  rewrite (bind_Ok _ _ _ _ _ (initNodes_run cs ∅ h0)). fold m.
  rewrite (bind_Ok _ _ _ _ _ link_run).
  unfold mbind, M_bind, sortArr. simpl.
  by destruct (forEach _ _ _).
Qed.

(** What every run of [buildCommentTree] leaves behind, whether it returns
    or throws. *)
Lemma buildCommentTree_inv (fuel : nat) :
  Inv (linked h0 cs) (isNode h0 cs) (heapOf (buildCommentTree fuel cs h0)) ∧
  ∀ roots h', buildCommentTree fuel cs h0 = Ok roots h' →
    roots = sortBy (keyAt (linked h0 cs)) (rootAddrs m cs) ∧
    ∀ r b, r ∈ roots → rtc (edge (linked h0 cs)) r b →
           isNode h0 cs b ∧ Done (linked h0 cs) h' b.
Proof.
  rewrite buildCommentTree_run. cbv zeta.
  set (roots' := sortBy _ _).
  assert (∀ x, x ∈ roots' → isNode h0 cs x) as Hroots.
  { intros x Hx. apply elem_of_sortBy in Hx. by apply rootAddrs_node. }
  destruct (forEach_inv (linked h0 cs) (isNode h0 cs)
              (sortReplies fuel)
              (sortReplies_inv (linked h0 cs) (isNode h0 cs) isNode_closed fuel)
              roots' (linked h0 cs)) as (Hi & _ & Hr).
  { apply Inv_refl. }
  { done. }
  destruct (forEach (sortReplies fuel) roots' (linked h0 cs)) as [[] h'|e h'];
    simpl in *; (split; [done|]); [|done].
  intros roots h'' [= <- <-]. split; [done|].
  intros r b Hr' Hrb. split; [|by eapply Hr].
  clear Hr. apply Hroots in Hr'. induction Hrb; [done|].
  eauto using isNode_closed.
Qed.
End Linked.

(** ** Order of the forest that is returned *)

Lemma ascending_Forall2 {A B} (key1 : A → Z) (key2 : B → Z) (l : list A) (k : list B) :
  Forall2 (λ x y, key1 x = key2 y) l k → ascending key1 l → ascending key2 k.
Proof.
  unfold ascending. intros HF. induction HF as [|x y l k Hxy HF IH]; intros Hs.
  - constructor.
  - apply StronglySorted_inv in Hs as [Hl Hx]. constructor; [by apply IH|].
    clear IH Hl. induction HF as [|x' y' l k Hxy' HF IH]; [constructor|].
    apply Forall_cons in Hx as [Hx Hxs]. constructor; [lia|by apply IH].
Qed.

Lemma ascending_ext_in {A} (key key' : A → Z) (l : list A) :
  (∀ x, x ∈ l → key x = key' x) → ascending key l → ascending key' l.
Proof.
  intros Hk. apply ascending_Forall2.
  apply Forall2_same_length_lookup. split; [done|].
  intros i x y Hx Hy. rewrite Hx in Hy. injection Hy as <-.
  apply Hk. by eapply list_elem_of_lookup_2.
Qed.

Lemma ascending_fmap {A B} (key : B → Z) (f : A → B) (l : list A) :
  ascending (key ∘ f) l → ascending key (f <$> l).
Proof.
  apply ascending_Forall2. apply Forall2_fmap_r, Forall_Forall2_diag.
  by apply Forall_true.
Qed.

Lemma rtc_edge_Inv (h0 h : Heap) (T : addr → Prop) (a b : addr) :
  Inv h0 T h → rtc (edge h) a b ↔ rtc (edge h0) a b.
Proof.
  intros Hinv. split; intros Hab; induction Hab as [|x y z Hxy _ IH]; try done.
  - eapply rtc_l; [|exact IH]. by apply (Inv_edge h0 T h).
  - eapply rtc_l; [|exact IH]. by apply (Inv_edge h0 T h).
Qed.

Lemma readTree_Some (fuel : nat) (h : Heap) (a : addr) (t : CommentWithReplies) :
  readTree fuel h a = Some t →
  ∃ fuel' o l kids,
    fuel = S fuel' ∧ h !! a = Some o ∧ replies o = Some l ∧
    Forall2 (λ x k, readTree fuel' h x = Some k) l kids ∧
    t = Node (fields o) kids.
Proof.
  destruct fuel as [|fuel']; [done|]. simpl.
  destruct (h !! a) as [o|]; simpl; [|done].
  destruct (replies o) as [l|] eqn:Hl; simpl; [|done].
  destruct (mapM (readTree fuel' h) l) as [kids|] eqn:Hk; simpl; [|done].
  intros [= <-]. exists fuel', o, l, kids. split_and!; try done.
  by apply mapM_Some_1.
Qed.

Lemma readTree_sorted (h : Heap) (P : addr → Prop) :
  (∀ b o l, P b → h !! b = Some o → replies o = Some l →
            ascending (keyAt h) l ∧ ∀ x, x ∈ l → P x) →
  ∀ fuel a t, P a → readTree fuel h a = Some t →
    wellSorted t ∧ Comment.createdAt (rootOf t) = keyAt h a.
Proof.
  intros HP. induction fuel as [|fuel IH]; intros a t Ha Ht; [done|].
  apply readTree_Some in Ht as (fuel' & o & l & kids & [= <-] & Ho & Hl & Hk & ->).
  destruct (HP a o l Ha Ho Hl) as [Hasc Hkids].
  assert (Forall2 (λ x k, wellSorted k ∧
                          keyAt h x = Comment.createdAt (rootOf k)) l kids) as Hk'.
  { apply Forall2_same_length_lookup. split; [by eapply Forall2_length|].
    intros i x k Hx Hki.
    pose proof (Forall2_lookup_lr _ _ _ _ _ _ Hk Hx Hki) as Hr.
    apply IH in Hr as [? ?]; [done|]. apply Hkids. by eapply list_elem_of_lookup_2. }
  split.
  - constructor.
    + apply ascending_fmap. eapply ascending_Forall2; [|exact Hasc].
      eapply Forall2_impl; [exact Hk'|]. by intros x k [_ ?].
    + apply Forall2_Forall_r with (P := λ _ k, wellSorted k) (l := l); [|by apply Forall_true].
      eapply Forall2_impl; [exact Hk'|]. simpl. by intros x k [? _].
  - simpl. unfold keyAt. by rewrite Ho.
Qed.

(** The arrays of every node that can be reached from a returned root are
    in ascending order, and so is the array of roots. *)
Lemma buildCommentTree_sorted (fuel : nat) (cs : list Comment.t) (h0 : Heap)
    (roots : list addr) (h' : Heap) :
  buildCommentTree fuel cs h0 = Ok roots h' →
  ascending (keyAt h') roots ∧
  ∀ b o l, (∃ r, r ∈ roots ∧ rtc (edge h') r b) →
           h' !! b = Some o → replies o = Some l →
           ascending (keyAt h') l ∧ ∀ x, x ∈ l → ∃ r, r ∈ roots ∧ rtc (edge h') r x.
Proof.
  intros Hrun. destruct (buildCommentTree_inv h0 cs fuel) as [Hinv Hok].
  rewrite Hrun in Hinv. simpl in Hinv.
  destruct (Hok roots h' Hrun) as [Hroots Hdone].
  assert (∀ l, ascending (keyAt (linked h0 cs)) l → ascending (keyAt h') l) as Hkey.
  { intros l. apply ascending_ext_in. intros x _. symmetry.
    by eapply keyAt_Inv. }
  split.
  - apply Hkey. rewrite Hroots. apply sortBy_ascending.
  - intros b o l (r & Hr & Hrb) Ho Hl. split.
    + apply Hkey.
      apply (rtc_edge_Inv _ _ _ _ _ Hinv) in Hrb.
      destruct (Hdone r b Hr Hrb) as [_ Hd]. unfold Done in Hd.
      rewrite Ho in Hd. destruct (linked h0 cs !! b) as [[f0 r0]|]; [|done].
      simpl in Hd. injection Hd as ->. simpl in Hl.
      destruct r0 as [l0|]; [|done]. simpl in Hl. injection Hl as <-.
      apply sortBy_ascending.
    + intros x Hx. exists r. split; [done|].
      eapply rtc_r; [exact Hrb|]. by exists o, l.
Qed.

(** ** Lists with pairwise distinct ids: the heap against the list *)

Lemma omap_guard {A B} (P Q : A → Prop) `{∀ x, Decision (P x)}
    `{∀ x, Decision (Q x)} (g : A → option B) (f : A → B) (l : list A) :
  (∀ x, x ∈ l → Q x ↔ P x) → (∀ x, x ∈ l → g x = Some (f x)) →
  omap (λ x, if decide (Q x) then g x else None) l = f <$> filter P l.
Proof.
  induction l as [|x l IH]; intros HQP Hg; [done|].
  cbn [omap list_omap]. rewrite filter_cons.
  fold (omap (λ x, if decide (Q x) then g x else None) l).
  rewrite IH by (intros; first [apply HQP|apply Hg]; by right).
  destruct (decide (Q x)) as [HQ|HQ].
  - rewrite decide_True by (apply HQP; [left|done]).
    by rewrite Hg by left.
  - by rewrite decide_False by (rewrite <- HQP; [done|left]).
Qed.

Lemma childrenOf_elem (cs : list Comment.t) (d : Comment.t) (s : string) :
  d ∈ childrenOf cs s ↔ d ∈ cs ∧ truthy (Comment.parentId d) = Some s.
Proof. unfold childrenOf. rewrite list_elem_of_filter. tauto. Qed.

Section Refine.
Context (h0 : Heap) (cs : list Comment.t).
Context (Hnd : NoDup (Comment.id <$> cs)).
Let m := initMap (length h0) cs ∅.
Let A := addrOf h0 cs.

Lemma id_inj (c d : Comment.t) :
  c ∈ cs → d ∈ cs → Comment.id c = Comment.id d → c = d.
Proof.
  intros Hc Hd Hid.
  apply list_elem_of_lookup in Hc as [i Hi], Hd as [j Hj].
  assert (i = j) as ->; [|congruence].
  apply (NoDup_lookup _ i j (Comment.id c) Hnd).
  - by rewrite list_lookup_fmap, Hi.
  - by rewrite list_lookup_fmap, Hj, Hid.
Qed.

Lemma addrOf_lookup (i : nat) (c : Comment.t) :
  cs !! i = Some c →
  m !! Comment.id c = Some (length h0 + i)%nat ∧ A c = (length h0 + i)%nat.
Proof.
  intros Hi. pose proof (initMap_NoDup (length h0) cs ∅ i c Hnd Hi) as Hm.
  split; [done|]. unfold A, addrOf. by rewrite Hm.
Qed.

Lemma addrOf_elem (c : Comment.t) :
  c ∈ cs → m !! Comment.id c = Some (A c) ∧ isNode h0 cs (A c).
Proof.
  intros Hc. apply list_elem_of_lookup in Hc as [i Hi].
  destruct (addrOf_lookup i c Hi) as [Hm ->]. split; [done|].
  apply lookup_lt_Some in Hi. unfold isNode. lia.
Qed.

Lemma addrOf_inj (c d : Comment.t) : c ∈ cs → d ∈ cs → A c = A d → c = d.
Proof.
  intros Hc Hd Heq.
  apply list_elem_of_lookup in Hc as [i Hi], Hd as [j Hj].
  destruct (addrOf_lookup i c Hi) as [_ Hi'], (addrOf_lookup j d Hj) as [_ Hj'].
  assert (i = j) as -> by lia. congruence.
Qed.

Lemma rootAddrs_addrOf :
  rootAddrs m cs = A <$> filter (λ c, isRoot c = true) cs.
Proof.
  unfold rootAddrs. apply omap_guard; [done|].
  intros c Hc. by apply addrOf_elem.
Qed.

Lemma parentAddr_addrOf (c p : Comment.t) :
  c ∈ cs → p ∈ cs →
  parentAddr m c = Some (A p) ↔ truthy (Comment.parentId c) = Some (Comment.id p).
Proof.
  intros Hc Hp. unfold parentAddr.
  destruct (truthy (Comment.parentId c)) as [pid|]; simpl; [|done].
  split.
  - intros Hpid. apply initMap_node in Hpid as [_ (p' & Hp' & <-)].
    f_equal. f_equal. apply list_elem_of_lookup in Hp as [i Hi].
    destruct (addrOf_lookup i p Hi) as [_ HA]. rewrite HA in Hp'.
    replace (length h0 + i - length h0)%nat with i in Hp' by lia. congruence.
  - intros [= ->]. by apply addrOf_elem.
Qed.

Lemma childAddrs_addrOf (p : Comment.t) :
  p ∈ cs → childAddrs m (A p) cs = A <$> childrenOf cs (Comment.id p).
Proof.
  intros Hp. unfold childAddrs, childrenOf. apply omap_guard.
  - intros c Hc. by apply parentAddr_addrOf.
  - intros c Hc. by apply addrOf_elem.
Qed.

Lemma linked_addrOf (c : Comment.t) :
  c ∈ cs →
  linked h0 cs !! A c
  = Some (mkObj c (Some (A <$> childrenOf cs (Comment.id c)))).
Proof.
  intros Hc. rewrite <- childAddrs_addrOf by done.
  apply list_elem_of_lookup in Hc as [i Hi].
  destruct (addrOf_lookup i c Hi) as [_ ->]. by apply linked_node.
Qed.

Lemma keyAt_addrOf (c : Comment.t) :
  c ∈ cs → keyAt (linked h0 cs) (A c) = Comment.createdAt c.
Proof. intros Hc. unfold keyAt. by rewrite linked_addrOf. Qed.

Lemma sortBy_addrOf (l : list Comment.t) :
  (∀ c, c ∈ l → c ∈ cs) →
  sortBy (keyAt (linked h0 cs)) (A <$> l) = A <$> sortBy Comment.createdAt l.
Proof.
  intros Hl. rewrite sortBy_fmap. f_equal.
  apply sortBy_ext_in. intros c Hc. simpl. apply keyAt_addrOf. by apply Hl.
Qed.

(** The object at the address of a comment in any heap [sortReplies] can
    meet, and in one where that node has been sorted. *)
Lemma Inv_addrOf (h : Heap) (c : Comment.t) :
  Inv (linked h0 cs) (isNode h0 cs) h → c ∈ cs →
  ∃ l, h !! A c = Some (mkObj c (Some l)) ∧
       sortBy (keyAt h) l
       = A <$> sortBy Comment.createdAt (childrenOf cs (Comment.id c)).
Proof.
  intros Hinv Hc.
  assert (∀ d, d ∈ childrenOf cs (Comment.id c) → d ∈ cs) as Hsub.
  { intros d Hd. by apply childrenOf_elem in Hd as [? _]. }
  assert (∀ l, sortBy (keyAt h) l = sortBy (keyAt (linked h0 cs)) l) as Hkey.
  { intros l. apply sortBy_ext_in. intros x _. by eapply keyAt_Inv. }
  destruct (Hinv (A c)) as [Heq|[_ Heq]]; unfold Done in *;
    rewrite linked_addrOf in Heq by done.
  - eexists. split; [exact Heq|]. by rewrite Hkey, sortBy_addrOf.
  - eexists. split; [exact Heq|].
    by rewrite Hkey, sortBy_idemp, sortBy_addrOf.
Qed.

Lemma Done_addrOf (h : Heap) (c : Comment.t) :
  c ∈ cs → Done (linked h0 cs) h (A c) →
  h !! A c
  = Some (mkObj c (Some (A <$> sortBy Comment.createdAt
                                (childrenOf cs (Comment.id c))))).
Proof.
  intros Hc Hd. unfold Done in Hd. rewrite linked_addrOf in Hd by done.
  rewrite Hd. simpl. unfold sortedObj. simpl. rewrite sortBy_addrOf; [done|].
  intros d Hd'. by apply childrenOf_elem in Hd' as [? _].
Qed.
Lemma thread_Some (fuel : nat) (c : Comment.t) (t : CommentWithReplies) :
  thread fuel cs c = Some t →
  ∃ fuel' kids,
    fuel = S fuel' ∧
    Forall2 (λ d k, thread fuel' cs d = Some k)
      (sortBy Comment.createdAt (childrenOf cs (Comment.id c))) kids ∧
    t = Node c kids.
Proof.
  destruct fuel as [|fuel']; [done|]. simpl.
  destruct (mapM _ _) as [kids|] eqn:Hk; simpl; [|done].
  intros [= <-]. exists fuel', kids. split_and!; try done.
  by apply mapM_Some_1.
Qed.

Lemma sorted_children (c d : Comment.t) :
  d ∈ sortBy Comment.createdAt (childrenOf cs (Comment.id c)) ↔
  d ∈ cs ∧ truthy (Comment.parentId d) = Some (Comment.id c).
Proof. by rewrite elem_of_sortBy, childrenOf_elem. Qed.

Lemma edge_addrOf (c d : Comment.t) :
  c ∈ cs → d ∈ cs → truthy (Comment.parentId d) = Some (Comment.id c) →
  edge (linked h0 cs) (A c) (A d).
Proof.
  intros Hc Hd Hp. eexists _, _. split_and!; [by apply linked_addrOf|done|].
  apply list_elem_of_fmap_2. by apply childrenOf_elem.
Qed.

(** With enough fuel for the thread of a comment, [sortReplies] returns
    from its node. *)
Lemma sortReplies_ok (fuel : nat) :
  ∀ c h, Inv (linked h0 cs) (isNode h0 cs) h → c ∈ cs →
    is_Some (thread fuel cs c) →
    ∃ h', sortReplies fuel (A c) h = Ok () h'.
Proof.
  induction fuel as [|fuel IH]; intros c h Hinv Hc [t Ht]; [done|].
  apply thread_Some in Ht as (fuel' & kids & [= <-] & Hkids & _).
  destruct (Inv_addrOf h c Hinv Hc) as (l & Hh & Hsort).
  destruct (sortStep (linked h0 cs) (isNode h0 cs) h (A c) c l Hinv) as (Hinv1 & _).
  { by apply addrOf_elem. }
  { done. }
  rewrite sortReplies_S, Hh. revert Hinv1. rewrite Hsort.
  generalize (<[A c := mkObj c (Some (A <$> sortBy Comment.createdAt
                 (childrenOf cs (Comment.id c))))]> h).
  assert (∀ d, d ∈ sortBy Comment.createdAt (childrenOf cs (Comment.id c)) →
               d ∈ cs ∧ is_Some (thread fuel cs d)) as Hall.
  { intros d Hd. split; [by apply sorted_children in Hd as [? _]|].
    apply list_elem_of_lookup in Hd as [i Hi].
    destruct (Forall2_lookup_l _ _ _ _ _ Hkids Hi) as (k & _ & Hk). by exists k. }
  clear Hkids Hsort Hh.
  induction (sortBy Comment.createdAt (childrenOf cs (Comment.id c)))
    as [|d ds IHds]; intros g Hg.
  { by exists g. }
  rewrite fmap_cons, forEach_cons.
  destruct (Hall d) as [Hd [k Hk]]; [left|].
  destruct (IH d g Hg Hd) as [g1 Hg1]; [by exists k|].
  pose proof (sortReplies_inv (linked h0 cs) (isNode h0 cs)
                (isNode_closed h0 cs) fuel (A d) g Hg) as (Hinv' & _).
  { by apply addrOf_elem. }
  rewrite Hg1 in Hinv' |- *. simpl in Hinv'.
  apply IHds; [|done]. intros d' Hd'. apply Hall. by right.
Qed.

(** Reading a thread back from a heap in which every node below the
    comment has been sorted. *)
Lemma readTree_thread (fuel : nat) :
  ∀ c t h', c ∈ cs →
    (∀ b, rtc (edge (linked h0 cs)) (A c) b → Done (linked h0 cs) h' b) →
    thread fuel cs c = Some t → readTree fuel h' (A c) = Some t.
Proof.
  induction fuel as [|fuel IH]; intros c t h' Hc Hdone Ht; [done|].
  apply thread_Some in Ht as (fuel' & kids & [= <-] & Hkids & ->).
  cbn [readTree]. rewrite (Done_addrOf h' c Hc) by (by apply Hdone).
  simpl.
  assert (mapM (readTree fuel h')
            (A <$> sortBy Comment.createdAt (childrenOf cs (Comment.id c)))
          = Some kids) as ->; [|done].
  apply mapM_Some_2, Forall2_fmap_l.
  apply Forall2_same_length_lookup. split; [by eapply Forall2_length|].
  intros i d k Hd Hk.
  pose proof (Forall2_lookup_lr _ _ _ _ _ _ Hkids Hd Hk) as Hdk.
  apply list_elem_of_lookup_2, sorted_children in Hd as [Hd Hp].
  apply IH; [done| |done].
  intros b Hb. apply Hdone. eapply rtc_l; [|exact Hb]. by apply edge_addrOf.
Qed.

Lemma forEach_sortReplies_ok (fuel : nat) (ds : list Comment.t) :
  (∀ d, d ∈ ds → d ∈ cs ∧ is_Some (thread fuel cs d)) →
  ∀ g, Inv (linked h0 cs) (isNode h0 cs) g →
    ∃ g', forEach (sortReplies fuel) (A <$> ds) g = Ok () g'.
Proof.
  induction ds as [|d ds IHds]; intros Hall g Hg.
  { by exists g. }
  rewrite fmap_cons, forEach_cons.
  destruct (Hall d) as [Hd Hk]; [left|].
  destruct (sortReplies_ok fuel d g Hg Hd Hk) as [g1 Hg1].
  pose proof (sortReplies_inv (linked h0 cs) (isNode h0 cs)
                (isNode_closed h0 cs) fuel (A d) g Hg) as (Hinv' & _).
  { by apply addrOf_elem. }
  rewrite Hg1 in Hinv' |- *. simpl in Hinv'.
  apply IHds; [|done]. intros d' Hd'. apply Hall. by right.
Qed.

(** The forest that is returned is the list of threads of the root
    comments. *)
Lemma commentForest_threads (fuel : nat) (forest : list CommentWithReplies) :
  threads fuel cs = Some forest → commentForest fuel h0 cs = Some forest.
Proof.
  unfold threads. intros Hth. apply mapM_Some_1 in Hth.
  unfold commentForest. rewrite buildCommentTree_run. cbv zeta. fold m.
  rewrite rootAddrs_addrOf.
  rewrite sortBy_addrOf
    by (intros c Hc; by apply list_elem_of_filter in Hc as [_ ?]).
  set (rs := sortBy Comment.createdAt _) in *.
  assert (∀ r, r ∈ rs → r ∈ cs) as Hsub.
  { intros r Hr. apply elem_of_sortBy in Hr.
    by apply list_elem_of_filter in Hr as [_ ?]. }
  destruct (forEach_sortReplies_ok fuel rs) with (g := linked h0 cs) as [g' Hg'].
  { intros r Hr. split; [by apply Hsub|].
    apply list_elem_of_lookup in Hr as [i Hi].
    destruct (Forall2_lookup_l _ _ _ _ _ Hth Hi) as (k & _ & Hk). by exists k. }
  { apply Inv_refl. }
  destruct (forEach_inv (linked h0 cs) (isNode h0 cs) (sortReplies fuel)
              (sortReplies_inv (linked h0 cs) (isNode h0 cs)
                 (isNode_closed h0 cs) fuel)
              (A <$> rs) (linked h0 cs)) as (_ & _ & Hdone).
  { apply Inv_refl. }
  { intros x Hx. apply list_elem_of_fmap in Hx as (r & -> & Hr).
    by apply addrOf_elem, Hsub. }
  specialize (Hdone g' Hg'). rewrite Hg'.
  apply mapM_Some_2, Forall2_fmap_l.
  apply Forall2_same_length_lookup. split; [by eapply Forall2_length|].
  intros i r k Hr Hk.
  pose proof (Forall2_lookup_lr _ _ _ _ _ _ Hth Hr Hk) as Hrk.
  apply list_elem_of_lookup_2 in Hr.
  apply readTree_thread; [by apply Hsub| |done].
  intros b Hb. apply (Hdone (A r)); [|done]. by apply list_elem_of_fmap_2.
Qed.
End Refine.

(** ** Lists with pairwise distinct ids: chains of parents *)

Lemma isRoot_truthy (c : Comment.t) :
  isRoot c = true ↔ truthy (Comment.parentId c) = None.
Proof. unfold isRoot. by destruct (truthy (Comment.parentId c)). Qed.

Lemma concat_fmap_bind {A B} (f : A → list B) (l : list A) :
  concat (f <$> l) = l ≫= f.
Proof. induction l as [|x l IH]; [done|]. by rewrite fmap_cons, bind_cons, <- IH. Qed.

Lemma elem_of_concat_fmap {A B} (f : A → list B) (l : list A) (y : B) :
  y ∈ concat (f <$> l) ↔ ∃ x, y ∈ f x ∧ x ∈ l.
Proof. rewrite concat_fmap_bind. apply list_elem_of_bind. Qed.

Lemma suffix_same_length {A} (l1 l2 l : list A) :
  l1 `suffix_of` l → l2 `suffix_of` l → length l1 = length l2 → l1 = l2.
Proof.
  intros [k1 ->] [k2 Hk] Hlen.
  assert (length k1 = length k2) as Hk12.
  { apply (f_equal length) in Hk. rewrite !length_app in Hk. lia. }
  by apply app_inj_1 in Hk as [_ ?].
Qed.

Lemma chain_elem (cs l : list Comment.t) (x : Comment.t) :
  chain cs l → x ∈ l → x ∈ cs.
Proof.
  induction 1 as [r Hr _|d c path _ IH Hd _]; intros Hx.
  - by apply list_elem_of_singleton in Hx as ->.
  - apply elem_of_cons in Hx as [->|Hx]; [done|by apply IH].
Qed.

Lemma chain_suffix (cs pre l : list Comment.t) (c : Comment.t) :
  chain cs (pre ++ c :: l) → chain cs (c :: l).
Proof.
  induction pre as [|x pre IH]; [done|]. simpl. intros Hch. apply IH.
  inversion Hch; subst; [by destruct pre|congruence].
Qed.

Section Chains.
Context (cs : list Comment.t).
Context (Hnd : NoDup (Comment.id <$> cs)).

Lemma id_inj_list (c d : Comment.t) :
  c ∈ cs → d ∈ cs → Comment.id c = Comment.id d → c = d.
Proof. apply (id_inj cs Hnd). Qed.

Lemma chain_unique (x : Comment.t) (p1 p2 : list Comment.t) :
  chain cs (x :: p1) → chain cs (x :: p2) → p1 = p2.
Proof.
  revert x p2. induction p1 as [|c p1 IH]; intros x p2 H1 H2.
  - inversion H1 as [r _ Hroot|]; subst. apply isRoot_truthy in Hroot.
    inversion H2 as [|d c' path _ _ Hp]; subst; [done|congruence].
  - inversion H1 as [|d c' path Hc _ Hp]; subst.
    inversion H2 as [r _ Hroot|d c' path Hc' _ Hp']; subst.
    + apply isRoot_truthy in Hroot. congruence.
    + assert (c = c') as <-.
      { apply id_inj_list; [eapply chain_elem; [exact Hc|left]
                           |eapply chain_elem; [exact Hc'|left]
                           |congruence]. }
      f_equal. by eapply IH.
Qed.

Lemma chain_NoDup (l : list Comment.t) : chain cs l → NoDup l.
Proof.
  induction 1 as [r _ _|d c path Hch IH Hd Hp].
  - apply NoDup_singleton.
  - apply NoDup_cons. split; [|done]. intros Hin.
    apply list_elem_of_split in Hin as (l1 & l2 & Heq).
    assert (chain cs (d :: l2)) as Hd2.
    { apply (chain_suffix cs l1). by rewrite <- Heq. }
    assert (chain cs (d :: c :: path)) as Hd1 by (by constructor).
    pose proof (chain_unique d _ _ Hd1 Hd2) as Hu.
    apply (f_equal length) in Heq. rewrite Hu, length_app in Heq.
    simpl in Heq. lia.
Qed.

Lemma chain_length (l : list Comment.t) : chain cs l → (length l ≤ length cs)%nat.
Proof.
  intros Hch. apply submseteq_length, NoDup_submseteq.
  - by apply chain_NoDup.
  - intros x. by apply chain_elem.
Qed.

Lemma chain_child (c d : Comment.t) (path : list Comment.t) :
  chain cs (c :: path) →
  d ∈ sortBy Comment.createdAt (childrenOf cs (Comment.id c)) →
  chain cs (d :: c :: path).
Proof.
  intros Hch Hd. apply sorted_children in Hd as [Hd Hp]. by constructor.
Qed.

(** Fuel beyond the number of comments is never used up. *)
Lemma thread_total (fuel : nat) :
  ∀ c path, chain cs (c :: path) →
    (length cs < fuel + length (c :: path))%nat →
    is_Some (thread fuel cs c).
Proof.
  induction fuel as [|fuel IH]; intros c path Hch Hlen.
  - apply chain_length in Hch. simpl in *. lia.
  - cbn [thread].
    destruct (mapM_is_Some_2 (thread fuel cs)
                (sortBy Comment.createdAt (childrenOf cs (Comment.id c))))
      as [kids Hkids]; [|by rewrite Hkids].
    apply Forall_forall. intros d Hd.
    apply (IH d (c :: path)); [by apply chain_child|]. simpl in *. lia.
Qed.

Lemma roots_chain (r : Comment.t) :
  r ∈ sortBy Comment.createdAt (filter (λ c, isRoot c = true) cs) →
  chain cs [r].
Proof.
  rewrite elem_of_sortBy, list_elem_of_filter. intros [Hroot Hr].
  by constructor.
Qed.

Lemma threads_total (fuel : nat) :
  (length cs < fuel)%nat → is_Some (threads fuel cs).
Proof.
  intros Hlen. unfold threads. apply mapM_is_Some_2, Forall_forall.
  intros r Hr. apply (thread_total fuel r []); [by apply roots_chain|].
  simpl. lia.
Qed.

Lemma thread_root (fuel : nat) (c : Comment.t) (t : CommentWithReplies) :
  thread fuel cs c = Some t → rootOf t = c.
Proof. intros Ht. by apply thread_Some in Ht as (? & ? & _ & _ & ->). Qed.

(** Every comment in the thread below [c] has [c] and the ancestors of
    [c] at the end of its own chain. *)
Lemma thread_flatten_chain (fuel : nat) :
  ∀ c path t x, chain cs (c :: path) → thread fuel cs c = Some t →
    x ∈ flatten t →
    ∃ pre, chain cs (x :: pre) ∧ (c :: path) `suffix_of` (x :: pre).
Proof.
  induction fuel as [|fuel IH]; intros c path t x Hch Ht Hx; [done|].
  apply thread_Some in Ht as (fuel' & kids & [= <-] & Hkids & ->).
  simpl in Hx. apply elem_of_cons in Hx as [->|Hx].
  { by exists path. }
  apply elem_of_concat_fmap in Hx as (k & Hx & Hk).
  apply list_elem_of_lookup in Hk as [i Hi].
  destruct (Forall2_lookup_r _ _ _ _ _ Hkids Hi) as (d & Hd & Hdk).
  apply list_elem_of_lookup_2 in Hd.
  destruct (IH d (c :: path) k x) as (pre & Hpre & Hsuf);
    [by apply chain_child|done|done|].
  exists pre. split; [done|]. etrans; [|exact Hsuf]. by apply suffix_cons_r.
Qed.

(** The threads of distinct comments with the same ancestors share no
    comment. *)
Lemma siblings_disjoint (fuel : nat) (d1 d2 : Comment.t) (path : list Comment.t)
    (k1 k2 : CommentWithReplies) (y : Comment.t) :
  chain cs (d1 :: path) → chain cs (d2 :: path) →
  thread fuel cs d1 = Some k1 → thread fuel cs d2 = Some k2 →
  y ∈ flatten k1 → y ∈ flatten k2 → k1 = k2.
Proof.
  intros Hc1 Hc2 Hk1 Hk2 Hy1 Hy2.
  destruct (thread_flatten_chain fuel d1 path k1 y Hc1 Hk1 Hy1) as (p1 & Hp1 & Hs1).
  destruct (thread_flatten_chain fuel d2 path k2 y Hc2 Hk2 Hy2) as (p2 & Hp2 & Hs2).
  rewrite (chain_unique y p2 p1 Hp2 Hp1) in Hs2.
  assert (d1 :: path = d2 :: path) as [= ->] by (by eapply suffix_same_length).
  congruence.
Qed.

Lemma siblings_NoDup (fuel : nat) (ds path : list Comment.t)
    (kids : list CommentWithReplies) :
  NoDup ds → (∀ d, d ∈ ds → chain cs (d :: path)) →
  Forall2 (λ d k, thread fuel cs d = Some k) ds kids →
  (∀ k, k ∈ kids → NoDup (flatten k)) →
  NoDup (concat (flatten <$> kids)).
Proof.
  intros Hds Hch Hkids Hnd'. rewrite concat_fmap_bind. apply NoDup_bind.
  - intros k1 k2 y Hk1 Hk2 Hy1 Hy2.
    apply list_elem_of_lookup in Hk1 as [i1 Hi1], Hk2 as [i2 Hi2].
    destruct (Forall2_lookup_r _ _ _ _ _ Hkids Hi1) as (d1 & Hd1 & Ht1).
    destruct (Forall2_lookup_r _ _ _ _ _ Hkids Hi2) as (d2 & Hd2 & Ht2).
    apply list_elem_of_lookup_2 in Hd1, Hd2.
    eapply (siblings_disjoint fuel d1 d2 path); eauto.
  - done.
  - apply (NoDup_fmap_1 rootOf).
    replace (rootOf <$> kids) with ds; [done|].
    clear -Hkids. induction Hkids as [|d k ds kids Hdk _ IH]; [done|].
    rewrite fmap_cons, <- IH. f_equal. symmetry. by eapply thread_root.
Qed.

Lemma NoDup_list : NoDup cs.
Proof. by apply (NoDup_fmap_1 Comment.id). Qed.

Lemma thread_NoDup (fuel : nat) :
  ∀ c path t, chain cs (c :: path) → thread fuel cs c = Some t →
    NoDup (flatten t).
Proof.
  induction fuel as [|fuel IH]; intros c path t Hch Ht; [done|].
  pose proof Ht as Ht'.
  apply thread_Some in Ht as (fuel' & kids & [= <-] & Hkids & ->).
  simpl. apply NoDup_cons. split.
  - intros Hc. apply elem_of_concat_fmap in Hc as (k & Hc & Hk).
    apply list_elem_of_lookup in Hk as [i Hi].
    destruct (Forall2_lookup_r _ _ _ _ _ Hkids Hi) as (d & Hd & Hdk).
    apply list_elem_of_lookup_2 in Hd.
    destruct (thread_flatten_chain fuel d (c :: path) k c) as (pre & Hpre & Hsuf);
      [by apply chain_child|done|done|].
    rewrite (chain_unique c pre path Hpre Hch) in Hsuf.
    by apply suffix_cons_not in Hsuf.
  - apply (siblings_NoDup fuel
             (sortBy Comment.createdAt (childrenOf cs (Comment.id c)))
             (c :: path) kids); [| |done|].
    + rewrite (sortBy_perm _ _). apply NoDup_filter, NoDup_list.
    + intros d Hd. by apply chain_child.
    + intros k Hk. apply list_elem_of_lookup in Hk as [i Hi].
      destruct (Forall2_lookup_r _ _ _ _ _ Hkids Hi) as (d & Hd & Hdk).
      apply list_elem_of_lookup_2 in Hd.
      apply (IH d (c :: path)); [by apply chain_child|done].
Qed.

(** No comment occurs twice in the forest. *)
Lemma threads_NoDup (fuel : nat) (forest : list CommentWithReplies) :
  threads fuel cs = Some forest → NoDup (flattenForest forest).
Proof.
  unfold threads, flattenForest. intros Hth. apply mapM_Some_1 in Hth.
  apply (siblings_NoDup fuel
           (sortBy Comment.createdAt (filter (λ c, isRoot c = true) cs))
           [] forest); [| |done|].
  - rewrite (sortBy_perm _ _). apply NoDup_filter, NoDup_list.
  - intros r Hr. by apply roots_chain.
  - intros k Hk. apply list_elem_of_lookup in Hk as [i Hi].
    destruct (Forall2_lookup_r _ _ _ _ _ Hth Hi) as (r & Hr & Hrk).
    apply list_elem_of_lookup_2 in Hr.
    apply (thread_NoDup fuel r []); [by apply roots_chain|done].
Qed.

(** A thread is less deep than it has comments. *)
Lemma thread_depth (fuel : nat) :
  ∀ c t, thread fuel cs c = Some t →
    (getCommentDepth t < length (flatten t))%nat.
Proof.
  induction fuel as [|fuel IH]; intros c t Ht; [done|].
  apply thread_Some in Ht as (fuel' & kids & [= <-] & Hkids & ->).
  assert (Forall (λ k, getCommentDepth k < length (flatten k))%nat kids) as Hall.
  { apply Forall_forall. intros k Hk. apply list_elem_of_lookup in Hk as [i Hi].
    destruct (Forall2_lookup_r _ _ _ _ _ Hkids Hi) as (d & _ & Hdk).
    by apply (IH d). }
  clear Hkids.
  assert (kids = [] ∨
          (foldr Nat.max 0 (getCommentDepth <$> kids)
           < length (concat (flatten <$> kids)))%nat) as [->|Hlt].
  { induction Hall as [|k kids Hk _ IHk]; [by left|right].
    rewrite !fmap_cons. cbn [foldr concat]. rewrite length_app.
    destruct IHk as [->|IHk]; [simpl; lia|lia]. }
  - simpl. lia.
  - destruct kids as [|k kids]; [simpl in Hlt; lia|].
    cbn [getCommentDepth flatten length]. lia.
Qed.

Lemma thread_elem (fuel : nat) (r x : Comment.t) (t : CommentWithReplies) :
  chain cs [r] → thread fuel cs r = Some t → x ∈ flatten t → x ∈ cs.
Proof.
  intros Hr Ht Hx.
  destruct (thread_flatten_chain fuel r [] t x Hr Ht Hx) as (pre & Hpre & _).
  eapply chain_elem; [exact Hpre|left].
Qed.

(** No thread of the forest is as deep as there are comments. *)
Lemma threads_depth (fuel : nat) (forest : list CommentWithReplies)
    (t : CommentWithReplies) :
  threads fuel cs = Some forest → t ∈ forest →
  (getCommentDepth t < length cs)%nat.
Proof.
  unfold threads. intros Hth Ht. apply mapM_Some_1 in Hth.
  apply list_elem_of_lookup in Ht as [i Hi].
  destruct (Forall2_lookup_r _ _ _ _ _ Hth Hi) as (r & Hr & Hrt).
  apply list_elem_of_lookup_2, roots_chain in Hr.
  eapply Nat.lt_le_trans; [by eapply thread_depth|].
  apply submseteq_length, NoDup_submseteq.
  - by eapply thread_NoDup.
  - intros x Hx. by eapply thread_elem.
Qed.

(** The comments of the forest are the rooted ones. *)
Lemma threads_rooted (fuel : nat) (forest : list CommentWithReplies) (x : Comment.t) :
  threads fuel cs = Some forest → x ∈ flattenForest forest → rooted cs x.
Proof.
  unfold threads, flattenForest. intros Hth Hx. apply mapM_Some_1 in Hth.
  apply elem_of_concat_fmap in Hx as (k & Hx & Hk).
  apply list_elem_of_lookup in Hk as [i Hi].
  destruct (Forall2_lookup_r _ _ _ _ _ Hth Hi) as (r & Hr & Hrk).
  apply list_elem_of_lookup_2 in Hr.
  destruct (thread_flatten_chain fuel r [] k x) as (pre & Hpre & _);
    [by apply roots_chain|done|done|].
  by exists pre.
Qed.

Lemma thread_complete (fuel : nat) :
  ∀ c t x d, thread fuel cs c = Some t → x ∈ flatten t →
    d ∈ cs → truthy (Comment.parentId d) = Some (Comment.id x) →
    d ∈ flatten t.
Proof.
  induction fuel as [|fuel IH]; intros c t x d Ht Hx Hd Hp; [done|].
  apply thread_Some in Ht as (fuel' & kids & [= <-] & Hkids & ->).
  simpl in *. right. apply elem_of_concat_fmap.
  apply elem_of_cons in Hx as [->|Hx].
  - assert (d ∈ sortBy Comment.createdAt (childrenOf cs (Comment.id c))) as Hin
      by (by apply sorted_children).
    apply list_elem_of_lookup in Hin as [i Hi].
    destruct (Forall2_lookup_l _ _ _ _ _ Hkids Hi) as (k & Hk & Hdk).
    exists k. split; [|by eapply list_elem_of_lookup_2].
    apply thread_Some in Hdk as (? & ? & _ & _ & ->). left.
  - apply elem_of_concat_fmap in Hx as (k & Hx & Hk).
    exists k. split; [|done].
    apply list_elem_of_lookup in Hk as [i Hi].
    destruct (Forall2_lookup_r _ _ _ _ _ Hkids Hi) as (c' & _ & Hck).
    by apply (IH c' k x d).
Qed.

Lemma rooted_threads (fuel : nat) (forest : list CommentWithReplies) (x : Comment.t) :
  threads fuel cs = Some forest → rooted cs x → x ∈ flattenForest forest.
Proof.
  unfold threads, flattenForest. intros Hth [path Hch]. apply mapM_Some_1 in Hth.
  remember (x :: path) as l eqn:Hl. revert x path Hl.
  induction Hch as [r Hr Hroot|d c path' Hch IH Hd Hp]; intros x path [= <- <-].
  - assert (r ∈ sortBy Comment.createdAt (filter (λ c, isRoot c = true) cs)) as Hin.
    { apply elem_of_sortBy, list_elem_of_filter. by split. }
    apply list_elem_of_lookup in Hin as [i Hi].
    destruct (Forall2_lookup_l _ _ _ _ _ Hth Hi) as (k & Hk & Hrk).
    apply elem_of_concat_fmap. exists k. split; [|by eapply list_elem_of_lookup_2].
    apply thread_Some in Hrk as (? & ? & _ & _ & ->). left.
  - specialize (IH c path' eq_refl).
    apply elem_of_concat_fmap in IH as (k & Hc & Hk).
    apply elem_of_concat_fmap. exists k. split; [|done].
    apply list_elem_of_lookup in Hk as [i Hi].
    destruct (Forall2_lookup_r _ _ _ _ _ Hth Hi) as (r & _ & Hrk).
    by apply (thread_complete fuel r k c d).
Qed.

(** A rooted comment is not among its own ancestors. *)
Lemma rooted_acyclic (x : Comment.t) : rooted cs x → ¬ tc (replyTo cs) x x.
Proof.
  intros [path Hch] Hcyc.
  assert (∀ a b, tc (replyTo cs) a b → ∀ p, chain cs (a :: p) → b ∈ p) as Hanc.
  { induction 1 as [a b (Ha & Hb & Hp)|a b c (Ha & Hb & Hp) _ IH]; intros p Hp'.
    - inversion Hp' as [r _ Hroot|d c' p' Hc' _ Hp'']; subst.
      + apply isRoot_truthy in Hroot. congruence.
      + assert (b = c') as ->; [|left].
        apply id_inj_list; [done|eapply chain_elem; [exact Hc'|left]|congruence].
    - inversion Hp' as [r _ Hroot|d c' p' Hc' _ Hp'']; subst.
      + apply isRoot_truthy in Hroot. congruence.
      + assert (b = c') as ->.
        { apply id_inj_list; [done|eapply chain_elem; [exact Hc'|left]|congruence]. }
        right. by apply IH. }
  specialize (Hanc x x Hcyc path Hch).
  apply chain_NoDup, NoDup_cons in Hch as [Hnin _]. done.
Qed.
End Chains.

(** ** Order of the input *)

Lemma thread_perm (fuel : nat) (cs cs' : list Comment.t) :
  cs ≡ₚ cs' → (∀ s, NoDup (Comment.createdAt <$> childrenOf cs s)) →
  ∀ c, thread fuel cs' c = thread fuel cs c.
Proof.
  intros Hp Hties. induction fuel as [|fuel IH]; intros c; [done|].
  cbn [thread].
  rewrite <- (sortBy_perm_eq Comment.createdAt (childrenOf cs (Comment.id c))
                (childrenOf cs' (Comment.id c))).
  - by rewrite (mapM_ext _ _ _ IH).
  - unfold childrenOf. by rewrite Hp.
  - apply Hties.
Qed.

Lemma threads_perm (fuel : nat) (cs cs' : list Comment.t) :
  cs ≡ₚ cs' → tieFree cs → threads fuel cs' = threads fuel cs.
Proof.
  intros Hp [Hroots Hkids]. unfold threads.
  rewrite <- (sortBy_perm_eq Comment.createdAt
                (filter (λ c, isRoot c = true) cs)
                (filter (λ c, isRoot c = true) cs')).
  - apply mapM_ext. by apply thread_perm.
  - by rewrite Hp.
  - done.
Qed.

(** ** The claims about [buildCommentTree] *)

(** With pairwise distinct ids and fuel beyond the number of comments the
    call returns, and its forest is the list of threads of the roots. *)
Lemma commentForest_total (fuel : nat) (h0 : Heap) (cs : list Comment.t) :
  NoDup (Comment.id <$> cs) → (length cs < fuel)%nat →
  ∃ forest, threads fuel cs = Some forest ∧
            commentForest fuel h0 cs = Some forest.
Proof.
  intros Hnd Hlen. destruct (threads_total cs Hnd fuel Hlen) as [forest Hf].
  exists forest. split; [done|]. by apply commentForest_threads.
Qed.

(** C1, as the code has it: a comment whose [parentId] is set but names
    no comment of the input is left out of the forest, it is neither a root
    nor a reply, and the call returns normally. *)
Theorem dangling_parent_dropped (fuel : nat) (h0 : Heap) (cs : list Comment.t)
    (c : Comment.t) (p : string) :
  NoDup (Comment.id <$> cs) → (length cs < fuel)%nat →
  c ∈ cs → truthy (Comment.parentId c) = Some p → p ∉ Comment.id <$> cs →
  ∃ forest, commentForest fuel h0 cs = Some forest ∧
            c ∉ flattenForest forest.
Proof.
  intros Hnd Hlen Hc Hp Hnone.
  destruct (commentForest_total fuel h0 cs Hnd Hlen) as (forest & Hth & Hf).
  exists forest. split; [done|]. intros Hin.
  apply (threads_rooted cs fuel forest c Hth) in Hin as [path Hch].
  inversion Hch as [r _ Hroot|d c' path' Hch' _ Hp']; subst.
  - apply isRoot_truthy in Hroot. congruence.
  - apply Hnone. rewrite Hp in Hp'. injection Hp' as ->.
    apply list_elem_of_fmap_2. eapply chain_elem; [exact Hch'|left].
Qed.

Lemma dangling_parent_dropped_witness :
  ∃ forest,
    commentForest 3 [] [reply "a" None 1; reply "b" (Some "gone") 2] = Some forest ∧
    reply "b" (Some "gone") 2 ∉ flattenForest forest.
Proof.
  apply (dangling_parent_dropped 3 [] _ _ "gone").
  - apply (bool_decide_unpack _). by vm_compute.
  - simpl. lia.
  - right. left.
  - reflexivity.
  - apply (bool_decide_unpack _). by vm_compute.
Defined.

(** C1 fails on the code: the only comment of the input names a parent
    that is not there, and the forest that comes back is empty. *)
Lemma dangling_parent_not_root :
  Comment.parentId (reply "b" (Some "gone") 2) = Some "gone"%string ∧
  threadComments [reply "b" (Some "gone") 2] = Some [].
Proof. split; reflexivity. Qed.

(** C2, as the code has it: for pairwise distinct ids the call returns a
    finite forest in which no comment occurs twice and no thread is as deep
    as there are comments; the comments in it are those whose chain of
    parents ends at a root comment; a comment that is among its own
    ancestors (its own parent, or on a longer cycle) is not in it. *)
Theorem forest_no_duplicates (fuel : nat) (h0 : Heap) (cs : list Comment.t) :
  NoDup (Comment.id <$> cs) → (length cs < fuel)%nat →
  ∃ forest,
    commentForest fuel h0 cs = Some forest ∧
    NoDup (flattenForest forest) ∧
    (∀ t, t ∈ forest → (getCommentDepth t < length cs)%nat) ∧
    (∀ c, c ∈ flattenForest forest ↔ rooted cs c) ∧
    (∀ c, tc (replyTo cs) c c → c ∉ flattenForest forest).
Proof.
  intros Hnd Hlen.
  destruct (commentForest_total fuel h0 cs Hnd Hlen) as (forest & Hth & Hf).
  exists forest. split_and!; [done|by eapply threads_NoDup| | |].
  - intros t Ht. by eapply threads_depth.
  - intros c. split; [by eapply threads_rooted|by eapply rooted_threads].
  - intros c Hcyc Hin. eapply rooted_acyclic; [done| |exact Hcyc].
    by eapply threads_rooted.
Qed.

Lemma forest_no_duplicates_witness :
  ∃ forest,
    commentForest 6 [] sampleThread = Some forest ∧
    NoDup (flattenForest forest).
Proof.
  destruct (forest_no_duplicates 6 [] sampleThread) as (forest & Hf & Hnd & _).
  - apply (bool_decide_unpack _). by vm_compute.
  - simpl. lia.
  - by exists forest.
Defined.

(** C2 fails on the code: a comment that is its own parent, and two
    comments that are each other's parent, are in no position of the
    forest. *)
Lemma cyclic_comments_missing :
  threadComments [reply "a" (Some "a") 1] = Some [] ∧
  threadComments [reply "a" (Some "b") 1; reply "b" (Some "a") 2] = Some [].
Proof. split; reflexivity. Qed.

(** C3, as the code has it: for pairwise distinct ids, and as long as no
    two roots and no two replies to the same comment share their
    [createdAt], every permutation of the input gives the same forest. *)
Theorem forest_order_independent (fuel : nat) (h0 h0' : Heap)
    (cs cs' : list Comment.t) :
  NoDup (Comment.id <$> cs) → tieFree cs → cs ≡ₚ cs' →
  (length cs < fuel)%nat →
  ∃ forest, commentForest fuel h0 cs = Some forest ∧
            commentForest fuel h0' cs' = Some forest.
Proof.
  intros Hnd Hties Hp Hlen.
  destruct (commentForest_total fuel h0 cs Hnd Hlen) as (forest & Hth & Hf).
  exists forest. split; [done|]. apply commentForest_threads.
  - by rewrite <- Hp.
  - by rewrite (threads_perm fuel cs cs' Hp Hties).
Qed.

Lemma forest_order_independent_witness :
  ∃ forest,
    commentForest 6 [] sampleThread = Some forest ∧
    commentForest 6 [] (reverse sampleThread) = Some forest.
Proof.
  apply forest_order_independent.
  - apply (bool_decide_unpack _). by vm_compute.
  - split; [apply (bool_decide_unpack _); by vm_compute|].
    intros s. unfold childrenOf, sampleThread.
    rewrite !filter_cons, filter_nil. simpl.
    repeat case_decide; apply (bool_decide_unpack _); by vm_compute.
  - symmetry. apply reverse_Permutation.
  - simpl. lia.
Defined.

(** C3 fails on the code: two roots created at the same instant come back
    in the order of the input. *)
Lemma forest_depends_on_order :
  let a := reply "a" None 7 in
  let b := reply "b" None 7 in
  [a; b] ≡ₚ [b; a] ∧
  threadComments [a; b] = Some [Node a []; Node b []] ∧
  threadComments [b; a] = Some [Node b []; Node a []].
Proof. split; [apply perm_swap|]. split; reflexivity. Qed.

(** C9: in the forest that is returned the roots are in ascending
    [createdAt] order and so are the replies of every node, at every depth;
    and for pairwise distinct ids a forest is returned. *)
Theorem forest_sorted (fuel : nat) (h0 : Heap) (cs : list Comment.t) :
  (∀ forest, commentForest fuel h0 cs = Some forest →
     ascending Comment.createdAt (rootOf <$> forest) ∧
     Forall wellSorted forest) ∧
  (NoDup (Comment.id <$> cs) → (length cs < fuel)%nat →
     is_Some (commentForest fuel h0 cs)).
Proof.
  split.
  - unfold commentForest. intros forest.
    destruct (buildCommentTree fuel cs h0) as [roots h'|] eqn:Hrun; [|done].
    intros Hf. apply mapM_Some_1 in Hf.
    destruct (buildCommentTree_sorted fuel cs h0 roots h' Hrun) as [Hroots Hreach].
    assert (Forall2 (λ r t, wellSorted t ∧
                            keyAt h' r = Comment.createdAt (rootOf t))
                    roots forest) as Hall.
    { apply Forall2_same_length_lookup. split; [by eapply Forall2_length|].
      intros i r t Hr Ht.
      pose proof (Forall2_lookup_lr _ _ _ _ _ _ Hf Hr Ht) as Hrt.
      apply (readTree_sorted h' (λ b, ∃ r, r ∈ roots ∧ rtc (edge h') r b) Hreach)
        in Hrt as [? ?]; [done|].
      exists r. split; [by eapply list_elem_of_lookup_2|done]. }
    split.
    + apply ascending_fmap. eapply ascending_Forall2; [|exact Hroots].
      eapply Forall2_impl; [exact Hall|]. by intros r t [_ ?].
    + apply Forall2_Forall_r with (P := λ _ t, wellSorted t) (l := roots);
        [|by apply Forall_true].
      eapply Forall2_impl; [exact Hall|]. simpl. by intros r t [? _].
  - intros Hnd Hlen.
    destruct (commentForest_total fuel h0 cs Hnd Hlen) as (forest & _ & Hf).
    by exists forest.
Qed.

Lemma forest_sorted_witness :
  ∃ forest,
    commentForest 6 [] sampleThread = Some forest ∧
    ascending Comment.createdAt (rootOf <$> forest) ∧
    Forall wellSorted forest.
Proof.
  destruct (forest_sorted 6 [] sampleThread) as [Hsorted Htotal].
  destruct Htotal as [forest Hf].
  - apply (bool_decide_unpack _). by vm_compute.
  - simpl. lia.
  - exists forest. split; [done|]. by apply Hsorted.
Defined.

(** C10: whatever a call of [buildCommentTree] does, returning or
    throwing, every object that existed before the call (the input comments
    among them) is afterwards what it was; the nodes of the forest are new
    objects that carry the fields of input comments.  The input array is
    only iterated: it is the argument [cs], which no step can change. *)
Theorem buildCommentTree_frame (fuel : nat) (cs : list Comment.t) (h0 : Heap) :
  take (length h0) (heapOf (buildCommentTree fuel cs h0)) = h0 ∧
  (∀ a o, h0 !! a = Some o →
          heapOf (buildCommentTree fuel cs h0) !! a = Some o) ∧
  (∀ roots h', buildCommentTree fuel cs h0 = Ok roots h' →
     ∀ r b, r ∈ roots → rtc (edge h') r b →
       (length h0 ≤ b)%nat ∧
       ∃ c o, c ∈ cs ∧ h' !! b = Some o ∧ fields o = c).
Proof.
  destruct (buildCommentTree_inv h0 cs fuel) as [Hinv Hok].
  assert (∀ a, (a < length h0)%nat →
               heapOf (buildCommentTree fuel cs h0) !! a = h0 !! a) as Hold.
  { intros a Ha.
    destruct (Hinv a) as [->|[[? ?] _]]; [by apply linked_old|lia]. }
  split_and!.
  - apply list_eq. intros a.
    destruct (decide (a < length h0)%nat) as [Ha|Ha].
    + rewrite lookup_take_lt by done. by apply Hold.
    + rewrite lookup_take_ge by lia. symmetry. apply lookup_ge_None. lia.
  - intros a o Ha. rewrite Hold; [done|]. by eapply lookup_lt_Some.
  - intros roots h' Hrun r b Hr Hrb. rewrite Hrun in Hinv. simpl in Hinv.
    destruct (Hok roots h' Hrun) as [_ Hdone].
    apply (rtc_edge_Inv _ _ _ _ _ Hinv) in Hrb.
    destruct (Hdone r b Hr Hrb) as [Hnode _].
    split; [by destruct Hnode|].
    destruct (isNode_lookup h0 cs b Hnode) as (c & Hc & Hb).
    pose proof (Inv_fields _ _ h' b Hinv) as Hfields. rewrite Hb in Hfields.
    destruct (h' !! b) as [o|]; [|done]. simpl in Hfields.
    exists c, o. split_and!; [by eapply list_elem_of_lookup_2|done|congruence].
Qed.

(** The input comments as objects of the caller's heap: the first of
    them after the call. *)
Lemma buildCommentTree_frame_witness :
  let h0 := (λ c, mkObj c None) <$> sampleThread in
  heapOf (buildCommentTree 6 sampleThread h0) !! 0%nat
  = Some (mkObj (reply "a" None 30) None).
Proof.
  intros h0.
  destruct (buildCommentTree_frame 6 sampleThread h0) as (_ & H & _).
  by apply H.
Defined.

(** Why the ids have to be distinct: with [twins] the node registered
    under the shared id is a root and its own reply, and [sortReplies] runs
    out of stack whatever its size. *)
Lemma duplicate_ids_diverge (fuel : nat) :
  ∃ h, buildCommentTree fuel twins [] = Throw RangeError h.
Proof.
  set (h := [mkObj (reply "a" None 1) (Some []);
             mkObj (reply "a" (Some "a") 2) (Some [1%nat])]).
  assert (∀ n, sortReplies n 1%nat h = Throw RangeError h) as Hloop.
  { induction n as [|n IH]; [done|].
    change (sortReplies (S n) 1%nat h)
      with (forEach (sortReplies n) [1%nat] h).
    by rewrite forEach_cons, IH. }
  exists h. rewrite buildCommentTree_run. cbv zeta.
  change (linked [] twins) with h.
  change (sortBy (keyAt h) (rootAddrs (initMap (length []) twins ∅) twins))
    with [1%nat].
  rewrite forEach_cons. by rewrite Hloop.
Qed.

(** * Further properties of the code *)

(** ** Trees of comments *)

Lemma flatten_subtrees (t : CommentWithReplies) :
  flatten t = rootOf <$> subtrees t.
Proof.
  induction t as [c kids IH] using CommentWithReplies_rect'. simpl. f_equal.
  induction IH as [|k kids Hk _ IHk]; [done|].
  rewrite !fmap_cons. simpl. by rewrite fmap_app, Hk, IHk.
Qed.

Lemma foldl_count (kids : list CommentWithReplies) (n : nat) :
  foldl (λ count reply, count + 1 + getTotalReplyCount reply)%nat n kids
  = (n + foldr (λ reply count, 1 + getTotalReplyCount reply + count) 0 kids)%nat.
Proof.
  revert n. induction kids as [|k kids IH]; intros n; cbn [foldl foldr]; [lia|].
  rewrite IH. lia.
Qed.

(** X1: [getTotalReplyCount] counts every comment below the given one, at
    whatever depth, exactly once: with the comment itself that is the size
    of its thread. *)
Theorem getTotalReplyCount_size (t : CommentWithReplies) :
  (getTotalReplyCount t + 1)%nat = length (flatten t).
Proof.
  induction t as [c kids IH] using CommentWithReplies_rect'.
  cbn [getTotalReplyCount flatten length]. rewrite foldl_count.
  enough (foldr (λ reply count, 1 + getTotalReplyCount reply + count) 0 kids
          = length (concat (flatten <$> kids)))%nat by lia.
  induction IH as [|k kids Hk _ IHk]; [done|].
  rewrite fmap_cons. cbn [foldr concat]. rewrite length_app. lia.
Qed.

(** X2: a comment without replies has depth 0, any other comment has a
    positive depth, and the depth never exceeds the number of replies
    below the comment. *)
Theorem getCommentDepth_bounds (t : CommentWithReplies) :
  (getCommentDepth t = 0%nat ↔ repliesOf t = []) ∧
  (getCommentDepth t ≤ getTotalReplyCount t)%nat.
Proof.
  split.
  - destruct t as [c [|k kids]]; simpl; [done|]. split; [lia|done].
  - induction t as [c kids IH] using CommentWithReplies_rect'.
    cbn [getTotalReplyCount]. rewrite foldl_count.
    assert (kids = [] ∨
            (foldr Nat.max 0 (getCommentDepth <$> kids)
             < foldr (λ reply count, 1 + getTotalReplyCount reply + count) 0 kids)%nat)
      as [->|Hlt].
    { induction IH as [|k kids Hk _ IHk]; [by left|right].
      rewrite fmap_cons. cbn [foldr].
      destruct IHk as [->|IHk]; [simpl; lia|lia]. }
    + simpl. lia.
    + destruct kids as [|k kids]; [simpl in Hlt; lia|].
      cbn [getCommentDepth]. lia.
Qed.

Lemma firstWith_cons {A} (P : A → Prop) `{∀ x, Decision (P x)} (x : A) (l : list A) :
  firstWith P (x :: l) = if decide (P x) then Some x else firstWith P l.
Proof.
  unfold firstWith. cbn [list_find]. destruct (decide (P x)); [done|].
  by destruct (list_find P l) as [[i y]|].
Qed.

Lemma firstWith_app {A} (P : A → Prop) `{∀ x, Decision (P x)} (l1 l2 : list A) :
  firstWith P (l1 ++ l2)
  = match firstWith P l1 with Some x => Some x | None => firstWith P l2 end.
Proof.
  induction l1 as [|x l1 IH]; [done|].
  rewrite <- app_comm_cons, !firstWith_cons. by destruct (decide (P x)).
Qed.

Lemma firstWith_None {A} (P : A → Prop) `{∀ x, Decision (P x)} (l : list A) :
  firstWith P l = None ↔ ∀ x, x ∈ l → ¬ P x.
Proof.
  unfold firstWith. rewrite fmap_None, list_find_None, Forall_forall. done.
Qed.

Lemma firstWith_Some {A} (P : A → Prop) `{∀ x, Decision (P x)} (l : list A) (x : A) :
  firstWith P l = Some x → x ∈ l ∧ P x.
Proof.
  unfold firstWith. intros Hf. apply fmap_Some in Hf as ([i y] & Hf & ->).
  apply list_find_Some in Hf as (Hi & HP & _). split; [|done].
  by eapply list_elem_of_lookup_2.
Qed.

Lemma firstSome_concat {A B} (P : B → Prop) `{∀ x, Decision (P x)}
    (f : A → option B) (g : A → list B) (l : list A) :
  Forall (λ x, f x = firstWith P (g x)) l →
  firstSome f l = firstWith P (concat (g <$> l)).
Proof.
  induction 1 as [|x l Hx _ IH]; [done|].
  rewrite fmap_cons. cbn [firstSome concat]. rewrite firstWith_app, <- Hx, IH.
  done.
Qed.

Lemma findInComment_first (s : string) (t : CommentWithReplies) :
  findInComment s t = firstWith (λ n, Comment.id (rootOf n) = s) (subtrees t).
Proof.
  induction t as [c kids IH] using CommentWithReplies_rect'.
  cbn [findInComment subtrees]. rewrite firstWith_cons. simpl.
  destruct (decide (Comment.id c = s)); [done|].
  by apply firstSome_concat.
Qed.

Lemma forestNodes_roots (forest : list CommentWithReplies) :
  rootOf <$> forestNodes forest = flattenForest forest.
Proof.
  unfold forestNodes, flattenForest.
  induction forest as [|t forest IH]; [done|].
  rewrite !fmap_cons. cbn [concat]. by rewrite fmap_app, IH, flatten_subtrees.
Qed.

Lemma findCommentInTree_firstWith (forest : list CommentWithReplies) (s : string) :
  findCommentInTree forest s
  = firstWith (λ n, Comment.id (rootOf n) = s) (forestNodes forest).
Proof.
  unfold findCommentInTree, forestNodes. apply firstSome_concat.
  apply Forall_true. intros t. apply findInComment_first.
Qed.

Lemma findCommentInTree_None (forest : list CommentWithReplies) (s : string) :
  findCommentInTree forest s = None ↔ s ∉ Comment.id <$> flattenForest forest.
Proof.
  rewrite findCommentInTree_firstWith, firstWith_None, <- forestNodes_roots. split.
  - intros Hno Hin. apply list_elem_of_fmap in Hin as (c & -> & Hc).
    apply list_elem_of_fmap in Hc as (n & -> & Hn). by apply (Hno n).
  - intros Hno n Hn Hid. apply Hno. rewrite <- Hid.
    by apply list_elem_of_fmap_2, list_elem_of_fmap_2.
Qed.

(** X3: [findCommentInTree] returns the first node, in depth-first order,
    that carries the id asked for; it returns [null] exactly when no
    comment of the forest has that id. *)
Theorem findCommentInTree_first (forest : list CommentWithReplies) (s : string) :
  findCommentInTree forest s
    = firstWith (λ n, Comment.id (rootOf n) = s) (forestNodes forest) ∧
  (findCommentInTree forest s = None ↔
   s ∉ Comment.id <$> flattenForest forest).
Proof.
  split; [apply findCommentInTree_firstWith|apply findCommentInTree_None].
Qed.

Lemma thread_roots (fuel : nat) (cs ds : list Comment.t)
    (kids : list CommentWithReplies) :
  Forall2 (λ d k, thread fuel cs d = Some k) ds kids → rootOf <$> kids = ds.
Proof.
  induction 1 as [|d k ds kids Hdk _ IH]; [done|].
  rewrite fmap_cons, IH. f_equal. by eapply thread_root.
Qed.

(** Every node of a thread holds the replies to its comment, in order. *)
Lemma thread_nodes (cs : list Comment.t) (fuel : nat) :
  ∀ c t n, thread fuel cs c = Some t → n ∈ subtrees t →
    rootOf <$> repliesOf n
    = sortBy Comment.createdAt (childrenOf cs (Comment.id (rootOf n))).
Proof.
  induction fuel as [|fuel IH]; intros c t n Ht Hn; [done|].
  apply thread_Some in Ht as (fuel' & kids & [= <-] & Hkids & ->).
  cbn [subtrees] in Hn. apply elem_of_cons in Hn as [->|Hn].
  - simpl. by eapply thread_roots.
  - apply elem_of_concat_fmap in Hn as (k & Hn & Hk).
    apply list_elem_of_lookup in Hk as [i Hi].
    destruct (Forall2_lookup_r _ _ _ _ _ Hkids Hi) as (d & _ & Hdk).
    by apply (IH d k).
Qed.

Lemma threads_nodes (cs : list Comment.t) (fuel : nat)
    (forest : list CommentWithReplies) (n : CommentWithReplies) :
  threads fuel cs = Some forest → n ∈ forestNodes forest →
  rootOf <$> repliesOf n
  = sortBy Comment.createdAt (childrenOf cs (Comment.id (rootOf n))).
Proof.
  unfold threads, forestNodes. intros Hth Hn. apply mapM_Some_1 in Hth.
  apply elem_of_concat_fmap in Hn as (t & Hn & Ht).
  apply list_elem_of_lookup in Ht as [i Hi].
  destruct (Forall2_lookup_r _ _ _ _ _ Hth Hi) as (r & _ & Hrt).
  by apply (thread_nodes cs fuel r t).
Qed.

Lemma rooted_elem (cs : list Comment.t) (c : Comment.t) : rooted cs c → c ∈ cs.
Proof. intros [path Hch]. eapply chain_elem; [exact Hch|left]. Qed.

Lemma findCommentInTree_threads (fuel : nat) (cs : list Comment.t)
    (forest : list CommentWithReplies) (c : Comment.t) :
  NoDup (Comment.id <$> cs) → threads fuel cs = Some forest → c ∈ cs →
  (rooted cs c →
     ∃ n, findCommentInTree forest (Comment.id c) = Some n ∧
          rootOf n = c ∧
          rootOf <$> repliesOf n
          = sortBy Comment.createdAt (childrenOf cs (Comment.id c))) ∧
  (¬ rooted cs c → findCommentInTree forest (Comment.id c) = None).
Proof.
  intros Hnd Hth Hc.
  pose proof (findCommentInTree_firstWith forest (Comment.id c)) as Hfirst.
  pose proof (findCommentInTree_None forest (Comment.id c)) as Hnone.
  assert (∀ n, findCommentInTree forest (Comment.id c) = Some n →
               n ∈ forestNodes forest ∧ rootOf n = c ∧ rooted cs c) as Hfound.
  { intros n Hn. rewrite Hfirst in Hn. apply firstWith_Some in Hn as [Hn Hid].
    assert (rooted cs (rootOf n)) as Hr.
    { apply (threads_rooted cs fuel forest); [done|].
      rewrite <- forestNodes_roots. by apply list_elem_of_fmap_2. }
    assert (rootOf n = c) as Heq.
    { apply (id_inj cs Hnd); [by apply rooted_elem|done|done]. }
    split_and!; [done|done|by rewrite <- Heq]. }
  split.
  - intros Hr.
    destruct (findCommentInTree forest (Comment.id c)) as [n|] eqn:Hn.
    + destruct (Hfound n eq_refl) as (Hin & Heq & _).
      exists n. split_and!; [done|done|].
      rewrite <- Heq. by eapply threads_nodes.
    + exfalso. apply Hnone; [done|]. apply list_elem_of_fmap_2.
      by apply (rooted_threads cs fuel forest).
  - intros Hnr.
    destruct (findCommentInTree forest (Comment.id c)) as [n|] eqn:Hn; [|done].
    by destruct (Hfound n eq_refl) as (_ & _ & ?).
Qed.

(** X4: in the forest built from comments with pairwise distinct ids,
    looking a comment up by its id gives the node of that very comment,
    with the replies to it in ascending [createdAt] order, provided the
    chain of parents of the comment ends at a root comment; for any other
    comment of the input the lookup gives [null]. *)
Theorem findCommentInTree_built (fuel : nat) (h0 : Heap) (cs : list Comment.t) :
  NoDup (Comment.id <$> cs) → (length cs < fuel)%nat →
  ∃ forest,
    commentForest fuel h0 cs = Some forest ∧
    ∀ c, c ∈ cs →
      (rooted cs c →
         ∃ n, findCommentInTree forest (Comment.id c) = Some n ∧
              rootOf n = c ∧
              rootOf <$> repliesOf n
              = sortBy Comment.createdAt (childrenOf cs (Comment.id c))) ∧
      (¬ rooted cs c → findCommentInTree forest (Comment.id c) = None).
Proof.
  intros Hnd Hlen.
  destruct (commentForest_total fuel h0 cs Hnd Hlen) as (forest & Hth & Hf).
  exists forest. split; [done|]. intros c Hc.
  by apply (findCommentInTree_threads fuel).
Qed.

Lemma findCommentInTree_built_witness :
  ∃ forest,
    commentForest 6 [] sampleThread = Some forest ∧
    ∃ n, findCommentInTree forest "a" = Some n ∧
         rootOf n = reply "a" None 30 ∧
         rootOf <$> repliesOf n = [reply "c" (Some "a") 10; reply "b" (Some "a") 20].
Proof.
  destruct (findCommentInTree_built 6 [] sampleThread) as (forest & Hf & Hall).
  - apply (bool_decide_unpack _). by vm_compute.
  - simpl. lia.
  - exists forest. split; [done|].
    destruct (Hall (reply "a" None 30)) as [Hr _]; [left|].
    apply Hr. exists []. constructor; [left|done].
Defined.

(** ** Sorting and filtering *)

Section SortFilter.
Context {A : Type} (key : A → Z) (P : A → Prop) `{∀ x, Decision (P x)}.

Lemma insertBy_head (x : A) (l : list A) :
  Forall (λ z, key x ≤ key z) l → insertBy key x l = x :: l.
Proof.
  destruct l as [|y l]; [done|]. intros [Hy _]%Forall_cons. simpl.
  case_bool_decide; [lia|done].
Qed.

Lemma filter_insertBy (x : A) (l : list A) :
  ascending key l →
  filter P (insertBy key x l)
  = if decide (P x) then insertBy key x (filter P l) else filter P l.
Proof.
  unfold ascending. induction 1 as [|y l Hl IH Hy].
  - simpl. rewrite filter_cons, filter_nil. by destruct (decide (P x)).
  - cbn [insertBy]. case_bool_decide as Hlt.
    + rewrite !filter_cons, IH.
      destruct (decide (P y)), (decide (P x)); try done.
      cbn [insertBy]. by rewrite bool_decide_true.
    + rewrite (filter_cons _ x). destruct (decide (P x)); [|done].
      symmetry. apply insertBy_head. rewrite Forall_forall. intros z Hz.
      apply list_elem_of_filter in Hz as [_ Hz].
      apply elem_of_cons in Hz as [->|Hz]; [lia|].
      rewrite Forall_forall in Hy. specialize (Hy z Hz). simpl in Hy. lia.
Qed.

(** Filtering a sorted list gives the sorted filtered list. *)
Lemma filter_sortBy (l : list A) :
  filter P (sortBy key l) = sortBy key (filter P l).
Proof.
  induction l as [|x l IH]; [done|].
  rewrite sortBy_cons, filter_insertBy by apply sortBy_ascending.
  rewrite filter_cons. destruct (decide (P x)); [|done].
  by rewrite sortBy_cons, IH.
Qed.
End SortFilter.

Lemma filter_fmap {A B} (f : A → B) (P : B → Prop) `{∀ x, Decision (P x)}
    (l : list A) :
  filter P (f <$> l) = f <$> filter (λ x, P (f x)) l.
Proof.
  induction l as [|x l IH]; [done|].
  rewrite fmap_cons, !filter_cons, IH. by destruct (decide (P (f x))).
Qed.

(** ** The comment sidebar *)

Lemma threads_roots (fuel : nat) (cs : list Comment.t)
    (forest : list CommentWithReplies) :
  threads fuel cs = Some forest →
  rootOf <$> forest = sortBy Comment.createdAt (filter (λ c, isRoot c = true) cs).
Proof.
  unfold threads. intros Hth. apply mapM_Some_1 in Hth.
  by eapply thread_roots.
Qed.

Lemma positionedRoots_rootComments (fuel : nat) (cs : list Comment.t)
    (forest : list CommentWithReplies) :
  threads fuel cs = Some forest →
  rootOf <$> positionedRoots forest = rootComments cs.
Proof.
  intros Hth. unfold positionedRoots, rootComments.
  rewrite <- (filter_fmap rootOf positioned), (threads_roots _ _ _ Hth).
  rewrite filter_sortBy, list_filter_filter. f_equal.
  apply list_filter_iff. intros c. unfold imageAnchored, positioned.
  rewrite <- Is_true_true. tauto.
Qed.

Lemma omap_cons' {A B} (f : A → option B) (x : A) (l : list A) :
  omap f (x :: l)
  = match f x with Some y => y :: omap f l | None => omap f l end.
Proof. done. Qed.

Lemma renderComment_replies (t : CommentWithReplies) (level : nat) :
  omap numbered (renderComment t (S level) None) = [].
Proof.
  revert level. induction t as [c kids IH] using CommentWithReplies_rect'.
  intros level. cbn [renderComment]. rewrite omap_cons'.
  change (numbered (mkRow c (S level) (badge (S level) None)
                          (bool_decide (0 < S level)%nat))) with (@None (nat * Comment.t)).
  induction IH as [|k kids Hk _ IHk]; [done|].
  rewrite fmap_cons. cbn [concat]. by rewrite omap_app, Hk, IHk.
Qed.

Lemma renderComment_root (t : CommentWithReplies) (index : nat) :
  omap numbered (renderComment t 0 (Some (S index))) = [(S index, rootOf t)].
Proof.
  destruct t as [c kids]. cbn [renderComment]. rewrite omap_cons'.
  change (numbered (mkRow c 0 (badge 0 (Some (S index))) (bool_decide (0 < 0)%nat)))
    with (Some (S index, c)).
  cbn [rootOf]. f_equal. induction kids as [|k kids IH]; [done|].
  rewrite fmap_cons. cbn [concat]. by rewrite omap_app, renderComment_replies, IH.
Qed.

Lemma ThreadedCommentList_badges (l : list CommentWithReplies) (n : nat) :
  omap numbered
    (concat (imap (λ index comment, renderComment comment 0 (Some (S (n + index)))) l))
  = imap (λ index comment, (S (n + index), comment)) (rootOf <$> l).
Proof.
  revert n. induction l as [|t l IH]; intros n; [done|].
  rewrite fmap_cons, !imap_cons. cbn [concat].
  rewrite omap_app, Nat.add_0_r, renderComment_root. simpl. f_equal.
  rewrite (imap_ext _ (λ index comment, (S (S n + index), comment)))
    by (intros i x _; simpl; by rewrite Nat.add_succ_r).
  rewrite <- (IH (S n)). f_equal. f_equal. apply imap_ext. intros i x _. simpl.
  by rewrite Nat.add_succ_r.
Qed.

Lemma elem_of_concat {A} (ls : list (list A)) (x : A) :
  x ∈ concat ls ↔ ∃ l, x ∈ l ∧ l ∈ ls.
Proof.
  induction ls as [|l ls IH]; simpl.
  - split; [by intros ?%elem_of_nil|by intros (? & _ & ?%elem_of_nil)].
  - rewrite elem_of_app, IH. split.
    + intros [?|(l' & ? & ?)]; [exists l; split; [done|left]|].
      exists l'. split; [done|by right].
    + intros (l' & Hx & [->|?]%elem_of_cons); [by left|right]. by exists l'.
Qed.

Lemma renderComment_rows (t : CommentWithReplies) :
  ∀ level pinNumber r, r ∈ renderComment t level pinNumber →
    (rowLevel r = level ∧ rowBadge r = badge level pinNumber) ∨
    ((level < rowLevel r)%nat ∧ rowBadge r = None).
Proof.
  induction t as [c kids IH] using CommentWithReplies_rect'.
  intros level pinNumber r Hr. cbn [renderComment] in Hr.
  apply elem_of_cons in Hr as [->|Hr]; [by left|right].
  apply elem_of_concat_fmap in Hr as (k & Hr & Hk).
  rewrite Forall_forall in IH.
  destruct (IH k Hk _ _ _ Hr) as [[Hl Hb]|[Hlt Hb]].
  - split; [lia|by rewrite Hb].
  - split; [lia|done].
Qed.

(** X5: for comments with pairwise distinct ids, the numbered badges that
    the sidebar list shows, read from top to bottom, are the pins drawn on
    the image with the same numbers; a row carries a badge exactly when it
    is the row of a root comment (level 0); and the heading of the sidebar
    counts exactly the comments with a badge. *)
Theorem sidebar_matches_pins (fuel : nat) (h0 : Heap) (cs : list Comment.t) :
  NoDup (Comment.id <$> cs) → (length cs < fuel)%nat →
  ∃ commentTree,
    commentForest fuel h0 cs = Some commentTree ∧
    omap numbered (ThreadedCommentList commentTree) = imagePins cs ∧
    (∀ r, r ∈ ThreadedCommentList commentTree →
       rowBadge r = None ↔ (0 < rowLevel r)%nat) ∧
    length (positionedRootComments cs) = length (imagePins cs).
Proof.
  intros Hnd Hlen.
  destruct (commentForest_total fuel h0 cs Hnd Hlen) as (forest & Hth & Hf).
  exists forest. split_and!; [done| | |].
  - unfold ThreadedCommentList, imagePins.
    rewrite <- (positionedRoots_rootComments fuel cs forest Hth).
    apply (ThreadedCommentList_badges (positionedRoots forest) 0).
  - intros r Hr. unfold ThreadedCommentList in Hr.
    apply elem_of_concat in Hr as (rows & Hr & Hrows).
    apply elem_of_lookup_imap in Hrows as (i & t & -> & _).
    destruct (renderComment_rows _ _ _ _ Hr) as [[-> ->]|[Hlt ->]].
    + split; [done|lia].
    + done.
  - unfold imagePins, positionedRootComments, rootComments.
    by rewrite length_imap, length_sortBy.
Qed.

Lemma sidebar_matches_pins_witness :
  ∃ commentTree,
    commentForest 4 []
      [pinnedComment "b" 20 (Some 10) (Some 10) None None;
       pinnedComment "r" 25 None None None (Some "b");
       pinnedComment "a" 10 (Some 50) (Some 50) None None] = Some commentTree ∧
    omap numbered (ThreadedCommentList commentTree)
    = [(1%nat, pinnedComment "a" 10 (Some 50) (Some 50) None None);
       (2%nat, pinnedComment "b" 20 (Some 10) (Some 10) None None)].
Proof.
  destruct (sidebar_matches_pins 4 []
      [pinnedComment "b" 20 (Some 10) (Some 10) None None;
       pinnedComment "r" 25 None None None (Some "b");
       pinnedComment "a" 10 (Some 50) (Some 50) None None])
    as (forest & Hf & Hb & _).
  - apply (bool_decide_unpack _). by vm_compute.
  - simpl. lia.
  - exists forest. split; [done|]. rewrite Hb. reflexivity.
Defined.

(** ** The PDF viewer *)

Lemma pdfStep_ok (isPublic : bool) (comments : list Comment.t)
    (s : PdfState) (e : PdfEvent) :
  pdfStateOk s → pdfStateOk (pdfStep isPublic comments s e).
Proof.
  intros (Hp & Hx & Hm & Hn). destruct e as [| |x y|c|]; simpl.
  - split_and!; simpl; [lia|done..].
  - split_and!; simpl; [lia|done..].
  - unfold handlePDFClick. destruct isPublic; [|done].
    split_and!; simpl; [done|by left|done|]. by intros ??? [= _ _ <-].
  - split_and!; simpl; [done|by right|done|done].
  - split_and!; simpl; [done|by left|done|done].
Qed.

Lemma pdfRun_snoc (isPublic : bool) (comments : list Comment.t)
    (es : list PdfEvent) (e : PdfEvent) :
  pdfRun isPublic comments (es ++ [e])
  = pdfStep isPublic comments (pdfRun isPublic comments es) e.
Proof. unfold pdfRun. by rewrite foldl_app. Qed.

Lemma pdfRun_next (isPublic : bool) (comments : list Comment.t) (n : nat) :
  currentPage (pdfRun isPublic comments (replicate n NextPage)) = 1 + Z.of_nat n.
Proof.
  induction n as [|n IH]; [done|].
  rewrite replicate_S_end, pdfRun_snoc. simpl. rewrite IH. lia.
Qed.

Lemma pdfRun_ok (isPublic : bool) (comments : list Comment.t) (es : list PdfEvent) :
  pdfStateOk (pdfRun isPublic comments es).
Proof.
  induction es as [|e es IH] using rev_ind.
  - split_and!; simpl; [lia|by left|done|done].
  - rewrite pdfRun_snoc. by apply pdfStep_ok.
Qed.

(** X6: whatever the user does (turning pages, clicking on the page or on
    a pin, closing the modal), the displayed page stays at 1 or above, the
    modal never has both a selected pin and a position for a new comment,
    a closed modal has neither, and a new comment is always given a page
    of 1 or above; every page from 1 on can be reached. *)
Theorem pdf_state_invariant (isPublic : bool) (comments : list Comment.t) :
  (∀ es, pdfStateOk (pdfRun isPublic comments es)) ∧
  (∀ page, 1 ≤ page → ∃ es, currentPage (pdfRun isPublic comments es) = page).
Proof.
  split; [apply pdfRun_ok|].
  intros page Hpage. exists (replicate (Z.to_nat (page - 1)) NextPage).
  rewrite pdfRun_next. lia.
Qed.

Lemma pdf_state_invariant_witness :
  ∃ es, currentPage (pdfRun true [] es) = 3.
Proof.
  destruct (pdf_state_invariant true []) as [_ Hreach].
  apply (Hreach 3). lia.
Defined.

(** X7: a comment can be seen as a pin on some page the PDF viewer can
    display exactly if it is a root comment with both coordinates whose
    page is 1 or above: a comment stored with a page below 1 is drawn on
    no page. *)
Theorem pdf_pin_visible (isPublic : bool) (comments : list Comment.t)
    (c : Comment.t) :
  (∃ es, c ∈ rootCommentsForPage comments
               (currentPage (pdfRun isPublic comments es))) ↔
  c ∈ comments ∧ isRoot c ∧ positioned c ∧
  ∃ page, Comment.page c = Some page ∧ 1 ≤ page.
Proof.
  split.
  - intros (es & Hc).
    apply elem_of_rootCommentsForPage in Hc as (Hc & Hr & Hp & Hx & Hy).
    split_and!; [done..|]. eexists. split; [done|].
    by destruct (pdfRun_ok isPublic comments es) as [? _].
  - intros (Hc & Hr & [Hx Hy] & page & Hp & Hpage).
    exists (replicate (Z.to_nat (page - 1)) NextPage).
    rewrite pdfRun_next. apply elem_of_rootCommentsForPage. split; [done|].
    split_and!; [done| |done..]. rewrite Hp. f_equal. lia.
Qed.

(** X8: for comments with pairwise distinct ids, [handlePinClick] on a
    pin of the displayed page stores, in the state of the viewer, the
    number on the pin less one as [selectedPinIndex], sets [showModal],
    clears [newCommentPosition] and keeps the page; and the value the
    viewer then computes for the [existingComment] property it hands to
    the modal, [allRootComments[selectedPinIndex]], is the comment of the
    clicked pin.  This is about the state and the property value of the
    viewer, not about what the modal component draws. *)
Theorem pin_click_selects_comment (comments : list Comment.t) (s : PdfState)
    (c : Comment.t) :
  NoDup (Comment.id <$> comments) →
  c ∈ rootCommentsForPage comments (currentPage s) →
  let s' := handlePinClick comments c s in
  existingComment comments s' = Some c ∧
  selectedPinIndex s' = Some (pdfPinNumber comments c - 1) ∧
  showModal s' = true ∧ newCommentPosition s' = None ∧
  currentPage s' = currentPage s.
Proof.
  intros Hnd Hc. apply elem_of_rootCommentsForPage in Hc as [Hc Hp].
  assert (c ∈ allRootComments comments) as Hall.
  { apply elem_of_allRootComments. eauto using onPage_pdfAnchored. }
  destruct (findIndex_bounds (λ d, Comment.id d = Comment.id c) _ c Hall eq_refl)
    as (i & d & Hi & Hd & Hid & _).
  assert (d = c) as ->.
  { apply (id_inj comments Hnd); [|done|done].
    apply list_elem_of_lookup_2 in Hd.
    by apply elem_of_allRootComments in Hd as [? _]. }
  simpl. split_and!; [|f_equal; unfold pdfPinNumber; lia|done..].
  unfold existingComment, handlePinClick. simpl. rewrite Hi.
  unfold at_index. rewrite bool_decide_true by lia. by rewrite Nat2Z.id.
Qed.

Lemma pin_click_selects_comment_witness :
  existingComment
    [pinnedComment "q" 5 None None (Some 1) None;
     pinnedComment "p" 9 (Some 10) (Some 20) (Some 2) None]
    (handlePinClick
       [pinnedComment "q" 5 None None (Some 1) None;
        pinnedComment "p" 9 (Some 10) (Some 20) (Some 2) None]
       (pinnedComment "p" 9 (Some 10) (Some 20) (Some 2) None)
       (nextPage pdfInit))
  = Some (pinnedComment "p" 9 (Some 10) (Some 20) (Some 2) None).
Proof.
  apply (pin_click_selects_comment
           [pinnedComment "q" 5 None None (Some 1) None;
            pinnedComment "p" 9 (Some 10) (Some 20) (Some 2) None]
           (nextPage pdfInit)
           (pinnedComment "p" 9 (Some 10) (Some 20) (Some 2) None)).
  - apply (bool_decide_unpack _). by vm_compute.
  - vm_compute. left.
Defined.

(** ** The timeline of a video *)

Lemma elem_of_timestampComments (cs : list Comment.t) (c : Comment.t) :
  c ∈ Video.timestampComments cs ↔
  c ∈ cs ∧ Comment.timestamp c ≠ None ∧ isRoot c.
Proof.
  unfold Video.timestampComments.
  rewrite elem_of_sortBy, list_elem_of_filter. tauto.
Qed.

Lemma elem_of_shown (cs : list Comment.t) (c : Comment.t) :
  c ∈ Video.shown cs ↔
  c ∈ cs ∧
  ((Comment.timestamp c ≠ None ∧ isRoot c) ∨
   ∃ p, p ∈ cs ∧ Comment.timestamp p ≠ None ∧ isRoot p ∧
        Comment.parentId c = Some (Comment.id p)).
Proof.
  unfold Video.shown, Video.timeline. rewrite list_elem_of_bind. split.
  - intros ([p rs] & Hc & He). apply list_elem_of_fmap in He as (p' & [= -> ->] & Hp).
    apply elem_of_timestampComments in Hp as (Hp & Hts & Hr). simpl in Hc.
    apply elem_of_cons in Hc as [->|Hc]; [by split; [|left]|].
    apply list_elem_of_filter in Hc as [Hpar Hc]. split; [done|right].
    by exists p'.
  - intros (Hc & [[Hts Hr]|(p & Hp & Hts & Hr & Hpar)]).
    + exists (c, Video.getReplies cs (Comment.id c)). split; [left|].
      apply list_elem_of_fmap. exists c. split; [done|].
      by apply elem_of_timestampComments.
    + exists (p, Video.getReplies cs (Comment.id p)). split.
      * right. by apply list_elem_of_filter.
      * apply list_elem_of_fmap. exists p. split; [done|].
        by apply elem_of_timestampComments.
Qed.

(** X9: for comments with pairwise distinct ids, the timeline of a video
    shows one level of replies only: a reply to a comment that is itself a
    reply appears nowhere in it, neither as an entry nor below one. *)
Theorem video_hides_nested_replies (cs : list Comment.t) (c q : Comment.t) :
  NoDup (Comment.id <$> cs) →
  q ∈ cs → isRoot q = false →
  Comment.parentId c = Some (Comment.id q) → isRoot c = false →
  c ∉ Video.shown cs.
Proof.
  intros Hnd Hq Hqr Hpar Hcr Hin.
  apply elem_of_shown in Hin as (Hc & [[_ Hr]|(p & Hp & _ & Hr & Hpar')]).
  - by rewrite Hcr in Hr.
  - rewrite Hpar in Hpar'. injection Hpar' as Hid.
    assert (q = p) as -> by by apply (id_inj cs Hnd).
    by rewrite Hqr in Hr.
Qed.

Lemma video_hides_nested_replies_witness :
  videoComment "b" (Some "a") None 2 ∈ Video.shown sampleVideo ∧
  videoComment "c" (Some "b") None 3 ∉ Video.shown sampleVideo.
Proof.
  split; [vm_compute; right; left|].
  apply (video_hides_nested_replies sampleVideo
           (videoComment "c" (Some "b") None 3)
           (videoComment "b" (Some "a") None 2)).
  - apply (bool_decide_unpack _). by vm_compute.
  - right; left.
  - reflexivity.
  - reflexivity.
  - reflexivity.
Defined.

Section Lex.
Context {A : Type} (key : A → Z) (R : A → A → Prop).

Lemma insertBy_lex (x : A) (l : list A) :
  Forall (R x) l → StronglySorted (lexBy key R) l →
  StronglySorted (lexBy key R) (insertBy key x l).
Proof.
  intros Hx Hl. induction Hl as [|y l Hl IH Hy]; simpl.
  - repeat constructor.
  - apply Forall_cons in Hx as [Hxy Hx]. case_bool_decide as Hlt.
    + constructor; [by apply IH|]. rewrite Forall_forall. intros z Hz.
      apply (elem_of_Permutation_proper _ _ _ (insertBy_perm key x l)) in Hz.
      apply elem_of_cons in Hz as [->|Hz]; [by left|].
      rewrite Forall_forall in Hy. by apply Hy.
    + constructor; [by constructor|]. rewrite Forall_forall. intros z Hz.
      assert (key y ≤ key z ∧ R x z) as [Hyz Hxz].
      { apply elem_of_cons in Hz as [->|Hz]; [split; [lia|done]|].
        rewrite Forall_forall in Hy, Hx. split; [|by apply Hx].
        destruct (Hy z Hz) as [?|[? _]]; lia. }
      unfold lexBy. destruct (decide (key x = key z)); [by right|left; lia].
Qed.

(** A stable sort keeps the order of the input among equal keys. *)
Lemma sortBy_lex (l : list A) :
  StronglySorted R l → StronglySorted (lexBy key R) (sortBy key l).
Proof.
  induction 1 as [|x l Hl IH Hx]; [constructor|].
  rewrite sortBy_cons. apply insertBy_lex; [|done].
  rewrite Forall_forall in *. intros z Hz. apply Hx. revert Hz.
  apply elem_of_sortBy.
Qed.
End Lex.

Lemma StronglySorted_filter {A} (R : A → A → Prop) (P : A → Prop)
    `{∀ x, Decision (P x)} (l : list A) :
  StronglySorted R l → StronglySorted R (filter P l).
Proof.
  induction 1 as [|x l Hl IH Hx]; [constructor|].
  rewrite filter_cons. destruct (decide (P x)); [|done].
  constructor; [done|]. rewrite Forall_forall in *. intros z Hz.
  apply list_elem_of_filter in Hz as [_ Hz]. by apply Hx.
Qed.

Lemma StronglySorted_mono {A} (R1 R2 : A → A → Prop) (l : list A) :
  (∀ a b, R1 a b → R2 a b) → StronglySorted R1 l → StronglySorted R2 l.
Proof.
  intros HR. induction 1 as [|x l Hl IH Hx]; constructor; [done|].
  eapply Forall_impl; [exact Hx|]. intros z. apply HR.
Qed.

Lemma getCommentsByFileId_newest_first (db : Db) (fileId : string) :
  StronglySorted (λ a b, Comment.createdAt b ≤ Comment.createdAt a)
    (getCommentsByFileId db fileId).
Proof.
  unfold getCommentsByFileId.
  eapply StronglySorted_mono; [|apply sortBy_ascending].
  simpl. intros a b. lia.
Qed.

(** X10: the timeline of a video, built from the comments the server
    returns for the file, is in ascending order of the position in the
    video, and entries at the same second are listed newest first; the
    replies below an entry are listed newest first as well. *)
Theorem video_timeline_order (db : Db) (fileId : string) :
  StronglySorted
    (λ a b, Video.time a < Video.time b ∨
            (Video.time a = Video.time b ∧
             Comment.createdAt b ≤ Comment.createdAt a))
    (Video.timestampComments (getCommentsByFileId db fileId)) ∧
  Forall (λ e, StronglySorted
                 (λ a b, Comment.createdAt b ≤ Comment.createdAt a) e.2)
    (Video.timeline (getCommentsByFileId db fileId)).
Proof.
  split.
  - unfold Video.timestampComments.
    apply (sortBy_lex Video.time (λ a b, Comment.createdAt b ≤ Comment.createdAt a)).
    apply StronglySorted_filter, getCommentsByFileId_newest_first.
  - unfold Video.timeline. rewrite Forall_fmap. apply Forall_true. intros c.
    simpl. apply StronglySorted_filter, getCommentsByFileId_newest_first.
Qed.

(** ** Rows of the store *)

Lemma head_filter_None {A} (P : A → Prop) `{∀ x, Decision (P x)} (l : list A) :
  head (filter P l) = None ↔ ∀ x, x ∈ l → ¬ P x.
Proof.
  induction l as [|x l IH].
  - split; [by intros _ ? ?%elem_of_nil|done].
  - rewrite filter_cons. destruct (decide (P x)) as [HP|HP]; simpl.
    + split; [done|]. intros Hno. by destruct (Hno x (list_elem_of_here _ _)).
    + rewrite IH. split.
      * intros Hno y [->|Hy]%elem_of_cons; [done|by apply Hno].
      * intros Hno y Hy. apply Hno. by right.
Qed.

Lemma head_filter_snoc {A} (P : A → Prop) `{∀ x, Decision (P x)}
    (l : list A) (x : A) :
  head (filter P (l ++ [x]))
  = match head (filter P l) with
    | Some y => Some y
    | None => if decide (P x) then Some x else None
    end.
Proof.
  rewrite filter_app. destruct (filter P l) as [|y k]; simpl; [|done].
  rewrite filter_cons, filter_nil. by destruct (decide (P x)).
Qed.

(** ** Whatever order the database picks *)

Lemma sortBy_mayReturn {A} (key : A → Z) (rows : list A) :
  mayReturn key rows (sortBy (λ x, - key x) rows).
Proof.
  split; [apply sortBy_perm|].
  eapply StronglySorted_mono; [|apply sortBy_ascending].
  simpl. intros a b. lia.
Qed.

Lemma getCommentsByFileId_returns (db : Db) (f : string) :
  commentsByFileIdReturns db f (getCommentsByFileId db f).
Proof. apply sortBy_mayReturn. Qed.

Lemma getFilesByProjectId_returns (db : Db) (projectId : string) :
  filesByProjectIdReturns db projectId (getFilesByProjectId db projectId).
Proof. apply sortBy_mayReturn. Qed.


Lemma mayReturn_elem {A} (key : A → Z) (rows l : list A) (x : A) :
  mayReturn key rows l → x ∈ l ↔ x ∈ rows.
Proof. intros [Hp _]. by rewrite Hp. Qed.

Lemma mayReturn_filter {A} (key : A → Z) (P : A → Prop) `{∀ x, Decision (P x)}
    (rows l : list A) :
  mayReturn key rows l → mayReturn key (filter P rows) (filter P l).
Proof.
  intros [Hp Hs]. split; [by rewrite Hp|by apply StronglySorted_filter].
Qed.

(** A row that is newer than every other selected row comes first, in
    whatever order the others come. *)
Lemma mayReturn_snoc_newest {A} (key : A → Z) (rows l : list A) (x : A) :
  (∀ y, y ∈ rows → key y < key x) →
  mayReturn key (rows ++ [x]) l →
  ∃ rest, l = x :: rest ∧ mayReturn key rows rest.
Proof.
  intros Hnew [Hp Hs].
  destruct l as [|h rest].
  { symmetry in Hp. apply Permutation_nil_r in Hp. by destruct rows. }
  apply StronglySorted_inv in Hs as [Hrest Hh].
  assert (h = x) as ->.
  { assert (h ∈ rows ++ [x]) as Hin by (rewrite <- Hp; left).
    apply elem_of_app in Hin as [Hin|Hin]; [|by apply list_elem_of_singleton in Hin].
    assert (x ∈ h :: rest) as Hx.
    { rewrite Hp. apply elem_of_app. right. left. }
    apply elem_of_cons in Hx as [->|Hx]; [done|].
    rewrite Forall_forall in Hh. specialize (Hh x Hx). specialize (Hnew h Hin).
    simpl in Hh. lia. }
  exists rest. split; [done|]. split; [|done].
  apply (Permutation_cons_inv (a := x)).
  rewrite Hp. symmetry. apply Permutation_cons_append.
Qed.

Lemma filter_snoc {A} (P : A → Prop) `{∀ x, Decision (P x)} (l : list A) (x : A) :
  filter P (l ++ [x]) = if decide (P x) then filter P l ++ [x] else filter P l.
Proof.
  rewrite filter_app, filter_cons, filter_nil.
  destruct (decide (P x)); [done|by rewrite app_nil_r].
Qed.

(** X11: storing a comment under an id that no stored comment has makes
    [getComment] return that row for the id and leaves the answer for every
    other id as it was; what [getCommentsByFileId] may return for any other
    file does not change; whatever list it returns for the file of the
    comment holds the new row besides the rows it held before; and when the
    creation time of the row is later than that of every stored comment,
    the row is the first element of that list, and the rest of the list is
    a list the query could have returned before. *)
Theorem createComment_getComment (db : Db) (ins : InsertComment.t)
    (now : Z) (newId : string) :
  getComment db newId = None →
  let db' := (createComment db ins now newId).1 in
  let row := (createComment db ins now newId).2 in
  let f := InsertComment.fileId ins in
  getComment db' newId = Some row ∧
  Comment.id row = newId ∧
  Comment.fileId row = f ∧
  (∀ id, id ≠ newId → getComment db' id = getComment db id) ∧
  (∀ f' l, f' ≠ f →
           commentsByFileIdReturns db' f' l ↔ commentsByFileIdReturns db f' l) ∧
  commentsByFileIdReturns db' f (getCommentsByFileId db' f) ∧
  (∀ l, commentsByFileIdReturns db' f l → l ≡ₚ row :: getCommentsByFileId db f) ∧
  ((∀ c, c ∈ comments db → Comment.createdAt c < now) →
   ∀ l, commentsByFileIdReturns db' f l →
        ∃ rest, l = row :: rest ∧ commentsByFileIdReturns db f rest).
Proof.
  intros Hfresh db' row f.
  assert (∀ f', filter (λ c, Comment.fileId c = f') (comments db')
                = if decide (f = f')
                  then filter (λ c, Comment.fileId c = f') (comments db) ++ [row]
                  else filter (λ c, Comment.fileId c = f') (comments db)) as Hrows.
  { intros f'. unfold db'. simpl. by rewrite filter_snoc. }
  split_and!.
  - unfold getComment, db'. simpl. rewrite head_filter_snoc.
    unfold getComment in Hfresh. rewrite Hfresh. by rewrite decide_True.
  - done.
  - done.
  - intros id Hid. unfold getComment, db'. simpl. rewrite head_filter_snoc.
    destruct (head (filter _ (comments db))); [done|].
    by rewrite decide_False.
  - intros f' l Hf. unfold commentsByFileIdReturns.
    by rewrite Hrows, decide_False.
  - apply getCommentsByFileId_returns.
  - intros l [Hp _]. rewrite Hp, Hrows, decide_True by done.
    rewrite <- Permutation_cons_append. constructor.
    symmetry. apply sortBy_perm.
  - intros Hnow l Hl. unfold commentsByFileIdReturns in Hl.
    rewrite Hrows, decide_True in Hl by done.
    apply mayReturn_snoc_newest in Hl; [done|].
    intros y Hy. apply list_elem_of_filter in Hy as [_ Hy]. by apply Hnow.
Qed.

Lemma createComment_getComment_witness :
  getComment
    (createComment sampleDb
       (InsertComment.mk "f1" None "Bo" None "hi" None None None None None)
       200 "c9").1 "c9"
  = Some (Comment.mk "c9" "f1" None "Bo" None "hi" "To Do" None None None None
            200 200).
Proof.
  apply (createComment_getComment sampleDb
           (InsertComment.mk "f1" None "Bo" None "hi" None None None None None)
           200 "c9").
  reflexivity.
Defined.

Lemma deleteComment_filter (db : Db) (id : string) (P : Comment.t → Prop)
    `{∀ c, Decision (P c)} :
  (∀ c, P c → Comment.id c ≠ id) →
  filter P (comments (deleteComment db id)) = filter P (comments db).
Proof. intros HP. simpl. by apply list_filter_filter_l. Qed.

(** X12: after [deleteComment] no comment with the id is found and every
    other comment is found as before; every list [getCommentsByFileId] may
    return for a file, with the comments of that id taken out, is a list
    it may return afterwards, and whatever it returns afterwards holds
    exactly the comments of the file with another id; deleting again or
    deleting an id that is not stored changes nothing, and nothing but
    comments is touched. *)
Theorem deleteComment_getComment (db : Db) (id : string) :
  let db' := deleteComment db id in
  getComment db' id = None ∧
  (∀ id', id' ≠ id → getComment db' id' = getComment db id') ∧
  (∀ f l, commentsByFileIdReturns db f l →
          commentsByFileIdReturns db' f (filter (λ c, Comment.id c ≠ id) l)) ∧
  (∀ f l', commentsByFileIdReturns db' f l' →
           ∀ c, c ∈ l' ↔
                c ∈ comments db ∧ Comment.fileId c = f ∧ Comment.id c ≠ id) ∧
  deleteComment db' id = db' ∧
  (getComment db id = None → db' = db) ∧
  projects db' = projects db ∧ files db' = files db ∧
  projectViews db' = projectViews db.
Proof.
  intros db'.
  assert (∀ f, filter (λ c, Comment.fileId c = f) (comments db')
               = filter (λ c, Comment.id c ≠ id)
                   (filter (λ c, Comment.fileId c = f) (comments db))) as Hrows.
  { intros f. unfold db'. simpl. rewrite !list_filter_filter.
    apply list_filter_iff. tauto. }
  split_and!; try done.
  - unfold getComment. apply head_filter_None. simpl.
    intros c Hc Hid. by apply list_elem_of_filter in Hc as [? _].
  - intros id' Hne. unfold getComment, db'.
    rewrite deleteComment_filter; [done|]. by intros c ->.
  - intros f l Hl. unfold commentsByFileIdReturns. rewrite Hrows.
    by apply mayReturn_filter.
  - intros f l' Hl c. unfold commentsByFileIdReturns in Hl.
    rewrite (mayReturn_elem _ _ _ c Hl), Hrows, !list_elem_of_filter. tauto.
  - unfold db', deleteComment. simpl. f_equal.
    apply list_filter_filter_l. done.
  - clear Hrows. unfold getComment. rewrite head_filter_None. intros Hno.
    unfold db'. destruct db as [ps fs cs vs]. unfold deleteComment. simpl in *.
    f_equal. induction cs as [|c cs IH]; [done|].
    rewrite filter_cons, decide_True by (apply Hno; left).
    f_equal. apply IH. intros x Hx. apply Hno. by right.
Qed.

Lemma NoDup_fmap_filter {A B} (f : A → B) (P : A → Prop) `{∀ x, Decision (P x)}
    (l : list A) :
  NoDup (f <$> l) → NoDup (f <$> filter P l).
Proof.
  induction l as [|x l IH]; [done|].
  rewrite fmap_cons, NoDup_cons. intros [Hx Hl]. rewrite filter_cons.
  destruct (decide (P x)); [|by apply IH].
  rewrite fmap_cons, NoDup_cons. split; [|by apply IH].
  intros Hin. apply Hx. apply list_elem_of_fmap in Hin as (y & -> & Hy).
  apply list_elem_of_filter in Hy as [_ Hy]. by apply list_elem_of_fmap_2.
Qed.

Lemma getCommentsByFileId_elem (db : Db) (f : string) (c : Comment.t) :
  c ∈ getCommentsByFileId db f ↔ c ∈ comments db ∧ Comment.fileId c = f.
Proof.
  unfold getCommentsByFileId. rewrite elem_of_sortBy, list_elem_of_filter. tauto.
Qed.

Lemma getCommentsByFileId_NoDup (db : Db) (f : string) :
  NoDup (Comment.id <$> comments db) →
  NoDup (Comment.id <$> getCommentsByFileId db f).
Proof.
  intros Hnd. unfold getCommentsByFileId.
  rewrite (fmap_Permutation _ _ _ (sortBy_perm _ _)).
  by apply NoDup_fmap_filter.
Qed.

Lemma getCommentsByFileId_length (db : Db) (f : string) :
  (length (getCommentsByFileId db f) ≤ length (comments db))%nat.
Proof. unfold getCommentsByFileId. rewrite length_sortBy. apply length_filter. Qed.

Lemma getComment_Some (db : Db) (c : Comment.t) :
  NoDup (Comment.id <$> comments db) → c ∈ comments db →
  getComment db (Comment.id c) = Some c.
Proof.
  intros Hnd Hc. unfold getComment.
  destruct (head (filter (λ d, Comment.id d = Comment.id c) (comments db)))
    as [d|] eqn:Hd.
  - apply head_Some_elem_of, list_elem_of_filter in Hd as [Hid Hd].
    f_equal. by apply (id_inj (comments db) Hnd).
  - apply head_filter_None with (x := c) in Hd; done.
Qed.

(** X13: comments are deleted one row at a time.  After a comment has
    been deleted, a reply to it is still stored and still returned with the
    comments of its file, but the forest built from that list leaves it
    out. *)
Theorem deleted_parent_hides_replies (fuel : nat) (h0 : Heap) (db : Db)
    (p c : Comment.t) :
  NoDup (Comment.id <$> comments db) →
  (length (comments db) < fuel)%nat →
  c ∈ comments db →
  truthy (Comment.parentId c) = Some (Comment.id p) →
  Comment.id c ≠ Comment.id p →
  let db' := deleteComment db (Comment.id p) in
  let cs' := getCommentsByFileId db' (Comment.fileId c) in
  getComment db' (Comment.id c) = Some c ∧
  c ∈ cs' ∧
  ∃ forest, commentForest fuel h0 cs' = Some forest ∧
            c ∉ flattenForest forest.
Proof.
  intros Hnd Hlen Hc Hpar Hne db' cs'.
  assert (NoDup (Comment.id <$> comments db')) as Hnd'.
  { unfold db'. simpl. by apply NoDup_fmap_filter. }
  assert (c ∈ comments db') as Hc'.
  { unfold db'. simpl. by apply list_elem_of_filter. }
  split_and!.
  - by apply getComment_Some.
  - by apply getCommentsByFileId_elem.
  - destruct (commentForest_total fuel h0 cs') as (forest & Hth & Hf).
    + by apply getCommentsByFileId_NoDup.
    + pose proof (getCommentsByFileId_length db' (Comment.fileId c)) as Hle.
      assert (length (comments db') ≤ length (comments db))%nat
        by (unfold db'; simpl; apply length_filter).
      unfold cs'. lia.
    + exists forest. split; [done|]. intros Hin.
      apply (threads_rooted cs' fuel forest) in Hin; [|done].
      destruct Hin as [path Hch]. inversion Hch as [r Hr Hroot|d q path' Hq Hd Hdq]; subst.
      * apply isRoot_truthy in Hroot. by rewrite Hroot in Hpar.
      * rewrite Hpar in Hdq. injection Hdq as Hid.
        assert (q ∈ cs') as Hq' by (eapply chain_elem; [exact Hq|left]).
        apply getCommentsByFileId_elem in Hq' as [Hq' _].
        unfold db' in Hq'. simpl in Hq'.
        apply list_elem_of_filter in Hq' as [Hq' _]. by rewrite Hid in Hq'.
Qed.

Lemma deleted_parent_hides_replies_witness :
  getComment (deleteComment threadDb "a") "b" = Some (reply "b" (Some "a") 20) ∧
  reply "b" (Some "a") 20 ∈ getCommentsByFileId (deleteComment threadDb "a") "f1" ∧
  ∃ forest,
    commentForest 3 [] (getCommentsByFileId (deleteComment threadDb "a") "f1")
    = Some forest ∧
    reply "b" (Some "a") 20 ∉ flattenForest forest.
Proof.
  apply (deleted_parent_hides_replies 3 [] threadDb
           (reply "a" None 30) (reply "b" (Some "a") 20)).
  - apply (bool_decide_unpack _). by vm_compute.
  - simpl. lia.
  - right; left.
  - reflexivity.
  - discriminate.
Defined.

(** ** Marking a project as viewed *)





(** ** A new comment in the counters of the project list *)

Lemma foldl_max_snoc (xs : list Z) (a b : Z) :
  foldl Z.max (Z.max a b) xs = Z.max (foldl Z.max a xs) b.
Proof.
  revert a. induction xs as [|x xs IH]; intros a; [done|]. simpl.
  rewrite <- IH. f_equal. lia.
Qed.

Lemma MathMax_cons (x : Z) (xs : list Z) :
  MathMax (x :: xs)
  = Some (match MathMax xs with Some m => Z.max m x | None => x end).
Proof.
  destruct xs as [|y ys]; [done|]. simpl. f_equal.
  rewrite (Z.max_comm x y). apply foldl_max_snoc.
Qed.

Lemma MathMax_perm (xs ys : list Z) : xs ≡ₚ ys → MathMax xs = MathMax ys.
Proof.
  intros Hp.
  destruct (MathMax xs) as [m|] eqn:Hm, (MathMax ys) as [n|] eqn:Hn.
  - apply MathMax_spec in Hm as [Hm1 Hm2]. apply MathMax_spec in Hn as [Hn1 Hn2].
    f_equal. apply Z.le_antisymm.
    + apply Hn2. by rewrite <- Hp.
    + apply Hm2. by rewrite Hp.
  - destruct ys; [|done]. apply Permutation_nil_r in Hp. by subst.
  - destruct xs; [|done]. apply Permutation_nil_l in Hp. by subst.
  - done.
Qed.

Lemma projectStats_total (db : Db) (u : string) (p : Project.t) :
  totalComments (projectStats db u p) = length (projectComments db p).
Proof. unfold projectStats. simpl. by rewrite (flat_projectComments db p). Qed.

Lemma projectStats_unresolved (db : Db) (u : string) (p : Project.t) :
  unresolvedComments (projectStats db u p)
  = length (filter isUnresolved (projectComments db p)).
Proof. unfold projectStats. simpl. by rewrite (flat_projectComments db p). Qed.

Lemma projectStats_last (db : Db) (u : string) (p : Project.t) :
  lastCommentTime (projectStats db u p)
  = MathMax (Comment.createdAt <$> projectComments db p).
Proof.
  unfold projectStats. cbn [lastCommentTime].
  rewrite <- (MathMax_perm _ _ (fmap_Permutation _ _ _ (flat_projectComments db p))).
  case_bool_decide as Hlen; [done|].
  destruct (concat _); [done|simpl in Hlen; lia].
Qed.

Lemma filter_unique {A B} (g : A → B) `{EqDecision B} (l : list A) (x : A) :
  NoDup (g <$> l) → x ∈ l → filter (λ y, g y = g x) l = [x].
Proof.
  induction l as [|y l IH]; [by intros _ ?%elem_of_nil|].
  rewrite fmap_cons, NoDup_cons. intros [Hy Hl] Hx. rewrite filter_cons.
  apply elem_of_cons in Hx as [->|Hx].
  - rewrite decide_True by done. f_equal. clear IH Hl.
    induction l as [|z l IHl]; [done|].
    rewrite fmap_cons in Hy. apply not_elem_of_cons in Hy as [Hne Hy].
    rewrite filter_cons, decide_False by done. by apply IHl.
  - rewrite decide_False; [by apply IH|].
    intros Heq. apply Hy. rewrite Heq. by apply list_elem_of_fmap_2.
Qed.

Lemma bind_filter_snoc (fs : list File.t) (cs : list Comment.t) (row : Comment.t) :
  fs ≫= (λ f, filter (λ c, Comment.fileId c = File.id f) (cs ++ [row]))
  ≡ₚ replicate (length (filter (λ g, File.id g = Comment.fileId row) fs)) row
     ++ (fs ≫= λ f, filter (λ c, Comment.fileId c = File.id f) cs).
Proof.
  induction fs as [|g fs IH]; [done|].
  rewrite !bind_cons, IH, filter_app, !filter_cons, !filter_nil.
  set (A := filter (λ c, Comment.fileId c = File.id g) cs).
  set (X := fs ≫= _). set (n := length _).
  destruct (decide (Comment.fileId row = File.id g)) as [Heq|Hne].
  - rewrite decide_True by done. cbn [length replicate].
    rewrite (Permutation_app_comm A [row]). simpl. constructor.
    rewrite !app_assoc. apply Permutation_app_tail, Permutation_app_comm.
  - rewrite decide_False by done. rewrite app_nil_r.
    rewrite !app_assoc. apply Permutation_app_tail, Permutation_app_comm.
Qed.

(** The comments of a project after [createComment]: the new row once for
    every file row of the project that carries its [fileId]. *)
Lemma projectComments_createComment (db : Db) (ins : InsertComment.t)
    (now : Z) (newId : string) (p : Project.t) :
  projectComments (createComment db ins now newId).1 p
  ≡ₚ replicate
       (length (filter (λ g, File.id g = InsertComment.fileId ins)
                  (filter (λ g, File.projectId g = Project.id p) (files db))))
       (createComment db ins now newId).2
     ++ projectComments db p.
Proof. unfold projectComments. apply bind_filter_snoc. Qed.

Lemma getCommentsByFileId_createComment_ne (db : Db) (ins : InsertComment.t)
    (now : Z) (newId f : string) :
  f ≠ InsertComment.fileId ins →
  getCommentsByFileId (createComment db ins now newId).1 f
  = getCommentsByFileId db f.
Proof.
  intros Hf. unfold getCommentsByFileId. simpl.
  rewrite filter_app, filter_cons, filter_nil.
  rewrite decide_False by done. by rewrite app_nil_r.
Qed.

Lemma list_fmap_ext_in {A B} (f g : A → B) (l : list A) :
  (∀ x, x ∈ l → f x = g x) → f <$> l = g <$> l.
Proof.
  induction l as [|x l IH]; intros Hfg; [done|].
  rewrite !fmap_cons, Hfg by left. f_equal. apply IH. intros; apply Hfg. by right.
Qed.

(** A project none of whose files is the file of the new comment is
    reported as before. *)
Lemma projectStats_createComment_other (db : Db) (ins : InsertComment.t)
    (now : Z) (newId u : string) (q : Project.t) :
  (∀ g, g ∈ files db → File.projectId g = Project.id q →
        File.id g ≠ InsertComment.fileId ins) →
  projectStats (createComment db ins now newId).1 u q = projectStats db u q.
Proof.
  intros Hno.
  assert ((λ f, getCommentsByFileId (createComment db ins now newId).1 (File.id f))
            <$> getFilesByProjectId db (Project.id q)
          = (λ f, getCommentsByFileId db (File.id f))
            <$> getFilesByProjectId db (Project.id q)) as Heq.
  { apply list_fmap_ext_in. intros g Hg.
    apply getCommentsByFileId_createComment_ne.
    unfold getFilesByProjectId in Hg.
    apply elem_of_sortBy, list_elem_of_filter in Hg as [Hp Hg]. by apply Hno. }
  unfold projectStats.
  change (getFilesByProjectId (createComment db ins now newId).1 (Project.id q))
    with (getFilesByProjectId db (Project.id q)).
  change (getProjectView (createComment db ins now newId).1 u (Project.id q))
    with (getProjectView db u (Project.id q)).
  by rewrite Heq.
Qed.

(** X15: a comment stored for a file of a project, file ids being
    pairwise distinct, raises the project's comment count by one, raises
    the count of unresolved comments by one exactly if its tag is "To Do"
    (the default when the request names none) or "In Progress", makes the
    time of the last comment the later of the previous one and its own,
    flags the project unread if it was already or if the comment is later
    than the last view, and leaves every other project's entry alone. *)
Theorem createComment_counts (db : Db) (ins : InsertComment.t) (now : Z)
    (newId u : string) (p : Project.t) (f : File.t) :
  NoDup (File.id <$> files db) →
  f ∈ files db → File.id f = InsertComment.fileId ins →
  File.projectId f = Project.id p →
  let db' := (createComment db ins now newId).1 in
  let row := (createComment db ins now newId).2 in
  let s := projectStats db u p in
  let s' := projectStats db' u p in
  totalComments s' = S (totalComments s) ∧
  unresolvedComments s'
  = (unresolvedComments s + if decide (isUnresolved row) then 1 else 0)%nat ∧
  (InsertComment.tag ins = None → isUnresolved row) ∧
  lastCommentTime s'
  = Some (match lastCommentTime s with Some m => Z.max m now | None => now end) ∧
  (hasUnreadComments s' = true ↔
   hasUnreadComments s = true ∨
   match getProjectView db u (Project.id p) with
   | Some v => ProjectView.lastViewedAt v
   | None => 0
   end < now) ∧
  fileCount s' = fileCount s ∧
  (∀ q, Project.id q ≠ Project.id p → projectStats db' u q = projectStats db u q).
Proof.
  intros Hnd Hf Hid Hproj db' row s s'.
  assert (projectComments db' p ≡ₚ row :: projectComments db p) as Hperm.
  { unfold db', row. rewrite projectComments_createComment.
    replace (filter (λ g, File.id g = InsertComment.fileId ins)
               (filter (λ g, File.projectId g = Project.id p) (files db)))
      with [f]; [done|].
    rewrite list_filter_filter.
    rewrite (list_filter_iff _ (λ g, File.projectId g = Project.id p ∧
                                     File.id g = File.id f))
      by (intros g; rewrite Hid; tauto).
    rewrite <- list_filter_filter, (filter_unique File.id) by done.
    by rewrite filter_cons, decide_True, filter_nil. }
  split_and!.
  - unfold s, s'. by rewrite !projectStats_total, Hperm.
  - unfold s, s'. rewrite !projectStats_unresolved, Hperm, filter_cons.
    destruct (decide (isUnresolved row)); simpl; lia.
  - intros Htag. left. unfold row. simpl. by rewrite Htag.
  - unfold s, s'. rewrite !projectStats_last.
    rewrite (MathMax_perm _ _ (fmap_Permutation _ _ _ Hperm)).
    by rewrite fmap_cons, MathMax_cons.
  - unfold s, s'.
    rewrite (projectStats_unread db' u p _ eq_refl).
    rewrite (projectStats_unread db u p _ eq_refl).
    change (getProjectView db' u (Project.id p))
      with (getProjectView db u (Project.id p)).
    split.
    + intros (c & Hc & Hlt). rewrite Hperm in Hc.
      apply elem_of_cons in Hc as [->|Hc]; [by right|left; by exists c].
    + intros [(c & Hc & Hlt)|Hlt].
      * exists c. split; [|done]. rewrite Hperm. by right.
      * exists row. split; [|done]. rewrite Hperm. left.
  - done.
  - intros q Hq. apply projectStats_createComment_other.
    intros g Hg Hgq Hgid. apply Hq. rewrite <- Hgq, <- Hproj. f_equal.
    apply (NoDup_fmap_1 File.id) in Hnd as Hnd'.
    rewrite <- Hid in Hgid.
    assert (g ∈ filter (λ y, File.id y = File.id f) (files db)) as Hin
      by by apply list_elem_of_filter.
    rewrite (filter_unique File.id) in Hin by done.
    by apply list_elem_of_singleton in Hin.
Qed.

Lemma createComment_counts_witness :
  totalComments
    (projectStats
       (createComment sampleDb
          (InsertComment.mk "f1" None "Bo" None "hi" None None None None None)
          200 "c9").1 "user-1" sampleProject) = 5%nat.
Proof.
  apply (createComment_counts sampleDb
           (InsertComment.mk "f1" None "Bo" None "hi" None None None None None)
           200 "c9" "user-1" sampleProject sampleFile).
  - apply (bool_decide_unpack _). by vm_compute.
  - left.
  - reflexivity.
  - reflexivity.
Defined.

(** X16: nothing checks that the file of a comment exists.  A comment
    stored for a [fileId] that no file row carries is kept and is returned
    for that [fileId], but it changes the entry of no project in any
    user's project list. *)
Theorem createComment_unknown_file (db : Db) (ins : InsertComment.t) (now : Z)
    (newId : string) :
  (∀ g, g ∈ files db → File.id g ≠ InsertComment.fileId ins) →
  let db' := (createComment db ins now newId).1 in
  let row := (createComment db ins now newId).2 in
  row ∈ comments db' ∧
  row ∈ getCommentsByFileId db' (InsertComment.fileId ins) ∧
  ∀ u, getProjectsWithCommentStats db' u = getProjectsWithCommentStats db u.
Proof.
  intros Hno db' row. split_and!.
  - unfold db'. simpl. apply elem_of_app. right. left.
  - apply getCommentsByFileId_elem. split; [|done].
    unfold db'. simpl. apply elem_of_app. right. left.
  - intros u. unfold getProjectsWithCommentStats.
    change (getProjectsByUserId db' u) with (getProjectsByUserId db u).
    apply list_fmap_ext_in. intros q _.
    apply projectStats_createComment_other. intros g Hg _. by apply Hno.
Qed.

Lemma createComment_unknown_file_witness :
  getProjectsWithCommentStats
    (createComment sampleDb
       (InsertComment.mk "nowhere" None "Bo" None "hi" None None None None None)
       200 "c9").1 "user-1"
  = getProjectsWithCommentStats sampleDb "user-1".
Proof.
  apply (createComment_unknown_file sampleDb
           (InsertComment.mk "nowhere" None "Bo" None "hi" None None None None None)
           200 "c9").
  intros g Hg. apply list_elem_of_singleton in Hg as ->. discriminate.
Defined.

(** ** Deleting files and projects *)

Lemma filter_none {A} (P : A → Prop) `{∀ x, Decision (P x)} (l : list A) :
  (∀ x, x ∈ l → ¬ P x) → filter P l = [].
Proof.
  induction l as [|x l IH]; intros Hno; [done|].
  rewrite filter_cons, decide_False by (apply Hno; left).
  apply IH. intros y Hy. apply Hno. by right.
Qed.

Lemma filter_all {A} (P : A → Prop) `{∀ x, Decision (P x)} (l : list A) :
  (∀ x, x ∈ l → P x) → filter P l = l.
Proof.
  induction l as [|x l IH]; intros Hall; [done|].
  rewrite filter_cons, decide_True by (apply Hall; left).
  f_equal. apply IH. intros y Hy. apply Hall. by right.
Qed.

Lemma projectComments_deleteFile (db : Db) (fid : string) (p : Project.t) :
  projectComments (deleteFile db fid) p
  = filter (λ c, Comment.fileId c ≠ fid) (projectComments db p).
Proof.
  unfold projectComments. simpl.
  induction (files db) as [|g fs IH]; [done|].
  rewrite (filter_cons _ g fs).
  destruct (decide (File.id g ≠ fid)) as [Hne|Heq].
  - rewrite !(filter_cons _ g).
    destruct (decide (File.projectId g = Project.id p)); [|done].
    rewrite !bind_cons, filter_app, IH. f_equal. symmetry. apply filter_all.
    intros c Hc. apply list_elem_of_filter in Hc as [-> _]. done.
  - apply dec_stable in Heq. rewrite IH, (filter_cons _ g).
    destruct (decide (File.projectId g = Project.id p)); [|done].
    rewrite bind_cons, filter_app.
    rewrite (filter_none _ (filter (λ c, Comment.fileId c = File.id g) (comments db)));
      [done|].
    intros c Hc. apply list_elem_of_filter in Hc as [Hc _]. intros Hne.
    apply Hne. by rewrite Hc.
Qed.

(** X17: deleting a file deletes the file row only.  Its comments stay
    in the store and are still returned for its id, but every project's
    entry in the project list lists only the remaining files, newest
    upload first, and counts only their comments; every list
    [getFilesByProjectId] may return for a project, with the deleted file
    taken out, is a list it may return afterwards. *)
Theorem deleteFile_keeps_comments (db : Db) (fid : string) :
  let db' := deleteFile db fid in
  getFile db' fid = None ∧
  comments db' = comments db ∧
  getCommentsByFileId db' fid = getCommentsByFileId db fid ∧
  (∀ projectId l,
     filesByProjectIdReturns db projectId l →
     filesByProjectIdReturns db' projectId (filter (λ g, File.id g ≠ fid) l)) ∧
  ∀ u p,
    let s' := projectStats db' u p in
    statFiles s' ≡ₚ filter (λ g, File.id g ≠ fid) (statFiles (projectStats db u p)) ∧
    StronglySorted (λ a b, File.uploadedAt b ≤ File.uploadedAt a) (statFiles s') ∧
    fileCount s' = length (statFiles s') ∧
    totalComments s'
    = length (filter (λ c, Comment.fileId c ≠ fid) (projectComments db p)) ∧
    unresolvedComments s'
    = length (filter isUnresolved
                (filter (λ c, Comment.fileId c ≠ fid) (projectComments db p))).
Proof.
  intros db'.
  assert (∀ projectId,
            filter (λ g, File.projectId g = projectId) (files db')
            = filter (λ g, File.id g ≠ fid)
                (filter (λ g, File.projectId g = projectId) (files db))) as Hrows.
  { intros projectId. unfold db'. simpl. rewrite !list_filter_filter.
    apply list_filter_iff. tauto. }
  split_and!; [|done|done| |].
  - unfold getFile. apply head_filter_None. simpl.
    intros g Hg Hid. by apply list_elem_of_filter in Hg as [? _].
  - intros projectId l Hl. unfold filesByProjectIdReturns. rewrite Hrows.
    by apply mayReturn_filter.
  - intros u p s'. unfold s', db'. split_and!.
    + unfold projectStats, getFilesByProjectId. cbn [statFiles].
      fold db'. rewrite Hrows, !sortBy_perm. done.
    + destruct (getFilesByProjectId_returns (deleteFile db fid) (Project.id p))
        as [_ Hs]. exact Hs.
    + done.
    + by rewrite projectStats_total, projectComments_deleteFile.
    + by rewrite projectStats_unresolved, projectComments_deleteFile.
Qed.

Lemma getProjectsByUserId_elem (db : Db) (u : string) (p : Project.t) :
  p ∈ getProjectsByUserId db u ↔ p ∈ projects db ∧ Project.userId p = u.
Proof.
  unfold getProjectsByUserId. rewrite elem_of_sortBy, list_elem_of_filter. tauto.
Qed.

(** X18: deleting a project deletes the project row only.  The project
    is no longer found and no longer listed, every other project is found
    as before, but its files are still listed under its id with all their
    comments, and the public page of each of them now answers 404,
    project not found. *)
Theorem deleteProject_keeps_files (db : Db) (id : string) :
  let db' := deleteProject db id in
  getProject db' id = None ∧
  (∀ id', id' ≠ id → getProject db' id' = getProject db id') ∧
  (∀ u s, s ∈ getProjectsWithCommentStats db' u → Project.id (project s) ≠ id) ∧
  getFilesByProjectId db' id = getFilesByProjectId db id ∧
  comments db' = comments db ∧
  (∀ publicId file,
     getFileByPublicId db publicId = Some file → File.projectId file = id →
     getPublicFile db' publicId = ProjectNotFound ∧
     publicFileStatus (getPublicFile db' publicId) = 404).
Proof.
  simpl.
  assert (getProject (deleteProject db id) id = None) as Hnone.
  { unfold getProject. apply head_filter_None. simpl.
    intros p Hp Hid. by apply list_elem_of_filter in Hp as [? _]. }
  split_and!; [done| | |done|done|].
  - intros id' Hne. unfold getProject. simpl.
    rewrite list_filter_filter_l; [done|]. by intros p ->.
  - intros u s Hs. unfold getProjectsWithCommentStats in Hs.
    apply list_elem_of_fmap in Hs as (p & -> & Hp). simpl.
    apply getProjectsByUserId_elem in Hp as [Hp _]. simpl in Hp.
    by apply list_elem_of_filter in Hp as [? _].
  - intros publicId file Hfile Hproj. unfold getPublicFile.
    change (getFileByPublicId (deleteProject db id) publicId)
      with (getFileByPublicId db publicId).
    by rewrite Hfile, Hproj, Hnone.
Qed.

(** ** More routes *)





Lemma getProjectsByUserId_newest_first (db : Db) (u : string) :
  StronglySorted (λ a b, Project.createdAt b ≤ Project.createdAt a)
    (getProjectsByUserId db u).
Proof.
  unfold getProjectsByUserId.
  eapply StronglySorted_mono; [|apply sortBy_ascending].
  simpl. intros a b. lia.
Qed.

Lemma getFilesByProjectId_newest_first (db : Db) (projectId : string) :
  StronglySorted (λ a b, File.uploadedAt b ≤ File.uploadedAt a)
    (getFilesByProjectId db projectId).
Proof.
  unfold getFilesByProjectId.
  eapply StronglySorted_mono; [|apply sortBy_ascending].
  simpl. intros a b. lia.
Qed.

Lemma StronglySorted_fmap_inv {A B} (f : A → B) (R : B → B → Prop) (l : list A) :
  StronglySorted R (f <$> l) → StronglySorted (λ a b, R (f a) (f b)) l.
Proof.
  induction l as [|x l IH]; [constructor|].
  rewrite fmap_cons. intros Hs. apply StronglySorted_inv in Hs as [Hl Hx].
  constructor; [by apply IH|]. rewrite Forall_fmap in Hx.
  eapply Forall_impl; [exact Hx|]. done.
Qed.

(** X20: the project list of a user holds one entry for each of the
    user's projects and for no other project, the newest project first;
    the files of an entry are the file rows of its project, the newest
    upload first, and [fileCount] is their number. *)
Theorem project_list_order (db : Db) (u : string) :
  let l := getProjectsWithCommentStats db u in
  project <$> l ≡ₚ filter (λ p, Project.userId p = u) (projects db) ∧
  StronglySorted
    (λ a b, Project.createdAt (project b) ≤ Project.createdAt (project a)) l ∧
  Forall (λ s,
    statFiles s
      ≡ₚ filter (λ f, File.projectId f = Project.id (project s)) (files db) ∧
    StronglySorted (λ a b, File.uploadedAt b ≤ File.uploadedAt a) (statFiles s) ∧
    fileCount s
    = length (filter (λ f, File.projectId f = Project.id (project s)) (files db)))
    l.
Proof.
  intros l. unfold l, getProjectsWithCommentStats.
  assert (project <$> (projectStats db u <$> getProjectsByUserId db u)
          = getProjectsByUserId db u) as Hproj.
  { rewrite <- list_fmap_compose. apply list_fmap_id. }
  split_and!.
  - rewrite Hproj. apply sortBy_perm.
  - apply (StronglySorted_fmap_inv project
             (λ a b, Project.createdAt b ≤ Project.createdAt a)).
    rewrite Hproj. apply getProjectsByUserId_newest_first.
  - rewrite Forall_fmap. apply Forall_true. intros p. simpl. split_and!.
    + apply sortBy_perm.
    + apply getFilesByProjectId_newest_first.
    + unfold getFilesByProjectId. by rewrite length_sortBy.
Qed.



(** ** The comment form *)




Section ModalFacts.
Context (trim : string → string).
Context {Num : Type} (truthyNum : Num → bool) (roundTimes100 : Num → Z).

End ModalFacts.



(** ** Thumbnails and object URLs *)

Lemma firstWith_split {A} (P : A → Prop) `{∀ x, Decision (P x)} (l : list A) (x : A) :
  firstWith P l = Some x →
  ∃ l1 l2, l = l1 ++ x :: l2 ∧ P x ∧ ∀ y, y ∈ l1 → ¬ P y.
Proof.
  induction l as [|y l IH]; [done|].
  rewrite firstWith_cons. destruct (decide (P y)) as [Hy|Hy].
  - intros [= ->]. exists [], l. split_and!; [done..|]. by intros ? ?%elem_of_nil.
  - intros Hf. destruct (IH Hf) as (l1 & l2 & -> & Hx & Hl1).
    exists (y :: l1), l2. split_and!; [done..|].
    intros z [->|Hz]%elem_of_cons; [done|by apply Hl1].
Qed.

(** The first hit in a list sorted newest first is the newest hit. *)
Lemma firstWith_newest {A} (P : A → Prop) `{∀ x, Decision (P x)} (key : A → Z)
    (l : list A) (x : A) :
  StronglySorted (λ a b, key b ≤ key a) l →
  firstWith P l = Some x →
  x ∈ l ∧ P x ∧ ∀ y, y ∈ l → P y → key y ≤ key x.
Proof.
  intros Hs Hf. destruct (firstWith_split P l x Hf) as (l1 & l2 & -> & Hx & Hl1).
  split_and!; [apply elem_of_app; right; left|done|].
  intros y Hy HPy. apply elem_of_app in Hy as [Hy|Hy]; [by destruct (Hl1 y Hy)|].
  apply StronglySorted_app_1_r, StronglySorted_inv in Hs as [_ Hall].
  apply elem_of_cons in Hy as [->|Hy]; [lia|].
  rewrite Forall_forall in Hall. by apply Hall.
Qed.

(** X23: the card of a project in the project list shows the folder icon
    exactly when the project has no files; when the project has an image
    it shows an image of the project, the most recently uploaded one; a
    video is shown only when there is no image, and then the most recently
    uploaded one. *)
Theorem thumbnail_newest_image (db : Db) (u : string) (p : Project.t) :
  let fs := statFiles (projectStats db u p) in
  let isFile f := f ∈ files db ∧ File.projectId f = Project.id p in
  (getProjectThumbnail fs = FolderIcon ↔ ∀ f, ¬ isFile f) ∧
  ((∃ f, isFile f ∧ getFileType (File.mimeType f) = ImageFile) →
   ∃ f, getProjectThumbnail fs = ImageAt (File.objectPath f) ∧
        isFile f ∧ getFileType (File.mimeType f) = ImageFile ∧
        ∀ g, isFile g → getFileType (File.mimeType g) = ImageFile →
             File.uploadedAt g ≤ File.uploadedAt f) ∧
  (∀ src, getProjectThumbnail fs = VideoAt src →
     (∀ g, isFile g → getFileType (File.mimeType g) ≠ ImageFile) ∧
     ∃ f, File.objectPath f = src ∧ isFile f ∧
          getFileType (File.mimeType f) = VideoFile ∧
          ∀ g, isFile g → getFileType (File.mimeType g) = VideoFile →
               File.uploadedAt g ≤ File.uploadedAt f).
Proof.
  intros fs isFile.
  assert (∀ f, f ∈ fs ↔ isFile f) as Hfs.
  { intros f. unfold fs, isFile, projectStats, getFilesByProjectId. simpl.
    rewrite elem_of_sortBy, list_elem_of_filter. tauto. }
  assert (StronglySorted (λ a b, File.uploadedAt b ≤ File.uploadedAt a) fs) as Hs.
  { apply getFilesByProjectId_newest_first. }
  assert (∀ m, getFileType m = ImageFile ↔ startsWith m "image/" = true) as Himg.
  { intros m. unfold getFileType. destruct (startsWith m "image/"); [done|].
    destruct (startsWith m "video/"); [done|]. by destruct (decide _). }
  assert (∀ m, startsWith m "image/" ≠ true →
               getFileType m = VideoFile ↔ startsWith m "video/" = true) as Hvid.
  { intros m Hm. unfold getFileType. destruct (startsWith m "image/"); [done|].
    destruct (startsWith m "video/"); [done|]. by destruct (decide _). }
  clearbody fs. split_and!.
  - split.
    + intros Hth f Hf. apply Hfs in Hf. destruct fs as [|g fs']; [by apply elem_of_nil in Hf|].
      unfold getProjectThumbnail in Hth.
      by repeat destruct (firstWith _ _).
    + intros Hno. destruct fs as [|g fs']; [done|].
      destruct (Hno g). apply Hfs. left.
  - intros (f & Hf & Hty). apply Hfs in Hf. apply Himg in Hty.
    destruct (firstWith (λ f, startsWith (File.mimeType f) "image/" = true) fs)
      as [x|] eqn:Hx.
    + destruct (firstWith_newest _ File.uploadedAt fs x Hs Hx) as (Hin & HP & Hnew).
      exists x. split_and!.
      * unfold getProjectThumbnail. rewrite Hx. by destruct fs.
      * by apply Hfs.
      * by apply Himg.
      * intros g Hg Hgt. apply Hnew; [by apply Hfs|by apply Himg].
    + pose proof (proj1 (firstWith_None _ _) Hx) as Hno. by destruct (Hno f Hf).
  - intros src Hth. unfold getProjectThumbnail in Hth.
    destruct fs as [|g0 fs'] eqn:Efs; [done|]. rewrite <- Efs in *. clear Efs.
    destruct (firstWith (λ f, startsWith (File.mimeType f) "image/" = true) fs)
      as [x|] eqn:Hx; [done|].
    pose proof (proj1 (firstWith_None _ _) Hx) as Hno. clear Hx. rename Hno into Hx.
    destruct (firstWith (λ f, startsWith (File.mimeType f) "video/" = true) fs)
      as [v|] eqn:Hv;
      [|by destruct (firstWith (λ f, File.mimeType f = "application/pdf"%string) fs)].
    injection Hth as <-.
    destruct (firstWith_newest _ File.uploadedAt fs v Hs Hv) as (Hin & HP & Hnew).
    split.
    + intros g Hg Hgt. apply Himg in Hgt. apply Hfs in Hg. by destruct (Hx g Hg).
    + exists v. split_and!; [done|by apply Hfs| |].
      * apply Hvid; [by apply Hx|done].
      * intros g Hg Hgt. apply Hfs in Hg. apply Hnew; [done|].
        apply Hvid; [by apply Hx|done].
Qed.

Lemma prefix_append (p s : string) : String.prefix p (p +:+ s) = true.
Proof.
  induction p as [|a p IH]; simpl; [by destruct s|].
  by destruct (Ascii.ascii_dec a a).
Qed.

Lemma length_append (p s : string) :
  String.length (p +:+ s) = (String.length p + String.length s)%nat.
Proof. induction p as [|a p IH]; simpl; [done|]. by rewrite IH. Qed.

(** X24: [getFileUrl] always gives a path that starts with /objects/, it
    leaves a path alone exactly when the path already starts so, and
    applying it twice is the same as applying it once. *)
Theorem getFileUrl_idempotent (objectPath : string) :
  startsWith (getFileUrl objectPath) "/objects/" = true ∧
  (getFileUrl objectPath = objectPath ↔ startsWith objectPath "/objects/" = true) ∧
  getFileUrl (getFileUrl objectPath) = getFileUrl objectPath.
Proof.
  assert (startsWith (getFileUrl objectPath) "/objects/" = true) as Hp.
  { unfold getFileUrl. destruct (startsWith objectPath "/objects/") eqn:E; [done|].
    apply prefix_append. }
  split_and!; [done| |].
  - unfold getFileUrl. destruct (startsWith objectPath "/objects/") eqn:E; [done|].
    split; [|done]. intros Heq. apply (f_equal String.length) in Heq.
    rewrite length_append in Heq. simpl in Heq. lia.
  - unfold getFileUrl at 1. by rewrite Hp.
Qed.

(** ** Replies across the components *)

Lemma insertBy_last {A} (key : A → Z) (x : A) (l : list A) :
  (∀ y, y ∈ l → key y < key x) → insertBy key x l = l ++ [x].
Proof.
  induction l as [|y l IH]; intros Hlt; [done|]. simpl.
  rewrite bool_decide_true by (apply Hlt; left).
  f_equal. apply IH. intros z Hz. apply Hlt. by right.
Qed.

Lemma chain_mono (cs cs' l : list Comment.t) :
  (∀ c, c ∈ cs → c ∈ cs') → chain cs l → chain cs' l.
Proof.
  intros Hsub. induction 1 as [r Hr Hroot|d c path Hch IH Hd Hpar].
  - constructor; [by apply Hsub|done].
  - constructor; [done|by apply Hsub|done].
Qed.

Lemma rooted_mono (cs cs' : list Comment.t) (x : Comment.t) :
  (∀ c, c ∈ cs → c ∈ cs') → rooted cs x → rooted cs' x.
Proof. intros Hsub [path Hch]. exists path. by eapply chain_mono. Qed.

Lemma truthy_Some (s : option string) (x : string) :
  truthy s = Some x ↔ s = Some x ∧ x ≠ EmptyString.
Proof.
  destruct s as [y|]; simpl.
  - case_bool_decide as Hy.
    + split; [done|]. intros [[= ->] Hne]. done.
    + split; [by intros [= ->]|]. by intros [[= ->] _].
  - split; [done|]. by intros [? _].
Qed.

(** X25: a reply stored for a comment of a file, under a fresh id and at
    a time later than every stored comment, shows up as the last reply of
    that comment: whatever list the server returns for the file afterwards,
    the new row is its first element, the rest is a list the server could
    have returned before, and in the forest built from the whole list the
    replies of the comment are those it has in the forest built from the
    rest, in the same order, followed by the new row. *)
Theorem reply_appears_last (fuel : nat) (h0 : Heap) (db : Db)
    (ins : InsertComment.t) (now : Z) (newId : string) (target : Comment.t) :
  NoDup (Comment.id <$> comments db) →
  newId ∉ Comment.id <$> comments db →
  (∀ c, c ∈ comments db → Comment.createdAt c < now) →
  rooted (filter (λ c, Comment.fileId c = InsertComment.fileId ins) (comments db))
         target →
  InsertComment.parentId ins = Some (Comment.id target) →
  Comment.id target ≠ EmptyString →
  (S (length (comments db)) < fuel)%nat →
  let db' := (createComment db ins now newId).1 in
  let row := (createComment db ins now newId).2 in
  ∀ l', commentsByFileIdReturns db' (InsertComment.fileId ins) l' →
    ∃ rest forest forest' n n',
      l' = row :: rest ∧
      commentsByFileIdReturns db (InsertComment.fileId ins) rest ∧
      commentForest fuel h0 rest = Some forest ∧
      commentForest fuel h0 l' = Some forest' ∧
      findCommentInTree forest (Comment.id target) = Some n ∧
      findCommentInTree forest' (Comment.id target) = Some n' ∧
      rootOf n = target ∧ rootOf n' = target ∧
      rootOf <$> repliesOf n' = (rootOf <$> repliesOf n) ++ [row].
Proof.
  intros Hnd Hfresh Hnow Hrooted Hpar Hid Hlen db' row l' Hl'.
  set (f := InsertComment.fileId ins) in *.
  set (rows := filter (λ c, Comment.fileId c = f) (comments db)) in *.
  assert (∃ rest, l' = row :: rest ∧ commentsByFileIdReturns db f rest)
    as (cs & -> & Hcs).
  { unfold commentsByFileIdReturns, db' in Hl'. simpl in Hl'.
    rewrite filter_snoc, decide_True in Hl' by done.
    apply mayReturn_snoc_newest in Hl'; [done|].
    intros y Hy. apply list_elem_of_filter in Hy as [_ Hy]. by apply Hnow. }
  destruct Hcs as [Hperm Hsorted]. fold rows in Hperm.
  assert (∀ c, c ∈ cs ↔ c ∈ rows) as Hin by (intros c; by rewrite Hperm).
  assert (∀ c, c ∈ cs → c ∈ comments db) as Hsub.
  { intros c Hc. apply Hin in Hc. by apply list_elem_of_filter in Hc as [_ ?]. }
  assert (NoDup (Comment.id <$> cs)) as Hndcs.
  { rewrite Hperm. by apply NoDup_fmap_filter. }
  assert (NoDup (Comment.id <$> row :: cs)) as Hndcs'.
  { rewrite fmap_cons. apply NoDup_cons. split; [|done].
    intros Hc. apply Hfresh. apply list_elem_of_fmap in Hc as (c & Hc & Hcin).
    simpl in Hc. rewrite Hc. apply list_elem_of_fmap_2. by apply Hsub. }
  assert (length cs ≤ length (comments db))%nat as Hle.
  { rewrite Hperm. apply length_filter. }
  destruct (commentForest_total fuel h0 cs Hndcs) as (forest & Hth & Hf); [lia|].
  destruct (commentForest_total fuel h0 (row :: cs) Hndcs')
    as (forest' & Hth' & Hf'); [simpl; lia|].
  assert (rooted cs target) as Hrcs.
  { eapply rooted_mono; [|exact Hrooted]. intros c Hc. by apply Hin. }
  assert (target ∈ cs) as Htin by by apply rooted_elem.
  assert (rooted (row :: cs) target) as Hrooted'.
  { eapply rooted_mono; [|exact Hrcs]. intros c Hc. by right. }
  destruct (findCommentInTree_threads fuel cs forest target Hndcs Hth Htin)
    as [Hfind _].
  destruct (Hfind Hrcs) as (n & Hn & Hroot & Hkids).
  destruct (findCommentInTree_threads fuel (row :: cs) forest' target Hndcs' Hth')
    as [Hfind' _]; [by right|].
  destruct (Hfind' Hrooted') as (n' & Hn' & Hroot' & Hkids').
  exists cs, forest, forest', n, n'. split_and!; [done|done|done..|].
  rewrite Hkids', Hkids. unfold childrenOf. rewrite filter_cons.
  rewrite decide_True.
  - rewrite sortBy_cons. apply insertBy_last. intros y Hy.
    apply elem_of_sortBy, list_elem_of_filter in Hy as [_ Hy].
    apply Hnow. by apply Hsub.
  - apply truthy_Some. by rewrite <- Hpar.
Qed.

Lemma reply_appears_last_witness :
  ∃ rest forest forest' n n',
    getCommentsByFileId
      (createComment threadDb
         (InsertComment.mk "f1" (Some "a") "Bo" None "more" None None None
            None None) 40 "z").1 "f1"
    = Comment.mk "z" "f1" (Some "a") "Bo" None "more" "To Do" None None None
        None 40 40 :: rest ∧
    commentsByFileIdReturns threadDb "f1" rest ∧
    commentForest 4 [] rest = Some forest ∧
    commentForest 4 []
      (getCommentsByFileId
         (createComment threadDb
            (InsertComment.mk "f1" (Some "a") "Bo" None "more" None None None
               None None) 40 "z").1 "f1") = Some forest' ∧
    findCommentInTree forest "a" = Some n ∧
    findCommentInTree forest' "a" = Some n' ∧
    rootOf n = reply "a" None 30 ∧ rootOf n' = reply "a" None 30 ∧
    rootOf <$> repliesOf n'
    = (rootOf <$> repliesOf n)
      ++ [Comment.mk "z" "f1" (Some "a") "Bo" None "more" "To Do" None None None
            None 40 40].
Proof.
  apply (reply_appears_last 4 [] threadDb
           (InsertComment.mk "f1" (Some "a") "Bo" None "more" None None None
              None None) 40 "z" (reply "a" None 30)).
  - apply (bool_decide_unpack _). by vm_compute.
  - apply (bool_decide_unpack _). by vm_compute.
  - intros c Hc. apply elem_of_cons in Hc as [->|Hc]; [simpl; lia|].
    apply list_elem_of_singleton in Hc as ->. simpl. lia.
  - exists []. constructor; [|done]. vm_compute. left.
  - reflexivity.
  - discriminate.
  - simpl. lia.
  - apply getCommentsByFileId_returns.
Defined.

Lemma subtrees_self (t : CommentWithReplies) : t ∈ subtrees t.
Proof. destruct t. left. Qed.

Lemma forest_forestNodes (forest : list CommentWithReplies) (t : CommentWithReplies) :
  t ∈ forest → t ∈ forestNodes forest.
Proof.
  intros Ht. unfold forestNodes. apply elem_of_concat_fmap.
  exists t. split; [apply subtrees_self|done].
Qed.

(** X26: for comments with pairwise distinct ids, the replies the
    timeline of a video lists below an entry are the replies the threaded
    list hangs below the same comment: sorted by [createdAt] they are the
    roots of the [replies] array of its node in the forest. *)
Theorem video_replies_agree (fuel : nat) (h0 : Heap) (cs : list Comment.t)
    (c : Comment.t) (rs : list Comment.t) :
  NoDup (Comment.id <$> cs) → (length cs < fuel)%nat →
  (c, rs) ∈ Video.timeline cs → Comment.id c ≠ EmptyString →
  ∃ forest n,
    commentForest fuel h0 cs = Some forest ∧
    n ∈ forest ∧ rootOf n = c ∧
    rootOf <$> repliesOf n = sortBy Comment.createdAt rs.
Proof.
  intros Hnd Hlen Hin Hid.
  destruct (commentForest_total fuel h0 cs Hnd Hlen) as (forest & Hth & Hf).
  unfold Video.timeline in Hin.
  apply list_elem_of_fmap in Hin as (c' & [= <- ->] & Hc).
  apply elem_of_timestampComments in Hc as (Hc & _ & Hroot).
  assert (c ∈ rootOf <$> forest) as Hcin.
  { rewrite (threads_roots fuel cs forest Hth).
    apply elem_of_sortBy, list_elem_of_filter. split; [|done].
    by apply Is_true_true. }
  apply list_elem_of_fmap in Hcin as (n & -> & Hn).
  exists forest, n. split_and!; [done..|].
  rewrite (threads_nodes cs fuel forest n Hth) by by apply forest_forestNodes.
  f_equal. unfold childrenOf, Video.getReplies. apply list_filter_iff.
  intros d. rewrite truthy_Some. split; [by intros [? _]|by intros ?].
Qed.

Lemma video_replies_agree_witness :
  ∃ forest n,
    commentForest 4 [] sampleVideo = Some forest ∧
    n ∈ forest ∧ rootOf n = videoComment "a" None (Some 12) 1 ∧
    rootOf <$> repliesOf n = [videoComment "b" (Some "a") None 2].
Proof.
  apply (video_replies_agree 4 [] sampleVideo
           (videoComment "a" None (Some 12) 1)
           [videoComment "b" (Some "a") None 2]).
  - apply (bool_decide_unpack _). by vm_compute.
  - simpl. lia.
  - vm_compute. left.
  - discriminate.
Defined.
